(** * The asset graph of the bundler core (packages/core/core/src/AssetGraph.js)

    A shallow embedding of [AssetGraph], the incremental build graph: its
    node constructors, its two indices ([incompleteNodes], [invalidNodes]),
    the [resolve*] operations and the invalidation path, together with the
    properties the specification states about them.

    [AssetGraph] extends the generic [Graph] class of [./Graph], whose file
    is not part of the sources at hand; the operations of that class are
    modelled from the specification (section 4.1) and are marked as such.

    With the graph come the [Config] object whose invalidations the graph
    links (packages/core/core/src/public/Config.js) and two helpers of the
    babel transformer, [mergeConfigs] and [getFlowConfig]. *)

From Stdlib Require Import String Ascii.
From stdpp Require Import base option list strings relations pretty.

Local Open Scope string_scope.
Local Open Scope list_scope.

#[local] Set Warnings "-clear-no-such-hyp".

(** ** JavaScript [Map] with string keys

    A [Map] iterates in insertion order; [set] on a present key keeps the
    key's position and replaces the value. *)
Module JSMap.

Abbreviation t V := (list (string * V)).

Definition empty {V} : t V := [].

Fixpoint get {V} (k : string) (m : t V) : option V :=
  match m with
  | [] => None
  | (k', v) :: m' => if decide (k' = k) then Some v else get k m'
  end.

Definition has {V} (k : string) (m : t V) : bool :=
  match get k m with Some _ => true | None => false end.

Fixpoint set {V} (k : string) (v : V) (m : t V) : t V :=
  match m with
  | [] => [(k, v)]
  | (k', v') :: m' =>
      if decide (k' = k) then (k, v) :: m' else (k', v') :: set k v m'
  end.

Definition delete {V} (k : string) (m : t V) : t V :=
  filter (λ kv, kv.1 ≠ k) m.

Definition keys {V} (m : t V) : list string := fst <$> m.

Definition values {V} (m : t V) : list V := snd <$> m.

Definition size {V} (m : t V) : nat := length m.

End JSMap.

(** ** Data model *)

Definition NodeId := string.
Definition FilePath := string.

(** Payloads the graph never inspects (environments, configs, dev-dep
    requests, the remaining properties of a request) are plain JavaScript
    values. *)
Inductive JSValue :=
| JSUndefined
| JSNull
| JSBool (b : bool)
| JSNumber (n : Z)
| JSString (s : string)
| JSArray (xs : JSElements)
| JSObject (props : JSProperties)
with JSElements :=
| JSNoElement
| JSElement (x : JSValue) (xs : JSElements)
with JSProperties :=
| JSNoProperty
| JSProperty (key : string) (x : JSValue) (props : JSProperties).

Definition Environment := JSValue.

Record Target := mkTarget {
  target_env : Environment;
  target_rest : JSValue
}.

Record TransformerRequest := mkTransformerRequest {
  req_filePath : FilePath;
  req_env : Environment;
  req_rest : JSValue
}.

Record File := mkFile { file_filePath : FilePath }.

Record Dependency := mkDependency {
  dep_id : NodeId;
  moduleSpecifier : string;
  dep_target : option Target;
  dep_env : Environment;
  isEntry : bool
}.

Record Asset := mkAsset {
  asset_id : NodeId;
  dependencies : list Dependency;
  asset_rest : JSValue
}.

Record ConfigRequest := mkConfigRequest {
  cr_filePath : FilePath;
  configType : string;
  cr_rest : JSValue
}.

Record DevDep := mkDevDep { devDep_name : string; devDep_version : string }.

Record CacheEntry := mkCacheEntry { assets : list Asset }.

(** An invalidation hint [{action, pattern}] whose pattern is a string, the
    type [isGlob] and [nodeFromFile] take.  [resolveConfigRequest] hands
    the pattern to [isGlob] before it looks at the action; a hint whose
    pattern is [undefined], which [Config.getInvalidations] yields for a
    config without resolved path, is outside this type, and so outside
    what is stated of [resolveConfigRequest]. *)
Record Invalidation := mkInvalidation { action : string; pattern : string }.

(** The result handed to [resolveConfigRequest]; [invalidations] defaults
    to the empty array when the property is absent. *)
Record ConfigResult := mkConfigResult {
  config : JSValue;
  devDepRequests : list JSValue;
  invalidations : option (list Invalidation)
}.

Inductive NodeType :=
| root | dependency | file | glob | transformer_request | asset
| asset_reference | config_request | config_node | dev_dep_request | dev_dep.

(** A node is [{id, type, value}]; as in the Flow type [AssetGraphNode] the
    [type] tag determines the shape of [value], so the tag is read off the
    payload. *)
Inductive NodeValue :=
| VRoot (rootDir : string)
| VDependency (d : Dependency)
| VFile (f : File)
| VGlob (g : string)
| VTransformerRequest (r : TransformerRequest)
| VAsset (a : Asset)
| VAssetReference (a : Asset)
| VConfigRequest (c : ConfigRequest)
| VConfig (c : JSValue)
| VDevDepRequest (r : JSValue)
| VDevDep (d : DevDep).

Record Node := mkNode { node_id : NodeId; node_value : NodeValue }.

Definition node_type (n : Node) : NodeType :=
  match node_value n with
  | VRoot _ => root
  | VDependency _ => dependency
  | VFile _ => file
  | VGlob _ => glob
  | VTransformerRequest _ => transformer_request
  | VAsset _ => asset
  | VAssetReference _ => asset_reference
  | VConfigRequest _ => config_request
  | VConfig _ => config_node
  | VDevDepRequest _ => dev_dep_request
  | VDevDep _ => dev_dep
  end.

Definition type_name (t : NodeType) : string :=
  match t with
  | root => "root"
  | dependency => "dependency"
  | file => "file"
  | glob => "glob"
  | transformer_request => "transformer_request"
  | asset => "asset"
  | asset_reference => "asset_reference"
  | config_request => "config_request"
  | config_node => "config"
  | dev_dep_request => "dev_dep_request"
  | dev_dep => "dev_dep"
  end.

Inductive EdgeType :=
| produces
| invalidated_by_change_to
| invalidated_by_addition_matching
| invalidated_by_removal_of
| configures
| resolves_to.

(** An edge [{from, to, type}]; an absent [type] is the default edge type. *)
Record Edge := mkEdge {
  edge_from : NodeId;
  edge_to : NodeId;
  edge_type : option EdgeType
}.

#[global] Instance NodeType_eq_dec : EqDecision NodeType.
Proof. solve_decision. Defined.

#[global] Instance EdgeType_eq_dec : EqDecision EdgeType.
Proof. solve_decision. Defined.

#[global] Instance Edge_eq_dec : EqDecision Edge.
Proof. solve_decision. Defined.

(** ** Collaborators outside the graph

    [md5FromString] (@parcel/utils), [JSON.stringify], [isGlob]
    (@parcel/utils), [isMatch] (micromatch), and the identifier the
    [Dependency] constructor gives to the [k]-th dependency created in the
    process. *)
Class Externals := {
  md5FromString : string → string;
  JSON_stringify : JSValue → string;
  isGlob : string → bool;
  isMatch : string → string → bool;
  dependencyId : nat → NodeId
}.

(** ** Exceptions and the state they leave behind *)

Inductive Exception :=
| Error (message : string)
| TypeError.

(** ** The graph object

    [nodes], [edges] and [rootNodeId] are the fields inherited from
    [Graph]; [incompleteNodes] and [invalidNodes] are the two indices
    [AssetGraph] adds.  The subgraphs a [Graph] method hands back are built
    with [new this.constructor()], hence are objects of the same class. *)
Record AssetGraph := mkAssetGraph {
  nodes : JSMap.t Node;
  edges : list Edge;
  rootNodeId : option NodeId;
  incompleteNodes : JSMap.t Node;
  invalidNodes : JSMap.t Node
}.

Definition newAssetGraph : AssetGraph :=
  mkAssetGraph JSMap.empty [] None JSMap.empty JSMap.empty.

Definition with_nodes (f : JSMap.t Node → JSMap.t Node) (g : AssetGraph) : AssetGraph :=
  mkAssetGraph (f (nodes g)) (edges g) (rootNodeId g) (incompleteNodes g) (invalidNodes g).

Definition with_edges (f : list Edge → list Edge) (g : AssetGraph) : AssetGraph :=
  mkAssetGraph (nodes g) (f (edges g)) (rootNodeId g) (incompleteNodes g) (invalidNodes g).

Definition with_rootNodeId (r : option NodeId) (g : AssetGraph) : AssetGraph :=
  mkAssetGraph (nodes g) (edges g) r (incompleteNodes g) (invalidNodes g).

Definition with_incompleteNodes (f : JSMap.t Node → JSMap.t Node) (g : AssetGraph) : AssetGraph :=
  mkAssetGraph (nodes g) (edges g) (rootNodeId g) (f (incompleteNodes g)) (invalidNodes g).

Definition with_invalidNodes (f : JSMap.t Node → JSMap.t Node) (g : AssetGraph) : AssetGraph :=
  mkAssetGraph (nodes g) (edges g) (rootNodeId g) (incompleteNodes g) (f (invalidNodes g)).

(** A method either returns or throws; the mutations made before a throw
    stay in the object. *)
Inductive Res (A : Type) :=
| Ok (a : A) (g : AssetGraph)
| Throw (e : Exception) (g : AssetGraph).
Arguments Ok {A} a g.
Arguments Throw {A} e g.

Definition M (A : Type) : Type := AssetGraph → Res A.

Definition ret {A} (a : A) : M A := λ g, Ok a g.

Definition throw {A} (e : Exception) : M A := λ g, Throw e g.

Definition bind {A B} (m : M A) (k : A → M B) : M B :=
  λ g, match m g with
       | Ok a g' => k a g'
       | Throw e g' => Throw e g'
       end.

Definition modify (f : AssetGraph → AssetGraph) : M unit := λ g, Ok tt (f g).

Definition when (b : bool) (m : M unit) : M unit := if b then m else ret tt.

Fixpoint forEach {A} (xs : list A) (body : A → M unit) : M unit :=
  match xs with
  | [] => ret tt
  | x :: xs' => bind (body x) (λ _, forEach xs' body)
  end.

Declare Scope js_scope.
Delimit Scope js_scope with js.
Notation "x <- m ;; k" := (bind m (λ x, k))
  (at level 100, m at next level, right associativity) : js_scope.
Notation "m ;;; k" := (bind m (λ _, k))
  (at level 100, right associativity) : js_scope.

Definition state_of {A} (r : Res A) : AssetGraph :=
  match r with Ok _ g => g | Throw _ g => g end.

Definition throws {A} (r : Res A) : bool :=
  match r with Ok _ _ => false | Throw _ _ => true end.

(** ** The inherited [Graph] methods *)

(** Modelled from the spec: [Graph.addNode] (./Graph is not among the
    sources); [add_node(node)] stores the node under its id. *)
Definition addNode (n : Node) (g : AssetGraph) : AssetGraph :=
  with_nodes (JSMap.set (node_id n) n) g.

(** Modelled from the spec: [Graph.getNode]. *)
Definition getNode (k : NodeId) (g : AssetGraph) : option Node :=
  JSMap.get k (nodes g).

(** Modelled from the spec: [Graph.hasEdge]; edge identity is the triple
    (from-id, to-id, type). *)
Definition hasEdge (e : Edge) (g : AssetGraph) : bool :=
  bool_decide (e ∈ edges g).

(** Modelled from the spec: [Graph.addEdge]; a duplicate of the same triple
    is a no-op. *)
Definition addEdge (e : Edge) (g : AssetGraph) : AssetGraph :=
  if hasEdge e g then g else with_edges (λ es, es ++ [e]) g.

(** Modelled from the spec: [Graph.setRootNode]; the root is a node of the
    graph and the anchor of reachability. *)
Definition setRootNode (n : Node) (g : AssetGraph) : AssetGraph :=
  with_rootNodeId (Some (node_id n)) (addNode n g).

(** Modelled from the spec: [Graph.getNodesConnectedTo]; the nodes with an
    edge of the given type into [n], an unfiltered query ranging over the
    default type only. *)
Definition getNodesConnectedTo (n : Node) (ty : option EdgeType) (g : AssetGraph) : list Node :=
  omap (λ e, getNode (edge_from e) g)
       (filter (λ e, edge_to e = node_id n ∧ edge_type e = ty) (edges g)).

(** Modelled from the spec: [Graph.getNodesConnectedFrom]; the nodes [n] has
    an edge of the given type to. *)
Definition getNodesConnectedFrom (n : Node) (ty : option EdgeType) (g : AssetGraph) : list Node :=
  omap (λ e, getNode (edge_to e) g)
       (filter (λ e, edge_from e = node_id n ∧ edge_type e = ty) (edges g)).

(** Modelled from the spec: [Graph.removeNode] ([super.removeNode] below);
    [remove_node] deletes the node and every edge incident to it. *)
Definition Graph_removeNode (n : Node) (g : AssetGraph) : AssetGraph :=
  with_edges (filter (λ e, edge_from e ≠ node_id n ∧ edge_to e ≠ node_id n))
             (with_nodes (JSMap.delete (node_id n)) g).

(** Modelled from the spec: disconnecting a child deletes the one edge. *)
Definition removeEdge (e : Edge) (g : AssetGraph) : AssetGraph :=
  with_edges (filter (λ e', e' ≠ e)) g.

(** Modelled from the spec: "reachable through any edge type"; [linked es a
    b] holds when some edge of [es], of any type, goes from [a] to [b]. *)
Definition linked (es : list Edge) (a b : NodeId) : bool :=
  bool_decide (Exists (λ e, edge_from e = a ∧ edge_to e = b) es).

(** Modelled from the spec: reachability, decided node by node;
    [reach_via es ks a b] holds when [b] is [a] or can be reached from [a]
    along edges of [es], every node strictly in between being one of
    [ks]. *)
Fixpoint reach_via (es : list Edge) (ks : list NodeId) (a b : NodeId) : bool :=
  match ks with
  | [] => bool_decide (a = b) || linked es a b
  | k :: ks' =>
      if reach_via es ks' a b then true
      else if reach_via es ks' a k then reach_via es ks' k b
      else false
  end.

(** Modelled from the spec: reachability through edges of any type, the
    notion pruning is defined by. *)
Definition reach (es : list Edge) (a b : NodeId) : bool :=
  reach_via es (remove_dups (edge_from <$> es)) a b.

(** Modelled from the spec: "reachable from the Root"; without a root
    nothing is. *)
Definition reachableFromRoot (g : AssetGraph) (x : NodeId) : bool :=
  match rootNodeId g with
  | Some r => reach (edges g) r x
  | None => false
  end.

(** ** [AssetGraph.removeNode] (the override)

    The override forgets the node in [incompleteNodes] and hands over to
    [super.removeNode]; what that call returns is passed on and is of no
    concern to the graph itself. *)

(** Lines 179-182. *)
Definition removeNode (n : Node) (g : AssetGraph) : AssetGraph :=
  Graph_removeNode n (with_incompleteNodes (JSMap.delete (node_id n)) g).

(** ** [replaceNodesConnectedTo], the reconciliation primitive *)

(** Modelled from the spec: the graph after the operation and the two
    subgraphs it returns. *)
Record Replaced := mkReplaced {
  this_after : AssetGraph;
  added : AssetGraph;
  removed : AssetGraph
}.

(** Modelled from the spec: a child of the new set is inserted if no node
    has its id (an existing node is left untouched) and connected if the
    edge is missing; [added] records the nodes inserted and the edges
    made, which is how sections 4.3 and 4.4 read it (a node is in [added]
    when it is newly created, not when it is shared). *)
Definition connectChild (p : NodeId) (ty : option EdgeType)
    (st : AssetGraph * AssetGraph) (c : Node) : AssetGraph * AssetGraph :=
  let '(g, add) := st in
  let '(g, add) :=
    if JSMap.has (node_id c) (nodes g) then (g, add)
    else (addNode c g, addNode c add) in
  let e := mkEdge p (node_id c) ty in
  if hasEdge e g then (g, add) else (addEdge e g, addEdge e add).

(** Modelled from the spec: the nodes to prune once child [c] has been
    disconnected: [c] and its descendants, as far as they are no longer
    reachable from the root. *)
Definition doomed (c : NodeId) (g : AssetGraph) : list Node :=
  filter (λ n, reach (edges g) c (node_id n) = true
               ∧ reachableFromRoot g (node_id n) = false)
         (JSMap.values (nodes g)).

(** Modelled from the spec: the transitive prune removes the nodes one by
    one through [this.removeNode]. *)
Definition removeNodes (ds : list Node) (g : AssetGraph) : AssetGraph :=
  fold_left (λ g n, removeNode n g) ds g.

(** Modelled from the spec: an old child absent from the new set is
    disconnected; if it is then unreachable from the root it is removed
    with its exclusively reachable descendants, through [this.removeNode]
    (which is [AssetGraph]'s override).  [removed] records the edge, the
    nodes pruned and the edges that went with them. *)
Definition disconnectChild (st : AssetGraph * AssetGraph) (e : Edge)
    : AssetGraph * AssetGraph :=
  let g1 := removeEdge e st.1 in
  let rem1 := addEdge e st.2 in
  if reachableFromRoot g1 (edge_to e) then (g1, rem1)
  else
    let ds := doomed (edge_to e) g1 in
    let g2 := removeNodes ds g1 in
    let lost := filter (λ e', e' ∉ edges g2) (edges g1) in
    (g2, fold_left (λ r e', addEdge e' r) lost (fold_left (λ r n, addNode n r) ds rem1)).

(** Modelled from the spec: the two passes of [replaceNodesConnectedTo],
    over the new children and over the edges to remove. *)
Definition connectAll (p : NodeId) (ty : option EdgeType) (cs : list Node)
    (st : AssetGraph * AssetGraph) : AssetGraph * AssetGraph :=
  fold_left (connectChild p ty) cs st.

Definition disconnectAll (R : list Edge) (st : AssetGraph * AssetGraph)
    : AssetGraph * AssetGraph :=
  fold_left disconnectChild R st.

(** Modelled from the spec: [Graph.replaceNodesConnectedTo(node,
    new_children, type)]: the children of the new set are connected first,
    then each old child outside the new set is disconnected and, if
    orphaned, pruned. *)
Definition replaceNodesConnectedTo (fromNode : Node) (toNodes : list Node)
    (ty : option EdgeType) (g : AssetGraph) : Replaced :=
  let edgesBefore :=
    filter (λ e, edge_from e = node_id fromNode ∧ edge_type e = ty) (edges g) in
  let connected := connectAll (node_id fromNode) ty toNodes (g, newAssetGraph) in
  let edgesToRemove :=
    filter (λ e, edge_to e ∉ node_id <$> toNodes) edgesBefore in
  let pruned := disconnectAll edgesToRemove (connected.1, newAssetGraph) in
  mkReplaced pruned.1 connected.2 pruned.2.

(** ** Node constructors (AssetGraph.js, lines 28-86) *)

Section Constructors.
Context `{!Externals}.

Definition nodeFromRootDir (rootDir : string) : Node :=
  mkNode rootDir (VRoot rootDir).

Definition nodeFromDep (dep : Dependency) : Node :=
  mkNode (dep_id dep) (VDependency dep).

Definition nodeFromFile (f : File) : Node :=
  mkNode (file_filePath f) (VFile f).

Definition nodeFromGlob (g : string) : Node :=
  mkNode g (VGlob g).

Definition nodeFromTransformerRequest (req : TransformerRequest) : Node :=
  mkNode (md5FromString (req_filePath req +:+ ":" +:+ JSON_stringify (req_env req)))
         (VTransformerRequest req).

Definition nodeFromAsset (a : Asset) : Node :=
  mkNode (asset_id a) (VAsset a).

Definition nodeFromConfigRequest (req : ConfigRequest) : Node :=
  mkNode (md5FromString (cr_filePath req +:+ ":" +:+ configType req))
         (VConfigRequest req).

Definition nodeFromConfig (c : JSValue) : Node :=
  mkNode "TODO_MAKE_UNIQUE" (VConfig c).

Definition nodeFromDevDepRequest (devDepRequest : JSValue) : Node :=
  mkNode (md5FromString (JSON_stringify devDepRequest)) (VDevDepRequest devDepRequest).

Definition nodeFromDevDep (devDep : DevDep) : Node :=
  mkNode (md5FromString (devDep_name devDep +:+ ":" +:+ devDep_version devDep))
         (VDevDep devDep).

(** Lines 88-106 and 426-432: the nodes of one type, in the order of the
    [nodes] map. *)
Definition getFileNodesFromGraph (g : AssetGraph) : list Node :=
  filter (λ n, node_type n = file) (JSMap.values (nodes g)).

Definition getFilesFromGraph (g : AssetGraph) : list File :=
  omap (λ n, match node_value n with VFile f => Some f | _ => None end)
       (getFileNodesFromGraph g).

Definition getDepNodesFromGraph (g : AssetGraph) : list Node :=
  filter (λ n, node_type n = dependency) (JSMap.values (nodes g)).

Definition getGlobNodesFromGraph (g : AssetGraph) : list Node :=
  filter (λ n, node_type n = glob) (JSMap.values (nodes g)).

(** ** [initializeGraph] *)

Record AssetGraphOpts := mkAssetGraphOpts {
  opt_entries : option (list string);
  opt_targets : option (list Target);
  opt_transformerRequest : option TransformerRequest;
  opt_rootDir : string
}.

(** Modelled from the spec: the [Dependency] constructor (./Dependency is
    not among the sources) keeps the properties it is given and assigns a
    process-unique id; [k] counts the dependencies the process has created
    before this one. *)
Definition newDependency (specifier : string) (target : Target)
    (env : Environment) (entry : bool) (k : nat) : Dependency :=
  mkDependency (dependencyId k) specifier (Some target) env entry.

(** Lines 154-167: the two nested loops over [entries] and [targets], each
    turn creating the next dependency of the process. *)
Definition entryNodes (entries : list string) (targets : list Target) (k : nat)
    : list Node :=
  imap (λ i et, nodeFromDep (newDependency et.1 et.2 (target_env et.2) true (k + i)))
       (list_prod entries targets).

(** The closing loop [for (let n of ns) this.incompleteNodes.set(n.id, n)]. *)
Definition registerIncomplete (ns : list Node) (g : AssetGraph) : AssetGraph :=
  fold_left (λ g n, with_incompleteNodes (JSMap.set (node_id n) n) g) ns g.

(** Lines 139-177; [k] is the number of dependencies the process has created
    so far. *)
Definition initializeGraph (opts : AssetGraphOpts) (k : nat) : M unit :=
  (let rootNode := nodeFromRootDir (opt_rootDir opts) in
   modify (setRootNode rootNode) ;;;
   ns <- match opt_entries opts with
         | Some entries =>
             match opt_targets opts with
             | None => throw (Error "Targets are required when entries are specified")
             | Some targets => ret (entryNodes entries targets k)
             end
         | None =>
             match opt_transformerRequest opts with
             | Some req => ret [nodeFromTransformerRequest req]
             | None => ret []
             end
         end ;;
   modify (λ g, this_after (replaceNodesConnectedTo rootNode ns None g)) ;;;
   modify (registerIncomplete ns))%js.

(** ** [resolveDependency] *)

Record DepUpdates := mkDepUpdates {
  newRequestNode : option Node;
  prunedFiles : list File
}.

(** Lines 188-205. *)
Definition resolveDependency (dep : Dependency) (req : TransformerRequest)
    (g : AssetGraph) : AssetGraph * DepUpdates :=
  let depNode := nodeFromDep dep in
  let g := with_incompleteNodes (JSMap.delete (node_id depNode)) g in
  let g := with_invalidNodes (JSMap.delete (node_id depNode)) g in
  let requestNode := nodeFromTransformerRequest req in
  let r := replaceNodesConnectedTo depNode [requestNode] None g in
  let g := this_after r in
  let fresh := negb (Nat.eqb (JSMap.size (nodes (added r))) 0) in
  let g :=
    if fresh then with_incompleteNodes (JSMap.set (node_id requestNode) requestNode) g
    else g in
  (g, mkDepUpdates (if fresh then Some requestNode else None)
                   (getFilesFromGraph (removed r))).

(** ** [resolveTransformerRequest] *)

Record FileUpdates := mkFileUpdates { newDepNodes : list Node }.

(** Lines 240-246, one turn of the loop over [assetNodes]: the asset node is
    [nodeFromAsset a], so [assetNode.value.dependencies] is
    [dependencies a]. *)
Definition connectDependencies (st : AssetGraph * list Node) (a : Asset)
    : AssetGraph * list Node :=
  let depNodes := nodeFromDep <$> dependencies a in
  let r := replaceNodesConnectedTo (nodeFromAsset a) depNodes None st.1 in
  (this_after r, st.2 ++ getDepNodesFromGraph (added r)).

(** Lines 211-253. *)
Definition resolveTransformerRequest (req : TransformerRequest)
    (cacheEntry : CacheEntry) (g : AssetGraph) : AssetGraph * FileUpdates :=
  let requestNode := nodeFromTransformerRequest req in
  let g := with_incompleteNodes (JSMap.delete (node_id requestNode)) g in
  let g := with_invalidNodes (JSMap.delete (node_id requestNode)) g in
  let fileNodes := [nodeFromFile (mkFile (req_filePath req))] in
  let assetNodes := nodeFromAsset <$> assets cacheEntry in
  let g := this_after (replaceNodesConnectedTo requestNode assetNodes (Some produces) g) in
  let g := this_after (replaceNodesConnectedTo requestNode fileNodes
                         (Some invalidated_by_change_to) g) in
  let st := fold_left connectDependencies (assets cacheEntry) (g, []) in
  (registerIncomplete st.2 st.1, mkFileUpdates st.2).

(** ** Config and dev-dep requests *)

(** The one-character string holding a double quote. *)
Definition dquote : string := String (ascii_of_nat 34) EmptyString.

(** Lines 490-501. *)
Definition getInvalidationEdgeType (action : string) : Exception + EdgeType :=
  if decide (action = "change") then inr invalidated_by_change_to
  else if decide (action = "add") then inr invalidated_by_addition_matching
  else if decide (action = "unlink") then inr invalidated_by_removal_of
  else inl (Error ("Unrecognized invalidation action " +:+ dquote +:+ action +:+ dquote)).

Definition liftE {A} (r : Exception + A) : M A :=
  match r with inl e => throw e | inr a => ret a end.

(** Lines 255-262. *)
Definition addConfigRequest (configRequestNode node : Node) (g : AssetGraph)
    : AssetGraph * Node :=
  if JSMap.has (node_id configRequestNode) (nodes g) then (g, configRequestNode)
  else
    (addEdge (mkEdge (node_id node) (node_id configRequestNode) None)
             (addNode configRequestNode g),
     configRequestNode).

(** Lines 275-292, one turn of the loop over [invalidations], the pattern
    being a string. *)
Definition linkInvalidation (configRequestNode : Node) (i : Invalidation) : M unit :=
  (let invalidateNode :=
     if isGlob (pattern i) then nodeFromGlob (pattern i)
     else nodeFromFile (mkFile (pattern i)) in
   edgeType <- liftE (getInvalidationEdgeType (action i)) ;;
   let edge := mkEdge (node_id configRequestNode) (node_id invalidateNode) (Some edgeType) in
   modify (λ g, if hasEdge edge g then g else addEdge edge (addNode invalidateNode g)))%js.

(** Lines 295-308, one turn of the loop over [devDepRequests]. *)
Definition linkDevDepRequest (configRequestNode : Node) (devDepRequest : JSValue)
    (g : AssetGraph) : AssetGraph :=
  let devDepRequestNode := nodeFromDevDepRequest devDepRequest in
  let g := addNode devDepRequestNode g in
  let edge := mkEdge (node_id configRequestNode) (node_id devDepRequestNode) (Some configures) in
  if hasEdge edge g then g
  else with_incompleteNodes (JSMap.set (node_id devDepRequestNode) devDepRequestNode)
                            (addEdge edge g).

(** Lines 264-311; the value returned is [devDepRequestNodes]. *)
Definition resolveConfigRequest (result : ConfigResult) (configRequestNode : Node)
    : M (list Node) :=
  (modify (with_incompleteNodes (JSMap.delete (node_id configRequestNode))) ;;;
   modify (with_invalidNodes (JSMap.delete (node_id configRequestNode))) ;;;
   let configNode := nodeFromConfig (config result) in
   let edge := mkEdge (node_id configRequestNode) (node_id configNode) None in
   modify (λ g, if hasEdge edge g then g else addEdge edge (addNode configNode g)) ;;;
   forEach (default [] (invalidations result)) (linkInvalidation configRequestNode) ;;;
   modify (λ g, fold_left (λ g r, linkDevDepRequest configRequestNode r g)
                          (devDepRequests result) g) ;;;
   ret (nodeFromDevDepRequest <$> devDepRequests result))%js.

(** Lines 313-325; the third parameter, [actionNode], is not used. *)
Definition resolveDevDepRequest (devDepRequestNode : Node) (devDep : DevDep)
    (g : AssetGraph) : AssetGraph :=
  let g := with_incompleteNodes (JSMap.delete (node_id devDepRequestNode)) g in
  let devDepNode := nodeFromDevDep devDep in
  let g := addNode devDepNode g in
  let edge := mkEdge (node_id devDepRequestNode) (node_id devDepNode) (Some resolves_to) in
  if hasEdge edge g then g else addEdge edge g.

(** ** Invalidation *)

(** [let [x] = xs]: the first element, [undefined] for an empty array. *)
Definition first {A} (xs : list A) : option A := head xs.

(** Lines 478-487.  With no parent to destructure, [configRequestNode] is
    [undefined] and [getNodesConnectedTo(undefined)] reads [node.id] of
    [undefined]. *)
Definition getActionNode (node : Node) (g : AssetGraph) : Exception + option Node :=
  match node_type node with
  | dev_dep_request =>
      match first (getNodesConnectedTo node None g) with
      | Some configRequestNode => inr (first (getNodesConnectedTo configRequestNode None g))
      | None => inl TypeError
      end
  | config_request => inr (first (getNodesConnectedTo node None g))
  | _ => inr None
  end.

(** [this.invalidNodes.set(n.id, n)]. *)
Definition markInvalid (n : Node) : M unit :=
  modify (with_invalidNodes (JSMap.set (node_id n) n)).

(** Lines 459-476; [actionNode.id] of an [undefined] action node is a
    [TypeError]. *)
Definition invalidateNode (node : Node) : M unit :=
  (match node_type node with
   | transformer_request | dependency => markInvalid node
   | config_request | dev_dep_request =>
       markInvalid node ;;;
       actionNode <- (λ g, liftE (getActionNode node g) g) ;;
       match actionNode with
       | Some a => markInvalid a
       | None => throw TypeError
       end
   | t => throw (Error ("Cannot invalidate node with unrecognized type " +:+ type_name t))
   end)%js.

(** Lines 452-457. *)
Definition invalidateConnectedNodes (node : Node) (edgeType : option EdgeType) : M unit :=
  (nodesToInvalidate <- (λ g, ret (getNodesConnectedTo node edgeType g) g) ;;
   forEach nodesToInvalidate invalidateNode)%js.

(** [globNode.value], the pattern of a glob node. *)
Definition glob_pattern (n : Node) : string :=
  match node_value n with VGlob p => p | _ => EmptyString end.

(** Lines 434-450, without the [console.log]. *)
Definition respondToFSChange (action path : string) : M unit :=
  (edgeType <- liftE (getInvalidationEdgeType action) ;;
   fileNode <- (λ g, ret (JSMap.get path (nodes g)) g) ;;
   match fileNode with
   | Some f => invalidateConnectedNodes f (Some edgeType)
   | None => ret tt
   end ;;;
   when (bool_decide (action = "add"))
     (globNodes <- (λ g, ret (getGlobNodesFromGraph g) g) ;;
      forEach globNodes (λ globNode,
        when (isMatch path (glob_pattern globNode))
             (invalidateConnectedNodes globNode (Some edgeType)))))%js.

End Constructors.

(** ** [getDependencies] *)

(** The failure of an [invariant(...)] call, the [assert] of Node. *)
Inductive AssertionError := assertionError.

(** [xs.map(f)] with a callback that may throw: the first throw ends the
    call. *)
Fixpoint mapE {A B E} (f : A → E + B) (xs : list A) : E + list B :=
  match xs with
  | [] => inr []
  | x :: xs' =>
      match f x with
      | inl e => inl e
      | inr b =>
          match mapE f xs' with
          | inl e => inl e
          | inr bs => inr (b :: bs)
          end
      end
  end.

(** Lines 327-337; [getNodesConnectedFrom(node)] without a type is the
    query over the default edges. *)
Definition getDependencies (a : Asset) (g : AssetGraph)
    : AssertionError + list Dependency :=
  match getNode (asset_id a) g with
  | None => inr []
  | Some node =>
      mapE (λ n, match node_value n with
                 | VDependency d => inr d
                 | _ => inl assertionError
                 end)
           (getNodesConnectedFrom node None g)
  end.

(** ** The config object of a config request (public/Config.js)

    [Config] keeps its included files in a [Set] and its dev-dep versions
    in a [Map]. *)

(** JavaScript [Set] of strings.

    A [Set] iterates in insertion order and holds no element twice; [add]
    of a present element changes nothing. *)
Module JSSet.

Abbreviation t := (list string).

Definition add (x : string) (s : t) : t :=
  if decide (x ∈ s) then s else s ++ [x].

(** [new Set(iterable)]; an absent iterable gives the empty set. *)
Definition from (xs : option (list string)) : t :=
  fold_left (λ s x, add x s) (default [] xs) [].

End JSSet.

(** [new Map(iterable)] over [[key, value]] pairs; an absent iterable gives
    the empty map. *)
Definition JSMap_from {V} (kvs : option (list (string * V))) : JSMap.t V :=
  fold_left (λ m kv, JSMap.set kv.1 kv.2 m) (default [] kvs) JSMap.empty.

(** The conversion to boolean that [||], [!] and [if] apply; the numbers
    of [JSValue] are integers, so [0] is the one falsy number. *)
Definition truthy (v : JSValue) : bool :=
  match v with
  | JSUndefined | JSNull => false
  | JSBool b => b
  | JSNumber n => negb (Z.eqb n 0)
  | JSString EmptyString => false
  | JSString (String _ _) => true
  | JSArray _ | JSObject _ => true
  end.

(** The same conversion for a property that is a string or absent. *)
Definition truthyString (s : option string) : bool :=
  match s with
  | Some (String _ _) => true
  | _ => false
  end.

Module Config.

(** The Flow type [ConfigOpts] (lines 17-26): an absent optional property
    is [None], an absent [result] is [undefined]. *)
Record Opts := mkOpts {
  o_searchPath : FilePath;
  o_env : Environment;
  o_options : JSValue;
  o_resolvedPath : option FilePath;
  o_result : JSValue;
  o_includedFiles : option (list FilePath);
  o_watchGlob : option string;
  o_devDeps : option (list (string * option string))
}.

(** The fields of the class (lines 29-38); a version of [undefined] in
    [devDeps] is [None]. *)
Record t := mk {
  searchPath : FilePath;
  env : Environment;
  options : JSValue;
  resolvedPath : option FilePath;
  result : JSValue;
  resultHash : option string;
  includedFiles : JSSet.t;
  watchGlob : option string;
  devDeps : JSMap.t (option string);
  pkg : option JSValue
}.

(** An element of the array [getInvalidations] returns; the pattern is
    whatever [resolvedPath] holds, hence possibly [undefined]. *)
Record Invalidation := mkInvalidation {
  action : string;
  pattern : option string
}.

(** Lines 40-58; [resultHash] and [pkg] are not assigned. *)
Definition new (o : Opts) : t :=
  mk (o_searchPath o) (o_env o) (o_options o) (o_resolvedPath o)
     (if truthy (o_result o) then o_result o else JSNull)
     None
     (JSSet.from (o_includedFiles o))
     (o_watchGlob o)
     (JSMap_from (o_devDeps o))
     None.

(** Lines 60-71. *)
Definition serialize (c : t) : Opts :=
  mkOpts (searchPath c) (env c) (options c) (resolvedPath c) (result c)
         (Some (includedFiles c)) (watchGlob c) (Some (devDeps c)).

(** Lines 73-75. *)
Definition setResolvedPath (filePath : FilePath) (c : t) : t :=
  mk (searchPath c) (env c) (options c) (Some filePath) (result c) (resultHash c)
     (includedFiles c) (watchGlob c) (devDeps c) (pkg c).

(** Lines 77-79. *)
Definition setResult (r : JSValue) (c : t) : t :=
  mk (searchPath c) (env c) (options c) (resolvedPath c) r (resultHash c)
     (includedFiles c) (watchGlob c) (devDeps c) (pkg c).

(** Lines 81-83. *)
Definition setResultHash (h : string) (c : t) : t :=
  mk (searchPath c) (env c) (options c) (resolvedPath c) (result c) (Some h)
     (includedFiles c) (watchGlob c) (devDeps c) (pkg c).

(** Lines 85-87. *)
Definition addIncludedFile (filePath : FilePath) (c : t) : t :=
  mk (searchPath c) (env c) (options c) (resolvedPath c) (result c) (resultHash c)
     (JSSet.add filePath (includedFiles c)) (watchGlob c) (devDeps c) (pkg c).

(** Lines 89-91; [version] is optional. *)
Definition setDevDep (name : string) (version : option string) (c : t) : t :=
  mk (searchPath c) (env c) (options c) (resolvedPath c) (result c) (resultHash c)
     (includedFiles c) (watchGlob c) (JSMap.set name version (devDeps c)) (pkg c).

(** Lines 93-95; [Map.get] of a missing key is [undefined]. *)
Definition getDevDepVersion (name : string) (c : t) : option string :=
  match JSMap.get name (devDeps c) with
  | Some version => version
  | None => None
  end.

(** Lines 97-99. *)
Definition setWatchGlob (glob : string) (c : t) : t :=
  mk (searchPath c) (env c) (options c) (resolvedPath c) (result c) (resultHash c)
     (includedFiles c) (Some glob) (devDeps c) (pkg c).

(** Lines 102-125. *)
Definition getInvalidations (c : t) : list Invalidation :=
  let invalidations := [] in
  let invalidations :=
    if truthyString (watchGlob c)
    then invalidations ++ [mkInvalidation "add" (watchGlob c)]
    else invalidations in
  fold_left (λ invalidations filePath,
               (invalidations ++ [mkInvalidation "change" filePath])
               ++ [mkInvalidation "unlink" filePath])
            (resolvedPath c :: (Some <$> includedFiles c))
            invalidations.

End Config.

(** ** The default babel configuration ([mergeConfigs] and [getFlowConfig] of the
    babel transformer) *)

(** The Flow type [BabelConfig]: both properties are optional. *)
Record BabelConfig := mkBabelConfig {
  presets : option (list JSValue);
  plugins : option (list JSValue)
}.

(** [x || []] for a property that is an array or absent. *)
Definition orEmpty (xs : option (list JSValue)) : list JSValue := default [] xs.

(** [!x || x.length === 0]. *)
Definition missingOrEmpty (xs : option (list JSValue)) : bool :=
  match xs with
  | None | Some [] => true
  | Some (_ :: _) => false
  end.

(** [mergeConfigs(result, config)]; a [null] or [undefined] argument is
    [None].  The merged lists are written into [result], which is what the
    function returns; the other properties of [result], which the function
    does not touch, are left out. *)
Definition mergeConfigs (result config : option BabelConfig) : option BabelConfig :=
  match config with
  | None => result
  | Some c =>
      if missingOrEmpty (presets c) && missingOrEmpty (plugins c) then result
      else
        match result with
        | Some merged =>
            Some (mkBabelConfig (Some (orEmpty (presets merged) ++ orEmpty (presets c)))
                                (Some (orEmpty (plugins merged) ++ orEmpty (plugins c))))
        | None => config
        end
  end.

(** The longest run of [c] at the head of [s] removed: what a greedy [c*]
    consumes. *)
Fixpoint skip (c : ascii) (s : string) : string :=
  match s with
  | String c' s' => if decide (c' = c) then skip c s' else s
  | EmptyString => s
  end.

(** The regular expression [/^(\/{2}|\/\*+) *@flow/]: two slashes, or a
    slash and at least one star, then any number of spaces, then [@flow]. *)
Definition flowPragma (s : string) : bool :=
  match s with
  | String a (String b r) =>
      if decide (a = "/"%char) then
        if decide (b = "/"%char) then String.prefix "@flow" (skip " " r)
        else if decide (b = "*"%char) then String.prefix "@flow" (skip " " (skip "*" r))
        else false
      else false
  | _ => false
  end.

(** [getFlowConfig(asset)], [code] being what [asset.getCode()] resolves to
    and [stripTypes] the plugin module
    [@babel/plugin-transform-flow-strip-types]. *)
Definition getFlowConfig (stripTypes : JSValue) (code : string) : option BabelConfig :=
  if flowPragma (substring 0 20 code)
  then Some (mkBabelConfig None
               (Some [JSArray (JSElement stripTypes JSNoElement)]))
  else None.

(** ** Vocabulary of the statements *)

Definition edge_rel (es : list Edge) (a b : NodeId) : Prop :=
  ∃ e, e ∈ es ∧ edge_from e = a ∧ edge_to e = b.

(** [walk es a l b]: the edges of [es] lead from [a] through the nodes of
    [l], in order, to [b]. *)
Fixpoint walk (es : list Edge) (a : NodeId) (l : list NodeId) (b : NodeId) : Prop :=
  match l with
  | [] => edge_rel es a b
  | x :: l' => edge_rel es a x ∧ walk es x l' b
  end.

(** The entries [connectChild] appends to [nodes]: the first child of each
    id that no node has yet. *)
Fixpoint freshChildren (m : JSMap.t Node) (cs : list Node) : list (string * Node) :=
  match cs with
  | [] => []
  | c :: cs' =>
      if JSMap.has (node_id c) m then freshChildren m cs'
      else (node_id c, c) :: freshChildren (m ++ [(node_id c, c)]) cs'
  end.

(** An edge [replaceNodesConnectedTo] removes: one of the given parent and
    type whose target is not among the new children. *)
Definition dropped (p : NodeId) (ty : option EdgeType) (cs : list Node) (e : Edge) : Prop :=
  edge_from e = p ∧ edge_type e = ty ∧ edge_to e ∉ node_id <$> cs.

#[global] Instance dropped_dec p ty cs e : Decision (dropped p ty cs e).
Proof. unfold dropped. apply _. Defined.

(** The edges the operation aims at: those it keeps and those it makes. *)
Definition targetEdges (p : NodeId) (ty : option EdgeType) (cs : list Node)
    (es : list Edge) : list Edge :=
  filter (λ e, ¬ dropped p ty cs e) es ++ ((λ c, mkEdge p (node_id c) ty) <$> cs).

(** The nodes one call of [invalidateNode] marks: the node, and for a
    config or dev-dep request the action node behind it. *)
Definition cascade (g : AssetGraph) (c : Node) : list Node :=
  match node_type c with
  | dependency | transformer_request => [c]
  | config_request | dev_dep_request =>
      match getActionNode c g with
      | inr (Some a) => [c; a]
      | _ => [c]
      end
  | _ => []
  end.

(** [invalidateNode] runs to completion on the node. *)
Definition invalidatable (g : AssetGraph) (c : Node) : bool :=
  match node_type c with
  | dependency | transformer_request => true
  | config_request | dev_dep_request =>
      match getActionNode c g with
      | inr (Some _) => true
      | _ => false
      end
  | _ => false
  end.

Definition markAll (ns : list Node) (m : JSMap.t Node) : JSMap.t Node :=
  fold_left (λ m n, JSMap.set (node_id n) n m) ns m.

(** The nodes connected, by edges of the given type, to the matching glob
    nodes among [globs]. *)
Definition globTargets `{!Externals} (path : string) (ty : EdgeType)
    (g : AssetGraph) (globs : list Node) : list Node :=
  flat_map (λ gl, if isMatch path (glob_pattern gl)
                  then getNodesConnectedTo gl (Some ty) g else []) globs.

(** The nodes a filesystem event hands to [invalidateNode], in order. *)
Definition fsTargets `{!Externals} (action path : string) (ty : EdgeType)
    (g : AssetGraph) : list Node :=
  match JSMap.get path (nodes g) with
  | Some f => getNodesConnectedTo f (Some ty) g
  | None => []
  end
  ++ (if bool_decide (action = "add")
      then globTargets path ty g (getGlobNodesFromGraph g) else []).

(** A node a filesystem event hands to [invalidateNode]: one connected, by
    an edge of the action's type, to the node whose id is the path or, on
    [add], to a Glob node whose pattern matches the path. *)
Definition fsTarget `{!Externals} (action path : string) (ty : EdgeType)
    (g : AssetGraph) (n : Node) : Prop :=
  (∃ f, getNode path g = Some f ∧ n ∈ getNodesConnectedTo f (Some ty) g)
  ∨ (action = "add"
     ∧ ∃ gl pat, gl ∈ JSMap.values (nodes g) ∧ node_value gl = VGlob pat
                 ∧ isMatch path pat = true
                 ∧ n ∈ getNodesConnectedTo gl (Some ty) g).


(** [g'] has every edge and every node id of [g]. *)
Definition grows (g g' : AssetGraph) : Prop :=
  (∀ e, e ∈ edges g → e ∈ edges g')
  ∧ (∀ k, is_Some (getNode k g) → is_Some (getNode k g')).


(** The edges that do not leave any node of [S]. *)
Definition avoiding (S : list NodeId) (es : list Edge) : list Edge :=
  filter (λ e, edge_from e ∉ S) es.

(** The root reaches [x] along edges that leave no node of [S]. *)
Definition reachableAvoiding (S : list NodeId) (g : AssetGraph) (x : NodeId) : bool :=
  match rootNodeId g with
  | Some r0 => reach (avoiding S (edges g)) r0 x
  | None => false
  end.

(** The root reaches [x] along the edges [replaceNodesConnectedTo] aims
    at. *)
Definition reachableAfter (p : Node) (ty : option EdgeType) (cs : list Node)
    (g : AssetGraph) (x : NodeId) : bool :=
  match rootNodeId g with
  | Some r0 => reach (targetEdges (node_id p) ty cs (edges g)) r0 x
  | None => false
  end.


(** The children of [p] along edges of type [ty] are the nodes stored
    under [ids], all present, and no others. *)
Definition linkedTo (g : AssetGraph) (p : NodeId) (ty : option EdgeType)
    (ids : list NodeId) : Prop :=
  (∀ k, k ∈ ids → is_Some (getNode k g) ∧ mkEdge p k ty ∈ edges g)
  ∧ (∀ e, e ∈ edges g → edge_from e = p → edge_type e = ty → edge_to e ∈ ids).

(** The graph holds the outcome of a transformer request: the request
    produces the assets, is invalidated by a change to its file, and every
    asset has its declared dependencies as default-edge children. *)
Definition resolvedAs `{!Externals} (req : TransformerRequest) (ce : CacheEntry)
    (g : AssetGraph) : Prop :=
  let tid := node_id (nodeFromTransformerRequest req) in
  linkedTo g tid (Some produces) (asset_id <$> assets ce)
  ∧ linkedTo g tid (Some invalidated_by_change_to) [req_filePath req]
  ∧ ∀ a, a ∈ assets ce → linkedTo g (asset_id a) None (dep_id <$> dependencies a).


(** The request is reached by a walk that leaves neither the request nor
    any of its assets, and it produces the assets: the state every turn of
    the loop over the assets starts from. *)
Definition anchored `{!Externals} (req : TransformerRequest) (ce : CacheEntry)
    (r0 : NodeId) (g : AssetGraph) : Prop :=
  let tid := node_id (nodeFromTransformerRequest req) in
  rootNodeId g = Some r0
  ∧ rtc (edge_rel (avoiding (tid :: (asset_id <$> assets ce)) (edges g))) r0 tid
  ∧ linkedTo g tid (Some produces) (asset_id <$> assets ce).

(** The state in which [resolveTransformerRequest] runs its
    [replaceNodesConnectedTo] calls: the request is out of both indices. *)
Definition afterDelete `{!Externals} (req : TransformerRequest) (g : AssetGraph)
    : AssetGraph :=
  with_invalidNodes (JSMap.delete (node_id (nodeFromTransformerRequest req)))
    (with_incompleteNodes (JSMap.delete (node_id (nodeFromTransformerRequest req))) g).

(** The nodes map is keyed by node id. *)
Definition keyed (g : AssetGraph) : Prop :=
  ∀ k n, getNode k g = Some n → node_id n = k.

(** Every edge leads to a node of the graph. *)
Definition closed (g : AssetGraph) : Prop :=
  ∀ e, e ∈ edges g → is_Some (getNode (edge_to e) g).


(** An invalidation of a [Config] as [resolveConfigRequest] reads it; one
    whose pattern is [undefined] has no reading. *)
Definition asInvalidation (i : Config.Invalidation) : option Invalidation :=
  mkInvalidation (Config.action i) <$> Config.pattern i.

(** The string of [n] copies of [c]. *)
Fixpoint replicate_char (n : nat) (c : ascii) : string :=
  match n with
  | 0 => EmptyString
  | S n' => String c (replicate_char n' c)
  end.

(** What opens a comment that may carry the pragma: two slashes, or a
    slash and one star or more. *)
Definition flowComment (opener : string) : Prop :=
  opener = "//" ∨ ∃ k, opener = "/" +:+ replicate_char (S k) "*".

(** ** Concrete collaborators and graphs used by the worked cases *)

Module Examples.

Definition stringify (v : JSValue) : string :=
  match v with
  | JSString s => s
  | JSNumber _ => "number"
  | JSBool true => "true"
  | JSBool false => "false"
  | JSNull => "null"
  | JSUndefined => "undefined"
  | JSArray _ => "[]"
  | JSObject _ => "{}"
  end.

Definition has_star (s : string) : bool :=
  bool_decide ("*"%char ∈ list_ascii_of_string s).

#[local] Instance ext : Externals := {|
  md5FromString := λ s, "md5(" +:+ s +:+ ")";
  JSON_stringify := stringify;
  isGlob := has_star;
  isMatch := λ path pat, bool_decide (pat = "**") || bool_decide (path = pat);
  dependencyId := λ k, "dep" +:+ pretty k
|}.

Definition node14 : Environment := JSString "node14".

Definition indexReq : TransformerRequest :=
  mkTransformerRequest "/proj/index.js" node14 JSUndefined.

Definition indexNode : Node := nodeFromTransformerRequest indexReq.

(** A transformer request that asked for its babel config: the graph after
    [initializeGraph], [addConfigRequest] and [resolveConfigRequest], the
    config naming one file to watch. *)
Definition babelrc : FilePath := "/proj/.babelrc".

Definition babelRequestNode : Node :=
  nodeFromConfigRequest (mkConfigRequest "/proj/index.js" "babel" JSUndefined).

Definition babelResult : ConfigResult :=
  mkConfigResult (JSString "presets") [] (Some [mkInvalidation "change" babelrc]).

Definition configuredGraph : AssetGraph :=
  let g := state_of (initializeGraph (mkAssetGraphOpts None None (Some indexReq) "/proj")
                                     0 newAssetGraph) in
  let g := (addConfigRequest babelRequestNode indexNode g).1 in
  state_of (resolveConfigRequest babelResult babelRequestNode g).

(** The same request with a config that is to be loaded again when a file
    appears: its result names a glob to watch. *)
Definition watchResult : ConfigResult :=
  mkConfigResult (JSString "presets") []
    (Some [mkInvalidation "add" "**"; mkInvalidation "change" babelrc]).

Definition watchedGraph : AssetGraph :=
  let g := state_of (initializeGraph (mkAssetGraphOpts None None (Some indexReq) "/proj")
                                     0 newAssetGraph) in
  let g := (addConfigRequest babelRequestNode indexNode g).1 in
  state_of (resolveConfigRequest watchResult babelRequestNode g).

(** A dev-dep request hanging off a config request by a default edge, the
    shape [getActionNode] walks. *)
Definition devDepNode : Node := nodeFromDevDepRequest (JSString "@babel/core").

Definition devDepGraph : AssetGraph :=
  let g := state_of (initializeGraph (mkAssetGraphOpts None None (Some indexReq) "/proj")
                                     0 newAssetGraph) in
  let g := (addConfigRequest babelRequestNode indexNode g).1 in
  addEdge (mkEdge (node_id babelRequestNode) (node_id devDepNode) None)
          (addNode devDepNode g).

(** The same dev-dep request as [resolveConfigRequest] links it: by a
    [configures] edge. *)
Definition devDepResult : ConfigResult :=
  mkConfigResult (JSString "presets") [JSString "@babel/core"] None.

Definition configuresGraph : AssetGraph :=
  let g := state_of (initializeGraph (mkAssetGraphOpts None None (Some indexReq) "/proj")
                                     0 newAssetGraph) in
  let g := (addConfigRequest babelRequestNode indexNode g).1 in
  state_of (resolveConfigRequest devDepResult babelRequestNode g).

(** The build of the specification's scenario: one entry, one target. *)
Definition nodeTarget : Target := mkTarget node14 JSUndefined.

Definition entryOpts : AssetGraphOpts :=
  mkAssetGraphOpts (Some ["./index.js"]) (Some [nodeTarget]) None "/proj".

Definition entryGraph : AssetGraph :=
  state_of (initializeGraph entryOpts 0 newAssetGraph).

Definition entryDep : Dependency :=
  newDependency "./index.js" nodeTarget node14 true 0.

Definition requestedGraph : AssetGraph :=
  (resolveDependency entryDep indexReq entryGraph).1.


(** [index.js] yields one asset importing [./a] twice, under two
    specifiers; both imports resolve to [/proj/a.js]. *)
Definition depA : Dependency := mkDependency "depA" "./a" None node14 false.
Definition depB : Dependency := mkDependency "depB" "./a.js" None node14 false.

Definition asset1 : Asset := mkAsset "asset1" [depA; depB] JSUndefined.

Definition indexResult : CacheEntry := mkCacheEntry [asset1].

Definition transformedGraph : AssetGraph :=
  (resolveTransformerRequest indexReq indexResult requestedGraph).1.

Definition reqA : TransformerRequest :=
  mkTransformerRequest "/proj/a.js" node14 JSUndefined.

Definition reqA' : TransformerRequest :=
  mkTransformerRequest "/proj/a.js" node14 (JSString "inline source").

Definition oneResolved : AssetGraph := (resolveDependency depA reqA transformedGraph).1.

Definition bothResolved : AssetGraph := (resolveDependency depB reqA' oneResolved).1.

(** The second import is marked invalid and then disappears from the
    asset when [index.js] is transformed again. *)
Definition asset1' : Asset := mkAsset "asset1" [depA] JSUndefined.

Definition invalidatedGraph : AssetGraph :=
  state_of (invalidateNode (nodeFromDep depB) bothResolved).

Definition retransformedGraph : AssetGraph :=
  (resolveTransformerRequest indexReq (mkCacheEntry [asset1']) invalidatedGraph).1.




(** The config object behind [babelRequestNode]: built with the same file
    listed twice and the same package versioned twice, then resolved to
    [.babelrc]. *)
Definition babelOpts : Config.Opts :=
  Config.mkOpts "/proj/index.js" node14 JSUndefined None (JSNumber 0)
                (Some ["/proj/package.json"; "/proj/babel.config.js"; "/proj/package.json"])
                (Some "/proj/*.babelrc")
                (Some [("@babel/core", Some "7.0.0"); ("@babel/preset-env", None);
                       ("@babel/core", Some "7.1.0")]).

Definition babelConfig : Config.t :=
  Config.setResolvedPath babelrc (Config.new babelOpts).

(** Its invalidations, as [resolveConfigRequest] reads them. *)
Definition babelInvalidations : list Invalidation :=
  default [] (mapM asInvalidation (Config.getInvalidations babelConfig)).

(** A result one of whose invalidations has an action the graph does not
    know. *)
Definition renameResult : ConfigResult :=
  mkConfigResult (JSString "presets") [JSString "@babel/core"]
    (Some [mkInvalidation "change" babelrc; mkInvalidation "rename" "/proj/package.json";
           mkInvalidation "add" "/proj/*.js"]).

(** A result with the invalidations of [babelConfig] and one dev-dep
    request. *)
Definition fullResult : ConfigResult :=
  mkConfigResult (JSString "presets") [JSString "@babel/core"] (Some babelInvalidations).

(** [index.js] asked for its babel config; nothing is resolved yet. *)
Definition askedGraph : AssetGraph :=
  (addConfigRequest babelRequestNode indexNode requestedGraph).1.

(** The dev dep the request of [devDepResult] resolves to. *)
Definition babelCore : DevDep := mkDevDep "@babel/core" "7.1.0".

(** Two babel configs to merge. *)
Definition envPreset : BabelConfig :=
  mkBabelConfig (Some [JSString "@babel/preset-env"]) None.

Definition flowPlugin : BabelConfig :=
  mkBabelConfig None (Some [JSString "@babel/plugin-transform-flow-strip-types"]).

End Examples.

(** * Properties *)

(** ** Lookups in a [Map] *)

Section JSMapFacts.
Context {V : Type}.
Implicit Types (m : JSMap.t V) (k : string) (v : V).

Lemma get_set_eq k v m : JSMap.get k (JSMap.set k v m) = Some v.
Proof.
  induction m as [|[k' v'] m IH]; simpl.
  - by rewrite decide_True.
  - destruct (decide (k' = k)) as [->|Hne]; simpl.
    + by rewrite decide_True.
    + by rewrite decide_False.
Qed.

Lemma get_set_ne k k' v m : k ≠ k' → JSMap.get k' (JSMap.set k v m) = JSMap.get k' m.
Proof.
  intros Hne. induction m as [|[k0 v0] m IH]; simpl.
  - by rewrite decide_False.
  - destruct (decide (k0 = k)) as [->|Hne0]; simpl.
    + by rewrite !decide_False.
    + by rewrite IH.
Qed.

Lemma get_set k k' v m :
  JSMap.get k' (JSMap.set k v m) = if decide (k = k') then Some v else JSMap.get k' m.
Proof.
  destruct (decide (k = k')) as [->|Hne]; [apply get_set_eq | by apply get_set_ne].
Qed.

Lemma get_filter_key (P : string → Prop) `{∀ x, Decision (P x)} k m :
  JSMap.get k (filter (λ kv, P kv.1) m) = if decide (P k) then JSMap.get k m else None.
Proof.
  induction m as [|[k' v'] m IH].
  - simpl. by destruct (decide (P k)).
  - rewrite filter_cons. cbn [fst]. destruct (decide (P k')) as [HP|HP]; cbn [JSMap.get].
    + destruct (decide (k' = k)) as [->|Hne]; [by rewrite decide_True | done].
    + rewrite IH. destruct (decide (P k)), (decide (k' = k)); by subst.
Qed.

Lemma get_delete k k' m :
  JSMap.get k' (JSMap.delete k m) = if decide (k = k') then None else JSMap.get k' m.
Proof.
  unfold JSMap.delete.
  pose proof (get_filter_key (λ x, x ≠ k) k' m) as Hf. cbn beta in Hf. rewrite Hf.
  destruct (decide (k = k')) as [->|Hne].
  - by rewrite decide_False; [|intros ?].
  - by rewrite decide_True; [|intros ?; subst].
Qed.

Lemma get_delete_eq k m : JSMap.get k (JSMap.delete k m) = None.
Proof. by rewrite get_delete, decide_True. Qed.

Lemma get_delete_ne k k' m : k ≠ k' → JSMap.get k' (JSMap.delete k m) = JSMap.get k' m.
Proof. intros. by rewrite get_delete, decide_False. Qed.

Lemma get_delete_Some k k' v m :
  JSMap.get k' (JSMap.delete k m) = Some v → JSMap.get k' m = Some v.
Proof. rewrite get_delete. by case_decide. Qed.

Lemma has_get k m : JSMap.has k m = true ↔ is_Some (JSMap.get k m).
Proof.
  unfold JSMap.has. destruct (JSMap.get k m); split; intros H; try done.
Qed.

Lemma has_false k m : JSMap.has k m = false ↔ JSMap.get k m = None.
Proof. unfold JSMap.has. by destruct (JSMap.get k m). Qed.

Lemma set_absent k v m : JSMap.get k m = None → JSMap.set k v m = m ++ [(k, v)].
Proof.
  induction m as [|[k' v'] m IH]; simpl; [done|].
  destruct (decide (k' = k)); [done|]. intros Hm. by rewrite IH.
Qed.

Lemma get_Some_values k v m : JSMap.get k m = Some v → v ∈ JSMap.values m.
Proof.
  induction m as [|[k' v'] m IH]; simpl; [done|].
  destruct (decide (k' = k)); intros Hm.
  - injection Hm as ->. unfold JSMap.values. simpl. apply elem_of_cons. by left.
  - unfold JSMap.values. simpl. apply elem_of_cons. right. by apply IH.
Qed.

Lemma get_app k m1 m2 :
  JSMap.get k (m1 ++ m2) =
  match JSMap.get k m1 with Some v => Some v | None => JSMap.get k m2 end.
Proof.
  induction m1 as [|[k' v'] m1 IH]; simpl; [done|]. by destruct (decide (k' = k)).
Qed.

End JSMapFacts.

(** ** Reachability *)

Section Reach.
Variable es : list Edge.

Lemma linked_spec a b : linked es a b = true ↔ edge_rel es a b.
Proof.
  unfold linked, edge_rel. rewrite bool_decide_eq_true, Exists_exists.
  split; intros (e & H1 & H2); exists e; tauto.
Qed.

Lemma walk_app a l1 k l2 b :
  walk es a (l1 ++ k :: l2) b ↔ walk es a l1 k ∧ walk es k l2 b.
Proof.
  revert a. induction l1 as [|x l1 IH]; intros a; simpl; [done|].
  rewrite IH. tauto.
Qed.

Lemma walk_rtc a l b : walk es a l b → rtc (edge_rel es) a b.
Proof.
  revert a. induction l as [|x l IH]; intros a; simpl.
  - apply rtc_once.
  - intros [H1 H2]. eapply rtc_l; eauto.
Qed.

Lemma walk_start a l b : walk es a l b → a ∈ edge_from <$> es.
Proof.
  destruct l; simpl; [intros (e & He & <- & _) | intros [(e & He & <- & _) _]];
    by apply list_elem_of_fmap_2.
Qed.

Lemma rtc_walk a b :
  rtc (edge_rel es) a b →
  a = b ∨ ∃ l, walk es a l b ∧ ∀ x, x ∈ l → x ∈ edge_from <$> es.
Proof.
  induction 1 as [a|a a' b Hstep _ IH]; [by left|]. right.
  destruct IH as [<-|(l & Hw & Hl)].
  - exists []. split; [done|]. by intros x ?%elem_of_nil.
  - exists (a' :: l). split; [done|].
    intros x [->|Hx]%elem_of_cons; [by eapply walk_start | by apply Hl].
Qed.

Lemma reach_via_sound ks a b : reach_via es ks a b = true → rtc (edge_rel es) a b.
Proof.
  revert a b. induction ks as [|k ks IH]; intros a b; simpl.
  - intros [Heq%bool_decide_eq_true|Hl%linked_spec]%orb_true_iff.
    + by subst.
    + by apply rtc_once.
  - destruct (reach_via es ks a b) eqn:E1; [intros _; by apply IH|].
    destruct (reach_via es ks a k) eqn:E2; [|done].
    intros E3. etrans; [by apply IH | by apply IH].
Qed.

Lemma reach_via_walk ks l a b :
  walk es a l b → (∀ x, x ∈ l → x ∈ ks) → reach_via es ks a b = true.
Proof.
  revert l a b. induction ks as [|k ks IH]; intros l a b Hw Hl; simpl.
  - destruct l as [|x l]; [|exfalso; apply (elem_of_nil x), Hl; by left].
    apply orb_true_iff. right. by apply linked_spec.
  - destruct (reach_via es ks a b) eqn:E1; [done|].
    destruct (decide (k ∈ l)) as [Hk|Hk].
    + destruct (list_elem_of_split_l _ _ Hk) as (l1 & l2 & -> & Hk1).
      apply walk_app in Hw as [Hw1 Hw2].
      assert (reach_via es ks a k = true) as ->.
      { apply (IH l1); [done|]. intros x Hx.
        assert (x ∈ k :: ks) as [->|?]%elem_of_cons
          by (apply Hl, elem_of_app; by left); done. }
      assert (∃ l3, walk es k l3 b ∧ (k ∉ l3) ∧ (∀ x, x ∈ l3 → x ∈ l2)) as (l3 & Hw3 & Hk3 & Hl3).
      { destruct (decide (k ∈ l2)) as [Hk2|Hk2]; [|by exists l2].
        destruct (list_elem_of_split_r _ _ Hk2) as (l3 & l4 & -> & Hk4).
        apply walk_app in Hw2 as [_ Hw4]. exists l4. split_and!; [done..|].
        intros x Hx. apply elem_of_app. right. by right. }
      apply (IH l3); [done|]. intros x Hx.
      assert (x ∈ k :: ks) as [->|?]%elem_of_cons; [|done..].
      apply Hl, elem_of_app. right. right. by apply Hl3.
    + rewrite (IH l a b Hw) in E1; [done|].
      intros x Hx. pose proof (Hl x Hx) as [->|?]%elem_of_cons; done.
Qed.

Lemma reach_spec a b : reach es a b = true ↔ rtc (edge_rel es) a b.
Proof.
  unfold reach. split; [apply reach_via_sound|].
  intros [->|(l & Hw & Hl)]%rtc_walk.
  - destruct (remove_dups (edge_from <$> es)); simpl.
    + by rewrite bool_decide_true.
    + assert (∀ ks, reach_via es ks b b = true) as Hrefl.
      { induction ks as [|k ks IH]; simpl; [by rewrite bool_decide_true | by rewrite IH]. }
      by rewrite Hrefl.
  - apply (reach_via_walk _ l); [done|]. intros x Hx. apply elem_of_remove_dups. by apply Hl.
Qed.

End Reach.

Lemma edge_rel_mono es es' a b :
  (∀ e, e ∈ es → e ∈ es') → edge_rel es a b → edge_rel es' a b.
Proof. intros Hsub (e & He & H1 & H2). exists e. auto. Qed.

Lemma rtc_edges_mono es es' a b :
  (∀ e, e ∈ es → e ∈ es') → rtc (edge_rel es) a b → rtc (edge_rel es') a b.
Proof. intros Hsub. apply rtc_subrel. intros x y. by apply edge_rel_mono. Qed.

(** A walk can be transferred to another edge list as long as every edge
    leaving a node the walk has already reached is available there. *)
Lemma rtc_edges_transfer es es' r x :
  (∀ e, e ∈ es → rtc (edge_rel es) r (edge_from e) → e ∈ es') →
  rtc (edge_rel es) r x → rtc (edge_rel es') r x.
Proof.
  intros Htr Hx. revert x Hx. apply rtc_ind_r; [done|].
  intros y z Hy (e & He & <- & <-) IH.
  eapply rtc_r; [exact IH|]. exists e. split_and!; [|done..]. by apply Htr.
Qed.

(** A node reached from [a] is reached without leaving it again. *)
Lemma rtc_cut es a b :
  rtc (edge_rel es) a b → rtc (edge_rel (filter (λ e, edge_from e ≠ b) es)) a b.
Proof.
  induction 1 as [a|a a' b (e & He & <- & <-) _ IH]; [done|].
  destruct (decide (edge_from e = b)) as [->|Hne]; [done|].
  eapply rtc_l; [|exact IH]. exists e. split_and!; [|done..].
  apply list_elem_of_filter. done.
Qed.

(** ** Pruning *)

Lemma removeNodes_frame ds g :
  rootNodeId (removeNodes ds g) = rootNodeId g
  ∧ invalidNodes (removeNodes ds g) = invalidNodes g.
Proof.
  revert g. induction ds as [|d ds IH]; intros g; [done|].
  unfold removeNodes in *. simpl. destruct (IH (removeNode d g)) as [-> ->]. done.
Qed.

Lemma removeNodes_nodes ds g k :
  JSMap.get k (nodes (removeNodes ds g)) =
  if decide (k ∈ node_id <$> ds) then None else JSMap.get k (nodes g).
Proof.
  revert g. induction ds as [|d ds IH]; intros g.
  - case_decide as Hin; [by apply elem_of_nil in Hin | done].
  - unfold removeNodes in *. simpl. rewrite IH. simpl. rewrite get_delete.
    repeat case_decide; try done; set_solver.
Qed.

Lemma removeNodes_incomplete ds g k :
  JSMap.get k (incompleteNodes (removeNodes ds g)) =
  if decide (k ∈ node_id <$> ds) then None else JSMap.get k (incompleteNodes g).
Proof.
  revert g. induction ds as [|d ds IH]; intros g.
  - case_decide as Hin; [by apply elem_of_nil in Hin | done].
  - unfold removeNodes in *. simpl. rewrite IH. simpl. rewrite get_delete.
    repeat case_decide; try done; set_solver.
Qed.

Lemma removeNodes_edges ds g e :
  e ∈ edges (removeNodes ds g) ↔
  e ∈ edges g ∧ (edge_from e ∉ node_id <$> ds) ∧ (edge_to e ∉ node_id <$> ds).
Proof.
  revert g. induction ds as [|d ds IH]; intros g.
  - simpl. set_solver.
  - unfold removeNodes in *. simpl. rewrite IH. simpl.
    rewrite list_elem_of_filter. set_solver.
Qed.

Lemma doomed_unreachable c g n :
  n ∈ doomed c g → reachableFromRoot g (node_id n) = false.
Proof. unfold doomed. rewrite list_elem_of_filter. tauto. Qed.

Lemma reachableFromRoot_spec g r x :
  rootNodeId g = Some r →
  reachableFromRoot g x = true ↔ rtc (edge_rel (edges g)) r x.
Proof. intros Hr. unfold reachableFromRoot. rewrite Hr. apply reach_spec. Qed.

Lemma disconnectChild_frame st e :
  rootNodeId (disconnectChild st e).1 = rootNodeId st.1
  ∧ invalidNodes (disconnectChild st e).1 = invalidNodes st.1.
Proof.
  destruct st as [g rem]. unfold disconnectChild.
  destruct (reachableFromRoot _ _); simpl; [done|].
  apply (removeNodes_frame _ (removeEdge e g)).
Qed.

(** One disconnection only takes away: the edge itself, and with a pruned
    node its entries and its edges. *)
Lemma disconnectChild_sub st e :
  let g := st.1 in
  let g' := (disconnectChild st e).1 in
  (∀ e', e' ∈ edges g' → e' ∈ edges g ∧ e' ≠ e)
  ∧ (∀ k n, JSMap.get k (nodes g') = Some n → JSMap.get k (nodes g) = Some n)
  ∧ (∀ k n, JSMap.get k (incompleteNodes g') = Some n →
            JSMap.get k (incompleteNodes g) = Some n).
Proof.
  destruct st as [g rem]. unfold disconnectChild. cbn [fst].
  destruct (reachableFromRoot _ _); cbn [fst].
  - simpl. split_and!; [|done..]. by intros e' [? ?]%list_elem_of_filter.
  - fold (removeNodes (doomed (edge_to e) (removeEdge e g)) (removeEdge e g)).
    split_and!.
    + intros e' [He' _]%removeNodes_edges. simpl in He'.
      by apply list_elem_of_filter in He' as [? ?].
    + intros k n. rewrite removeNodes_nodes. by case_decide.
    + intros k n. rewrite removeNodes_incomplete. by case_decide.
Qed.

(** What the root still reaches once the edge is gone is left alone. *)
Lemma disconnectChild_safe st e r :
  let g := st.1 in
  let g' := (disconnectChild st e).1 in
  rootNodeId g = Some r →
  ∀ x, rtc (edge_rel (filter (λ e', e' ≠ e) (edges g))) r x →
    JSMap.get x (nodes g') = JSMap.get x (nodes g)
    ∧ JSMap.get x (incompleteNodes g') = JSMap.get x (incompleteNodes g)
    ∧ ∀ e', e' ∈ edges g → e' ≠ e → edge_from e' = x → e' ∈ edges g'.
Proof.
  destruct st as [g rem]. cbn [fst]. intros Hr x Hx. unfold disconnectChild.
  destruct (reachableFromRoot _ _) eqn:Hreach; cbn [fst].
  - simpl. split_and!; [done..|]. intros e' ? ? _. by apply list_elem_of_filter.
  - fold (removeNodes (doomed (edge_to e) (removeEdge e g)) (removeEdge e g)).
    set (g1 := removeEdge e g).
    assert (∀ y, rtc (edge_rel (edges g1)) r y →
                 y ∉ node_id <$> doomed (edge_to e) g1) as Hsafe.
    { intros y Hy (n & -> & Hn%doomed_unreachable)%list_elem_of_fmap.
      apply (reachableFromRoot_spec g1 r) in Hy; [congruence|done]. }
    split_and!.
    + rewrite removeNodes_nodes, decide_False; [done|]. by apply Hsafe.
    + rewrite removeNodes_incomplete, decide_False; [done|]. by apply Hsafe.
    + intros e' He' Hne <-. apply removeNodes_edges. split_and!.
      * simpl. by apply list_elem_of_filter.
      * by apply Hsafe.
      * apply Hsafe. eapply rtc_r; [exact Hx|]. exists e'. split_and!; [|done..].
        by apply list_elem_of_filter.
Qed.

Lemma disconnectAll_frame R st :
  rootNodeId (disconnectAll R st).1 = rootNodeId st.1
  ∧ invalidNodes (disconnectAll R st).1 = invalidNodes st.1.
Proof.
  revert st. induction R as [|e R IH]; intros st; [done|].
  unfold disconnectAll in *. simpl. destruct (IH (disconnectChild st e)) as [-> ->].
  apply disconnectChild_frame.
Qed.

Lemma disconnectAll_sub R st :
  let g := st.1 in
  let g' := (disconnectAll R st).1 in
  (∀ e, e ∈ edges g' → e ∈ edges g ∧ e ∉ R)
  ∧ (∀ k n, JSMap.get k (nodes g') = Some n → JSMap.get k (nodes g) = Some n)
  ∧ (∀ k n, JSMap.get k (incompleteNodes g') = Some n →
            JSMap.get k (incompleteNodes g) = Some n).
Proof.
  revert st. induction R as [|e R IH]; intros st; cbn zeta.
  - split_and!; [|done..]. intros e He. split; [done|]. apply not_elem_of_nil.
  - unfold disconnectAll in *. simpl.
    destruct (IH (disconnectChild st e)) as (IH1 & IH2 & IH3).
    destruct (disconnectChild_sub st e) as (S1 & S2 & S3).
    split_and!.
    + intros e' [[He' Hne]%S1 HR]%IH1. split; [done|]. set_solver.
    + intros k n Hk. by apply S2, IH2.
    + intros k n Hk. by apply S3, IH3.
Qed.

(** Whatever the root reaches without the edges to be removed survives the
    whole round of disconnections, with the edges leaving it. *)
Lemma disconnectAll_safe R st r :
  let g := st.1 in
  let g' := (disconnectAll R st).1 in
  rootNodeId g = Some r →
  ∀ x, rtc (edge_rel (filter (λ e, e ∉ R) (edges g))) r x →
    JSMap.get x (nodes g') = JSMap.get x (nodes g)
    ∧ JSMap.get x (incompleteNodes g') = JSMap.get x (incompleteNodes g)
    ∧ ∀ e, e ∈ edges g → e ∉ R → edge_from e = x → e ∈ edges g'.
Proof.
  revert st. induction R as [|e R IH]; intros st; cbn zeta; intros Hr x Hx.
  - done.
  - unfold disconnectAll in *. simpl.
    assert (rtc (edge_rel (filter (λ e', e' ≠ e) (edges st.1))) r x) as Hx1.
    { eapply rtc_edges_mono; [|exact Hx]. intros e'. rewrite !list_elem_of_filter.
      set_solver. }
    destruct (disconnectChild_safe st e r Hr x Hx1) as (N1 & I1 & E1).
    assert (rtc (edge_rel (filter (λ e', e' ∉ R) (edges (disconnectChild st e).1))) r x)
      as Hx2.
    { eapply rtc_edges_transfer; [|exact Hx].
      intros e' [HR He']%list_elem_of_filter Hfrom. apply list_elem_of_filter.
      split; [set_solver|].
      assert (rtc (edge_rel (filter (λ e'', e'' ≠ e) (edges st.1))) r (edge_from e')) as Hf1.
      { eapply rtc_edges_mono; [|exact Hfrom]. intros e''. rewrite !list_elem_of_filter.
        set_solver. }
      destruct (disconnectChild_safe st e r Hr _ Hf1) as (_ & _ & E2).
      apply E2; [done|set_solver|done]. }
    destruct (IH (disconnectChild st e)) with (x := x) as (N2 & I2 & E2); [|done|].
    { by destruct (disconnectChild_frame st e) as [-> _]. }
    split_and!.
    + by rewrite N2.
    + by rewrite I2.
    + intros e' He' HR Hfrom. apply E2; [|set_solver|done].
      apply E1; [done|set_solver|done].
Qed.

(** ** Connecting the new children *)

Lemma connectChild_frame p ty st c :
  rootNodeId (connectChild p ty st c).1 = rootNodeId st.1
  ∧ incompleteNodes (connectChild p ty st c).1 = incompleteNodes st.1
  ∧ invalidNodes (connectChild p ty st c).1 = invalidNodes st.1.
Proof.
  destruct st as [g add]. unfold connectChild, addEdge.
  repeat (case_match; simpl); simplify_eq/=; done.
Qed.

Lemma connectAll_frame p ty cs st :
  rootNodeId (connectAll p ty cs st).1 = rootNodeId st.1
  ∧ incompleteNodes (connectAll p ty cs st).1 = incompleteNodes st.1
  ∧ invalidNodes (connectAll p ty cs st).1 = invalidNodes st.1.
Proof.
  revert st. induction cs as [|c cs IH]; intros st; [done|].
  unfold connectAll in *. simpl. destruct (IH (connectChild p ty st c)) as (-> & -> & ->).
  apply connectChild_frame.
Qed.

Lemma addEdge_edges e g e' : e' ∈ edges (addEdge e g) ↔ e' ∈ edges g ∨ e' = e.
Proof.
  unfold addEdge, hasEdge. case_bool_decide; simpl; [set_solver|].
  rewrite elem_of_app, list_elem_of_singleton. done.
Qed.

Lemma connectChild_nodes p ty st c :
  nodes (connectChild p ty st c).1 =
  if JSMap.has (node_id c) (nodes st.1) then nodes st.1
  else nodes st.1 ++ [(node_id c, c)].
Proof.
  destruct st as [g add]. unfold connectChild, addEdge. cbn [fst].
  destruct (JSMap.has _ _) eqn:Hhas; repeat (case_match; simpl); simplify_eq/=; try done.
  all: by apply set_absent, has_false.
Qed.

Lemma connectChild_edges p ty st c e :
  e ∈ edges (connectChild p ty st c).1 ↔
  e ∈ edges st.1 ∨ e = mkEdge p (node_id c) ty.
Proof.
  destruct st as [g add]. unfold connectChild. cbn [fst].
  destruct (JSMap.has _ _); destruct (hasEdge _ _) eqn:Hhas; cbn [fst].
  all: try (rewrite addEdge_edges; simpl; done).
  all: apply bool_decide_eq_true in Hhas; simpl in *; set_solver.
Qed.

Lemma connectAll_nodes p ty cs st :
  nodes (connectAll p ty cs st).1 = nodes st.1 ++ freshChildren (nodes st.1) cs.
Proof.
  revert st. induction cs as [|c cs IH]; intros st; simpl.
  - by rewrite app_nil_r.
  - unfold connectAll in *. simpl. rewrite IH, connectChild_nodes.
    destruct (JSMap.has _ _); [done|]. by rewrite <- app_assoc.
Qed.

Lemma connectAll_edges p ty cs st e :
  e ∈ edges (connectAll p ty cs st).1 ↔
  e ∈ edges st.1 ∨ ∃ c, c ∈ cs ∧ e = mkEdge p (node_id c) ty.
Proof.
  revert st. induction cs as [|c cs IH]; intros st.
  - simpl. set_solver.
  - unfold connectAll in *. simpl. rewrite IH, connectChild_edges. set_solver.
Qed.

(** [added] receives exactly the entries appended to [nodes]. *)
Lemma connectAll_added p ty cs st :
  (∀ k, JSMap.get k (nodes st.1) = None → JSMap.get k (nodes st.2) = None) →
  nodes (connectAll p ty cs st).2 = nodes st.2 ++ freshChildren (nodes st.1) cs.
Proof.
  revert st. induction cs as [|c cs IH]; intros [g add] Hinv; cbn [fst snd] in *.
  - simpl. by rewrite app_nil_r.
  - unfold connectAll in *. cbn [fold_left freshChildren].
    destruct (JSMap.has (node_id c) (nodes g)) eqn:Hhas.
    + assert (∃ g' add', connectChild p ty (g, add) c = (g', add')
                         ∧ nodes g' = nodes g ∧ nodes add' = nodes add)
        as (g' & add' & -> & Hg' & Hadd').
      { unfold connectChild. rewrite Hhas. destruct (hasEdge _ _); eauto.
        unfold addEdge. repeat case_match; eauto. }
      rewrite IH; cbn [fst snd]; rewrite Hg', Hadd'; done.
    + apply has_false in Hhas.
      assert (∃ g' add', connectChild p ty (g, add) c = (g', add')
                         ∧ nodes g' = nodes g ++ [(node_id c, c)]
                         ∧ nodes add' = nodes add ++ [(node_id c, c)])
        as (g' & add' & -> & Hg' & Hadd').
      { unfold connectChild. rewrite (proj2 (has_false _ _) Hhas).
        destruct (hasEdge _ _); unfold addEdge; repeat case_match; simpl;
          do 2 eexists; split_and!; try done; simpl;
          by apply set_absent; auto. }
      rewrite IH; cbn [fst snd]; rewrite Hg', Hadd'.
      * by rewrite <- app_assoc.
      * intros k. rewrite !get_app. simpl. specialize (Hinv k).
        destruct (JSMap.get k (nodes g)); [done|]. rewrite Hinv by done.
        by case_decide.
Qed.

Lemma connectAll_noop p ty cs st :
  (∀ c, c ∈ cs → JSMap.has (node_id c) (nodes st.1) = true
                ∧ hasEdge (mkEdge p (node_id c) ty) st.1 = true) →
  connectAll p ty cs st = st.
Proof.
  destruct st as [g add]. cbn [fst]. induction cs as [|c cs IH]; intros Hall; [done|].
  unfold connectAll in *. simpl. destruct (Hall c) as [-> ->]; [by left|].
  apply IH. intros c' Hc'. apply Hall. by right.
Qed.

(** Facts about [freshChildren]. *)

Lemma freshChildren_elem m cs k n :
  (k, n) ∈ freshChildren m cs → n ∈ cs ∧ k = node_id n ∧ JSMap.get k m = None.
Proof.
  revert m. induction cs as [|c cs IH]; intros m; simpl; [by intros ?%elem_of_nil|].
  destruct (JSMap.has _ _) eqn:Hhas.
  - intros (? & ? & ?)%IH. split_and!; [by right|done..].
  - intros [Heq|(? & ? & Hg)%IH]%elem_of_cons.
    + simplify_eq. split_and!; [by left|done|by apply has_false].
    + split_and!; [by right|done|]. rewrite get_app in Hg. by destruct (JSMap.get k m).
Qed.

Lemma freshChildren_nil m cs :
  freshChildren m cs = [] ↔ ∀ c, c ∈ cs → JSMap.has (node_id c) m = true.
Proof.
  induction cs as [|c cs IH]; simpl.
  - split; [|done]. by intros _ c ?%elem_of_nil.
  - destruct (JSMap.has (node_id c) m) eqn:Hhas.
    + rewrite IH. split; [|set_solver]. intros H c' [->|?]%elem_of_cons; auto.
    + split; [done|]. intros H. rewrite H in Hhas; [done|by left].
Qed.

Lemma get_freshChildren m cs k :
  JSMap.get k (m ++ freshChildren m cs) =
  match JSMap.get k m with
  | Some n => Some n
  | None => head (filter (λ c, node_id c = k) cs)
  end.
Proof.
  revert m. induction cs as [|c cs IH]; intros m; cbn [freshChildren].
  - rewrite app_nil_r. by destruct (JSMap.get k m).
  - rewrite filter_cons. destruct (JSMap.has (node_id c) m) eqn:Hhas.
    + rewrite IH. destruct (JSMap.get k m) eqn:Hk; [done|].
      rewrite decide_False; [done|]. intros Heq. subst k.
      apply has_get in Hhas as [? ?]. congruence.
    + apply has_false in Hhas.
      change (m ++ (node_id c, c) :: ?l) with (m ++ [(node_id c, c)] ++ l).
      rewrite app_assoc, IH, get_app. simpl.
      destruct (JSMap.get k m) eqn:Hk; [done|]. by repeat case_decide.
Qed.

(** ** [replaceNodesConnectedTo] *)

Lemma filter_none {A} (P : A → Prop) `{∀ x, Decision (P x)} (l : list A) :
  (∀ x, x ∈ l → ¬ P x) → filter P l = [].
Proof.
  induction l as [|x l IH]; intros Hl; [done|].
  rewrite filter_cons_False; [|apply Hl; by left]. apply IH. intros y Hy. apply Hl. by right.
Qed.

Lemma connectAll_frame_pair p ty cs g add :
  rootNodeId (connectAll p ty cs (g, add)).1 = rootNodeId g
  ∧ incompleteNodes (connectAll p ty cs (g, add)).1 = incompleteNodes g
  ∧ invalidNodes (connectAll p ty cs (g, add)).1 = invalidNodes g.
Proof. apply (connectAll_frame p ty cs (g, add)). Qed.

Section Replace.
Variables (fromNode : Node) (toNodes : list Node) (ty : option EdgeType) (g : AssetGraph).

Let p := node_id fromNode.
Let r := replaceNodesConnectedTo fromNode toNodes ty g.
Let R := filter (λ e, edge_to e ∉ node_id <$> toNodes)
                (filter (λ e, edge_from e = p ∧ edge_type e = ty) (edges g)).
Let g1 := (connectAll p ty toNodes (g, newAssetGraph)).1.

Lemma replace_R e : e ∈ R ↔ e ∈ edges g ∧ dropped p ty toNodes e.
Proof. unfold R, dropped. rewrite !list_elem_of_filter. tauto. Qed.

Lemma replace_target e :
  e ∈ targetEdges p ty toNodes (edges g) ↔ e ∈ edges g1 ∧ e ∉ R.
Proof.
  unfold targetEdges, g1. rewrite elem_of_app, list_elem_of_filter, list_elem_of_fmap.
  rewrite connectAll_edges, replace_R. cbn [fst]. split.
  - intros [[Hd He]|(c & -> & Hc)].
    + split; [by left|]. tauto.
    + split; [right; by exists c|]. intros [_ (_ & _ & Hto)]. apply Hto. simpl.
      by apply list_elem_of_fmap_2.
  - intros [[He|(c & Hc & ->)] HR].
    + left. split; [|done]. intros Hd. apply HR. done.
    + right. by exists c.
Qed.

Lemma replace_frame :
  rootNodeId (this_after r) = rootNodeId g
  ∧ invalidNodes (this_after r) = invalidNodes g.
Proof.
  unfold r, replaceNodesConnectedTo. cbn [this_after].
  match goal with |- context [disconnectAll ?X ?st] =>
    destruct (disconnectAll_frame X st) as [-> ->] end. cbn [fst].
  by destruct (connectAll_frame_pair (node_id fromNode) ty toNodes g newAssetGraph)
    as (-> & _ & ->).
Qed.

(** The operation leaves nothing but what it aims at. *)
Lemma replace_sub :
  (∀ e, e ∈ edges (this_after r) → e ∈ targetEdges p ty toNodes (edges g))
  ∧ (∀ k n, JSMap.get k (nodes (this_after r)) = Some n →
            JSMap.get k (nodes g ++ freshChildren (nodes g) toNodes) = Some n)
  ∧ (∀ k n, JSMap.get k (incompleteNodes (this_after r)) = Some n →
            JSMap.get k (incompleteNodes g) = Some n).
Proof.
  unfold r, replaceNodesConnectedTo. cbn [this_after].
  match goal with |- context [disconnectAll ?X ?st] =>
    destruct (disconnectAll_sub X st) as (S1 & S2 & S3) end. cbn [fst] in *.
  split_and!.
  - intros e He. apply replace_target. by apply S1.
  - intros k n Hk%S2. by rewrite connectAll_nodes in Hk.
  - intros k n Hk%S3.
    destruct (connectAll_frame_pair (node_id fromNode) ty toNodes g newAssetGraph)
      as (_ & Hi & _).
    by rewrite Hi in Hk.
Qed.

(** What the root reaches along the edges aimed at is kept as it is. *)
Lemma replace_safe r0 x :
  rootNodeId g = Some r0 →
  rtc (edge_rel (targetEdges p ty toNodes (edges g))) r0 x →
  JSMap.get x (nodes (this_after r)) =
    JSMap.get x (nodes g ++ freshChildren (nodes g) toNodes)
  ∧ JSMap.get x (incompleteNodes (this_after r)) = JSMap.get x (incompleteNodes g)
  ∧ (∀ e, e ∈ targetEdges p ty toNodes (edges g) → edge_from e = x →
          e ∈ edges (this_after r)).
Proof.
  intros Hr Hx. unfold r, replaceNodesConnectedTo. cbn [this_after].
  match goal with |- context [disconnectAll ?X ?st] =>
    destruct (disconnectAll_safe X st r0) with (x := x) as (N & I & E) end.
  - cbn [fst].
    by destruct (connectAll_frame_pair (node_id fromNode) ty toNodes g newAssetGraph)
      as (-> & _ & _).
  - cbn [fst]. eapply rtc_edges_mono; [|exact Hx].
    intros e [He HR]%replace_target. apply list_elem_of_filter. done.
  - cbn [fst] in *. split_and!.
    + by rewrite N, connectAll_nodes.
    + rewrite I.
      by destruct (connectAll_frame_pair (node_id fromNode) ty toNodes g newAssetGraph)
        as (_ & -> & _).
    + intros e [He HR]%replace_target Hfrom. by apply E.
Qed.

Lemma replace_safe_rtc r0 x :
  rootNodeId g = Some r0 →
  rtc (edge_rel (targetEdges p ty toNodes (edges g))) r0 x →
  rtc (edge_rel (edges (this_after r))) r0 x.
Proof.
  intros Hr. apply rtc_edges_transfer. intros e He Hfrom.
  destruct (replace_safe r0 (edge_from e) Hr Hfrom) as (_ & _ & E). by apply E.
Qed.

Lemma replace_added : nodes (added r) = freshChildren (nodes g) toNodes.
Proof.
  unfold r, replaceNodesConnectedTo. cbn [added].
  by rewrite connectAll_added.
Qed.

Lemma replace_noop :
  (∀ c, c ∈ toNodes → JSMap.has (node_id c) (nodes g) = true
                      ∧ hasEdge (mkEdge p (node_id c) ty) g = true) →
  (∀ e, e ∈ edges g → ¬ dropped p ty toNodes e) →
  r = mkReplaced g newAssetGraph newAssetGraph.
Proof.
  intros Hall Hnone. unfold r, replaceNodesConnectedTo.
  rewrite connectAll_noop by done. cbn [fst snd].
  fold p. fold R. assert (R = []) as ->; [|done].
  unfold R. rewrite list_filter_filter. apply filter_none.
  intros e He (H1 & H2 & H3). by apply (Hnone e).
Qed.

End Replace.

(** ** Invalidation *)

Lemma has_set k k' (n : Node) m :
  JSMap.has k (JSMap.set k' n m) = true ↔ k = k' ∨ JSMap.has k m = true.
Proof.
  unfold JSMap.has. rewrite get_set. case_decide; [naive_solver|].
  destruct (JSMap.get k m); naive_solver.
Qed.

Lemma has_markAll k ns m :
  JSMap.has k (markAll ns m) = true ↔ JSMap.has k m = true ∨ k ∈ node_id <$> ns.
Proof.
  revert m. induction ns as [|n ns IH]; intros m; simpl.
  - set_solver.
  - unfold markAll in *. simpl. rewrite IH, has_set. set_solver.
Qed.

Lemma markAll_app ns1 ns2 m : markAll (ns1 ++ ns2) m = markAll ns2 (markAll ns1 m).
Proof. apply fold_left_app. Qed.

Lemma with_invalidNodes_id g : with_invalidNodes (λ m, m) g = g.
Proof. by destruct g. Qed.

Lemma forEach_app {A} (xs ys : list A) (body : A → M unit) g :
  forEach (xs ++ ys) body g = bind (forEach xs body) (λ _, forEach ys body) g.
Proof.
  revert g. induction xs as [|x xs IH]; intros g; simpl.
  - unfold bind, ret. done.
  - unfold bind in *. destruct (body x g); [|done]. apply IH.
Qed.

Lemma getActionNode_with_invalidNodes f g c :
  getActionNode c (with_invalidNodes f g) = getActionNode c g.
Proof. reflexivity. Qed.

Lemma invalidateNode_ok c g f :
  invalidatable g c = true →
  invalidateNode c (with_invalidNodes f g) =
  Ok tt (with_invalidNodes (λ m, markAll (cascade g c) (f m)) g).
Proof.
  unfold invalidatable, cascade, invalidateNode.
  destruct (node_type c); try done.
  all: unfold bind, markInvalid, modify, liftE; cbn.
  all: rewrite !getActionNode_with_invalidNodes.
  all: destruct (getActionNode c g) as [|[a|]]; done.
Qed.

Lemma invalidateAll_ok cs g f :
  forallb (invalidatable g) cs = true →
  forEach cs invalidateNode (with_invalidNodes f g) =
  Ok tt (with_invalidNodes (λ m, markAll (flat_map (cascade g) cs) (f m)) g).
Proof.
  revert f. induction cs as [|c cs IH]; intros f; simpl; [done|].
  intros [Hc Hcs]%andb_true_iff. unfold bind. rewrite invalidateNode_ok by done.
  rewrite IH by done. unfold with_invalidNodes. by rewrite markAll_app.
Qed.

Lemma elem_of_flat_map {A B} (f : A → list B) (l : list A) y :
  y ∈ flat_map f l ↔ ∃ x, x ∈ l ∧ y ∈ f x.
Proof.
  induction l as [|x l IH]; simpl.
  - set_solver.
  - rewrite elem_of_app, IH. set_solver.
Qed.

Lemma elem_of_flat_map_cascade g cs k :
  k ∈ node_id <$> flat_map (cascade g) cs ↔
  ∃ c, c ∈ cs ∧ k ∈ node_id <$> cascade g c.
Proof.
  induction cs as [|c cs IH]; simpl.
  - set_solver.
  - rewrite fmap_app, elem_of_app, IH. set_solver.
Qed.

Section Invalidation.
Context `{!Externals}.

Lemma invalidateConnectedNodes_ok n ty g f :
  forallb (invalidatable g) (getNodesConnectedTo n ty g) = true →
  invalidateConnectedNodes n ty (with_invalidNodes f g) =
  Ok tt (with_invalidNodes
           (λ m, markAll (flat_map (cascade g) (getNodesConnectedTo n ty g)) (f m)) g).
Proof.
  intros Hall. unfold invalidateConnectedNodes, bind, ret.
  change (getNodesConnectedTo n ty (with_invalidNodes f g))
    with (getNodesConnectedTo n ty g).
  by apply invalidateAll_ok.
Qed.

Lemma globLoop_ok path ty g globs f :
  forallb (invalidatable g) (globTargets path ty g globs) = true →
  forEach globs
    (λ globNode, when (isMatch path (glob_pattern globNode))
                      (invalidateConnectedNodes globNode (Some ty)))
    (with_invalidNodes f g) =
  Ok tt (with_invalidNodes
           (λ m, markAll (flat_map (cascade g) (globTargets path ty g globs)) (f m)) g).
Proof.
  revert f. induction globs as [|gl globs IH]; intros f; simpl; [done|].
  rewrite forallb_app. intros [H1 H2]%andb_true_iff. unfold bind, when.
  destruct (isMatch path (glob_pattern gl)).
  - rewrite invalidateConnectedNodes_ok by done. rewrite IH by done.
    unfold with_invalidNodes. by rewrite flat_map_app, markAll_app.
  - unfold ret. by rewrite IH.
Qed.

Lemma respondToFSChange_ok action path ty g f :
  getInvalidationEdgeType action = inr ty →
  forallb (invalidatable g) (fsTargets action path ty g) = true →
  respondToFSChange action path (with_invalidNodes f g) =
  Ok tt (with_invalidNodes
           (λ m, markAll (flat_map (cascade g) (fsTargets action path ty g)) (f m)) g).
Proof.
  intros Hty Hall.
  unfold respondToFSChange, bind, liftE, ret. rewrite Hty.
  unfold fsTargets in *. rewrite forallb_app in Hall.
  apply andb_true_iff in Hall as [H1 H2].
  change (nodes (with_invalidNodes f g)) with (nodes g).
  assert (∃ F, match JSMap.get path (nodes g) with
               | Some n => invalidateConnectedNodes n (Some ty)
               | None => λ g0, Ok tt g0
               end (with_invalidNodes f g) = Ok tt (with_invalidNodes F g)
               ∧ ∀ m, F m = markAll (flat_map (cascade g)
                   match JSMap.get path (nodes g) with
                   | Some n => getNodesConnectedTo n (Some ty) g
                   | None => []
                   end) (f m)) as (F & -> & HF).
  { destruct (JSMap.get path (nodes g)) as [n|].
    - eexists. split; [by apply invalidateConnectedNodes_ok|]. done.
    - by exists f. }
  destruct (bool_decide (action = "add")); cbn [when].
  - change (getGlobNodesFromGraph (with_invalidNodes F g)) with (getGlobNodesFromGraph g).
    rewrite globLoop_ok by done. unfold with_invalidNodes.
    by rewrite HF, flat_map_app, markAll_app.
  - unfold with_invalidNodes. by rewrite HF, app_nil_r.
Qed.

(** The list [respondToFSChange] walks holds the targets of the event and
    nothing else. *)
Lemma fsTargets_spec action path ty g n :
  n ∈ fsTargets action path ty g ↔ fsTarget action path ty g n.
Proof.
  unfold fsTargets, fsTarget, getNode. rewrite elem_of_app.
  assert (∀ P P' Q Q' : Prop, (P ↔ P') → (Q ↔ Q') → (P ∨ Q ↔ P' ∨ Q')) as Hor by tauto.
  apply Hor; clear Hor.
  - destruct (JSMap.get path (nodes g)) as [f|].
    + split; [intros Hn; by exists f | by intros (f' & [= <-] & Hn)].
    + split; [by intros ?%elem_of_nil | by intros (f' & [=] & _)].
  - case_bool_decide as Hadd.
    + unfold globTargets, getGlobNodesFromGraph. rewrite elem_of_flat_map. split.
      * intros (gl & [Hty Hgl]%list_elem_of_filter & Hn). split; [done|].
        unfold node_type in Hty. unfold glob_pattern in Hn.
        destruct (node_value gl) as [| | |pat| | | | | | |] eqn:Hv; try done.
        exists gl, pat. destruct (isMatch path pat); [done|by apply elem_of_nil in Hn].
      * intros (_ & gl & pat & Hgl & Hv & Hmatch & Hn). exists gl. split.
        -- apply list_elem_of_filter. split; [|done]. unfold node_type. by rewrite Hv.
        -- unfold glob_pattern. by rewrite Hv, Hmatch.
    + split; [by intros ?%elem_of_nil | by intros [? _]].
Qed.

Lemma forallb_elem_of {A} (p : A → bool) (l : list A) :
  forallb p l = true ↔ ∀ x, x ∈ l → p x = true.
Proof.
  induction l as [|y l IH]; simpl.
  - split; [by intros _ x ?%elem_of_nil | done].
  - rewrite andb_true_iff, IH. setoid_rewrite elem_of_cons. naive_solver.
Qed.

(** C2 (amended): for a recognised action, the nodes handed to
    [invalidateNode] are those connected by the action's edge type to the
    node whose id is the path and, on [add], to every glob node whose
    pattern matches the path.  If each of them can be invalidated the call
    returns, leaves nodes, edges, root and [incompleteNodes] as they were,
    and marks invalid exactly these nodes together with the action node of
    each config or dev-dep request among them; when there is no such node
    at all (in particular for a change or unlink event whose path is no
    node's id) the graph object is unchanged. *)
Theorem respondToFSChange_marks (action path : string) (ty : EdgeType) (g : AssetGraph) :
  getInvalidationEdgeType action = inr ty →
  (∀ c, fsTarget action path ty g c → invalidatable g c = true) →
  ∃ g', respondToFSChange action path g = Ok tt g'
    ∧ nodes g' = nodes g ∧ edges g' = edges g ∧ rootNodeId g' = rootNodeId g
    ∧ incompleteNodes g' = incompleteNodes g
    ∧ (∀ k, JSMap.has k (invalidNodes g') = true ↔
            JSMap.has k (invalidNodes g) = true
            ∨ ∃ c, fsTarget action path ty g c ∧ k ∈ node_id <$> cascade g c)
    ∧ ((∀ c, ¬ fsTarget action path ty g c) → g' = g)
    ∧ (JSMap.get path (nodes g) = None → action ≠ "add" → g' = g).
Proof.
  intros Hty Hall.
  assert (forallb (invalidatable g) (fsTargets action path ty g) = true) as Hall'.
  { apply forallb_elem_of. intros c Hc. by apply Hall, fsTargets_spec. }
  pose proof (respondToFSChange_ok action path ty g (λ m, m) Hty Hall') as Hok.
  rewrite with_invalidNodes_id in Hok. cbn beta in Hok.
  eexists. split_and!; try exact Hok; try done.
  - intros k. simpl. rewrite has_markAll, elem_of_flat_map_cascade.
    by setoid_rewrite fsTargets_spec.
  - intros Hnone.
    assert (fsTargets action path ty g = []) as ->; [|apply with_invalidNodes_id].
    apply elem_of_nil_inv. intros c Hc%fsTargets_spec. by apply (Hnone c).
  - intros Hnone Hadd. unfold fsTargets. rewrite Hnone, bool_decide_false by done.
    apply with_invalidNodes_id.
Qed.


(** C7: the action-to-edge-type table is exactly change, add, unlink; any
    other action makes [getInvalidationEdgeType] (and with it
    [respondToFSChange]) throw, and [invalidateNode] throws for every node
    whose type is not dependency, transformer_request, config_request or
    dev_dep_request. *)
Theorem invalidation_errors :
  getInvalidationEdgeType "change" = inr invalidated_by_change_to
  ∧ getInvalidationEdgeType "add" = inr invalidated_by_addition_matching
  ∧ getInvalidationEdgeType "unlink" = inr invalidated_by_removal_of
  ∧ (∀ action, action ∉ ["change"; "add"; "unlink"] →
       getInvalidationEdgeType action =
         inl (Error ("Unrecognized invalidation action " +:+ dquote +:+ action +:+ dquote))
       ∧ ∀ path g, throws (respondToFSChange action path g) = true)
  ∧ (∀ node g,
       node_type node ∉ [dependency; transformer_request; config_request; dev_dep_request] →
       invalidateNode node g =
         Throw (Error ("Cannot invalidate node with unrecognized type "
                       +:+ type_name (node_type node))) g).
Proof.
  split_and!; try done.
  - intros action Hnot.
    assert (getInvalidationEdgeType action =
            inl (Error ("Unrecognized invalidation action " +:+ dquote +:+ action +:+ dquote)))
      as Hthrow.
    { unfold getInvalidationEdgeType. repeat case_decide; try done; set_solver. }
    split; [done|]. intros path g. unfold respondToFSChange, bind. by rewrite Hthrow.
  - intros node g Hnot. unfold invalidateNode.
    destruct (node_type node); try done; set_solver.
Qed.

End Invalidation.

(** C10: [removeNode] deletes the node's entry from [incompleteNodes] and
    leaves [invalidNodes] untouched, so does the pruning of
    [replaceNodesConnectedTo] that goes through it: a node removed while
    marked invalid is gone from the graph and still in [invalidNodes]. *)
Theorem removeNode_keeps_invalidNodes (n : Node) (g : AssetGraph) :
  incompleteNodes (removeNode n g) = JSMap.delete (node_id n) (incompleteNodes g)
  ∧ invalidNodes (removeNode n g) = invalidNodes g
  ∧ getNode (node_id n) (removeNode n g) = None
  ∧ JSMap.get (node_id n) (incompleteNodes (removeNode n g)) = None
  ∧ JSMap.get (node_id n) (invalidNodes (removeNode n g)) =
      JSMap.get (node_id n) (invalidNodes g)
  ∧ ∀ fromNode toNodes ty,
      invalidNodes (this_after (replaceNodesConnectedTo fromNode toNodes ty g)) =
      invalidNodes g.
Proof.
  split_and!; try done.
  - unfold getNode. simpl. apply get_delete_eq.
  - simpl. apply get_delete_eq.
  - intros. apply replace_frame.
Qed.

(** ** Config requests *)

Lemma grows_refl g : grows g g.
Proof. by split. Qed.

Lemma grows_trans g1 g2 g3 : grows g1 g2 → grows g2 g3 → grows g1 g3.
Proof. intros [E1 N1] [E2 N2]. split; auto. Qed.

Lemma grows_addNode n g : grows g (addNode n g).
Proof.
  split; [done|]. intros k. unfold getNode. simpl. rewrite get_set.
  by case_decide.
Qed.

Lemma grows_addEdge e g : grows g (addEdge e g).
Proof.
  split.
  - intros e' He'. apply addEdge_edges. by left.
  - intros k. unfold addEdge. by destruct (hasEdge e g).
Qed.



Section ConfigRequests.
Context `{!Externals}.


Lemma grows_linkDevDepRequest cr d g : grows g (linkDevDepRequest cr d g).
Proof.
  unfold linkDevDepRequest.
  destruct (hasEdge _ _); [apply grows_addNode|].
  eapply grows_trans; [apply (grows_addNode (nodeFromDevDepRequest d))|].
  eapply grows_trans; [apply grows_addEdge|].
  split; [intros e He; exact He | intros k Hk; exact Hk].
Qed.

Lemma grows_linkDevDepRequests cr ds g :
  grows g (fold_left (λ g r, linkDevDepRequest cr r g) ds g).
Proof.
  revert g. induction ds as [|d ds IH]; intros g; simpl; [apply grows_refl|].
  eapply grows_trans; [apply grows_linkDevDepRequest | apply IH].
Qed.



End ConfigRequests.

(** ** What [removed] holds *)










(** ** What [removed] holds, in full *)












(** ** Resolving a dependency *)

Lemma reachableFromRoot_rtc g x :
  reachableFromRoot g x = true →
  ∃ r0, rootNodeId g = Some r0 ∧ rtc (edge_rel (edges g)) r0 x.
Proof.
  unfold reachableFromRoot. destruct (rootNodeId g) as [r0|]; [|done].
  intros Hx%reach_spec. eauto.
Qed.

Lemma target_kept p ty cs es e :
  e ∈ es → ¬ dropped p ty cs e → e ∈ targetEdges p ty cs es.
Proof.
  intros. unfold targetEdges. apply elem_of_app. left. by apply list_elem_of_filter.
Qed.

Lemma target_made p ty cs es c :
  c ∈ cs → mkEdge p (node_id c) ty ∈ targetEdges p ty cs es.
Proof.
  intros. unfold targetEdges. apply elem_of_app. right.
  by apply (list_elem_of_fmap_2 (λ c, mkEdge p (node_id c) ty)).
Qed.

Lemma target_inv p ty cs es e :
  e ∈ targetEdges p ty cs es →
  (e ∈ es ∧ ¬ dropped p ty cs e) ∨ (∃ c, c ∈ cs ∧ e = mkEdge p (node_id c) ty).
Proof.
  unfold targetEdges. rewrite elem_of_app, list_elem_of_filter, list_elem_of_fmap.
  intros [[? ?]|(c & -> & ?)]; [by left | right; by exists c].
Qed.

(** An edge of the given parent and type that the operation leaves in
    place points to one of the new children. *)
Lemma target_child p ty cs es e :
  e ∈ targetEdges p ty cs es → edge_from e = p → edge_type e = ty →
  edge_to e ∈ node_id <$> cs.
Proof.
  intros [[He Hd]|(c & Hc & ->)]%target_inv Hfrom Hty.
  - destruct (decide (edge_to e ∈ node_id <$> cs)); [done|]. by destruct Hd.
  - simpl. by apply list_elem_of_fmap_2.
Qed.

(** A node reached from the root is reached along edges the operation
    does not drop, as long as the walk avoids the edges leaving [p]. *)
Lemma rtc_target_avoiding p ty cs es r0 x :
  rtc (edge_rel (filter (λ e, edge_from e ≠ p) es)) r0 x →
  rtc (edge_rel (targetEdges p ty cs es)) r0 x.
Proof.
  apply rtc_edges_mono. intros e [Hne He]%list_elem_of_filter.
  apply target_kept; [done|]. by intros [? _].
Qed.

Section ResolveDependency.
Context `{!Externals}.


End ResolveDependency.

(** ** Consequences of the survival lemma *)

Lemma reachableAvoiding_rtc S g x :
  reachableAvoiding S g x = true →
  ∃ r0, rootNodeId g = Some r0 ∧ rtc (edge_rel (avoiding S (edges g))) r0 x.
Proof.
  unfold reachableAvoiding. destruct (rootNodeId g) as [r0|]; [|done].
  intros Hx%reach_spec. eauto.
Qed.

Lemma reachableAfter_rtc p ty cs g x :
  reachableAfter p ty cs g x = true →
  ∃ r0, rootNodeId g = Some r0
        ∧ rtc (edge_rel (targetEdges (node_id p) ty cs (edges g))) r0 x.
Proof.
  unfold reachableAfter. destruct (rootNodeId g) as [r0|]; [|done].
  intros Hx%reach_spec. eauto.
Qed.

Lemma rtc_target_of_avoiding S p ty cs es r0 x :
  p ∈ S →
  rtc (edge_rel (avoiding S es)) r0 x → rtc (edge_rel (targetEdges p ty cs es)) r0 x.
Proof.
  intros Hp. apply rtc_edges_mono. intros e [Hne He]%list_elem_of_filter.
  apply target_kept; [done|]. intros [Hfrom _]. apply Hne. by rewrite Hfrom.
Qed.

Section ReplaceConsequences.
Variables (fromNode : Node) (toNodes : list Node) (ty : option EdgeType)
          (g : AssetGraph) (r0 : NodeId).
Hypothesis Hroot : rootNodeId g = Some r0.

Let p := node_id fromNode.
Let g' := this_after (replaceNodesConnectedTo fromNode toNodes ty g).
Local Abbreviation safe x :=
  (rtc (edge_rel (targetEdges (node_id fromNode) ty toNodes (edges g))) r0 x).

Lemma replace_root : rootNodeId g' = Some r0.
Proof.
  unfold g'. by destruct (replace_frame fromNode toNodes ty g) as [-> _].
Qed.

Lemma replace_keep_edge e :
  e ∈ edges g → ¬ dropped p ty toNodes e → safe (edge_from e) → e ∈ edges g'.
Proof.
  intros He Hd Hs.
  destruct (replace_safe fromNode toNodes ty g r0 _ Hroot Hs) as (_ & _ & E).
  apply E; [by apply target_kept | done].
Qed.

Lemma replace_keep_node x n :
  safe x → getNode x g = Some n → getNode x g' = Some n.
Proof.
  intros Hs Hn.
  destruct (replace_safe fromNode toNodes ty g r0 _ Hroot Hs) as (N & _ & _).
  unfold getNode, g' in *. by rewrite N, get_freshChildren, Hn.
Qed.

Lemma replace_keep_incomplete x :
  safe x → JSMap.get x (incompleteNodes g') = JSMap.get x (incompleteNodes g).
Proof.
  intros Hs.
  by destruct (replace_safe fromNode toNodes ty g r0 _ Hroot Hs) as (_ & I & _).
Qed.

Lemma replace_child c :
  safe p → c ∈ toNodes →
  is_Some (getNode (node_id c) g') ∧ mkEdge p (node_id c) ty ∈ edges g'
  ∧ safe (node_id c).
Proof.
  intros Hs Hc.
  assert (mkEdge p (node_id c) ty ∈ targetEdges p ty toNodes (edges g)) as He
    by (by apply target_made).
  assert (safe (node_id c)) as Hsc.
  { eapply rtc_r; [exact Hs|]. by eexists. }
  destruct (replace_safe fromNode toNodes ty g r0 _ Hroot Hs) as (_ & _ & E).
  destruct (replace_safe fromNode toNodes ty g r0 _ Hroot Hsc) as (N & _ & _).
  split_and!; [|by apply E|done].
  unfold getNode, g'. rewrite N, get_freshChildren.
  destruct (JSMap.get (node_id c) (nodes g)); [done|].
  destruct (filter _ _) as [|c' l] eqn:Hf; [|done].
  assert (c ∈ filter (λ c0, node_id c0 = node_id c) toNodes) as Hin
    by (by apply list_elem_of_filter).
  rewrite Hf in Hin. by apply elem_of_nil in Hin.
Qed.

Lemma replace_upper_same e :
  e ∈ edges g' → edge_from e = p → edge_type e = ty → edge_to e ∈ node_id <$> toNodes.
Proof.
  intros He. destruct (replace_sub fromNode toNodes ty g) as (S1 & _ & _).
  apply (target_child p ty toNodes (edges g)). by apply S1.
Qed.

Lemma replace_upper_other e :
  e ∈ edges g' → edge_from e ≠ p ∨ edge_type e ≠ ty → e ∈ edges g.
Proof.
  intros He Hor. destruct (replace_sub fromNode toNodes ty g) as (S1 & _ & _).
  apply S1, target_inv in He as [[? _]|(c & _ & ->)]; [done|].
  simpl in Hor. by destruct Hor.
Qed.

Lemma replace_nodes_from k n :
  getNode k g' = Some n →
  getNode k g = Some n
  ∨ (getNode k g = None ∧ n ∈ toNodes ∧ node_id n = k
     ∧ n ∈ JSMap.values (nodes (added (replaceNodesConnectedTo fromNode toNodes ty g)))).
Proof.
  intros Hn. destruct (replace_sub fromNode toNodes ty g) as (_ & S2 & _).
  apply S2 in Hn. rewrite get_app in Hn. unfold getNode.
  destruct (JSMap.get k (nodes g)) as [n'|] eqn:Hk; [by left|]. right.
  assert ((k, n) ∈ freshChildren (nodes g) toNodes) as Hin.
  { clear -Hn. induction (freshChildren (nodes g) toNodes) as [|[k' n'] l IH]; [done|].
    simpl in Hn. case_decide; [simplify_eq; by left | right; by apply IH]. }
  pose proof Hin as (? & -> & _)%freshChildren_elem.
  split_and!; [done..|]. rewrite replace_added. unfold JSMap.values.
  by apply (list_elem_of_fmap_2 snd _ (node_id n, n)).
Qed.

Lemma replace_avoiding S x :
  p ∈ S →
  rtc (edge_rel (avoiding S (edges g))) r0 x →
  rtc (edge_rel (avoiding S (edges g'))) r0 x ∧ safe x.
Proof.
  intros Hp Hx. split; [|by eapply rtc_target_of_avoiding].
  eapply rtc_edges_transfer; [|exact Hx].
  intros e [Hne He]%list_elem_of_filter Hfrom. apply list_elem_of_filter. split; [done|].
  apply replace_keep_edge; [done| |by eapply rtc_target_of_avoiding].
  intros [Hf _]. apply Hne. by rewrite Hf.
Qed.

End ReplaceConsequences.

(** ** Registering nodes as incomplete *)

Section Initialize.
Context `{!Externals}.

Lemma registerIncomplete_frame ns g :
  nodes (registerIncomplete ns g) = nodes g
  ∧ edges (registerIncomplete ns g) = edges g
  ∧ rootNodeId (registerIncomplete ns g) = rootNodeId g
  ∧ invalidNodes (registerIncomplete ns g) = invalidNodes g.
Proof.
  revert g. induction ns as [|n ns IH]; intros g; [done|].
  unfold registerIncomplete in *. simpl.
  destruct (IH (with_incompleteNodes (JSMap.set (node_id n) n) g)) as (-> & -> & -> & ->).
  done.
Qed.

Lemma registerIncomplete_other ns g k :
  k ∉ node_id <$> ns →
  JSMap.get k (incompleteNodes (registerIncomplete ns g)) = JSMap.get k (incompleteNodes g).
Proof.
  revert g. induction ns as [|n ns IH]; intros g Hk; [done|].
  unfold registerIncomplete in *. simpl. rewrite IH by set_solver.
  simpl. apply get_set_ne. set_solver.
Qed.


Lemma registerIncomplete_get ns g n :
  NoDup (node_id <$> ns) → n ∈ ns →
  JSMap.get (node_id n) (incompleteNodes (registerIncomplete ns g)) = Some n.
Proof.
  revert g n. induction ns as [|c ns IH]; intros g n Hnd; [by intros ?%elem_of_nil|].
  rewrite fmap_cons in Hnd. apply NoDup_cons in Hnd as [Hc Hnd].
  intros [->|Hn]%elem_of_cons.
  - pose proof (registerIncomplete_other ns
                  (with_incompleteNodes (JSMap.set (node_id c) c) g) _ Hc) as Hget.
    unfold registerIncomplete in *. simpl. rewrite Hget. simpl. apply get_set_eq.
  - unfold registerIncomplete in *. simpl. by apply IH.
Qed.

Lemma head_filter_NoDup (ns : list Node) n :
  NoDup (node_id <$> ns) → n ∈ ns →
  head (filter (λ c, node_id c = node_id n) ns) = Some n.
Proof.
  revert n. induction ns as [|c ns IH]; intros n Hnd; [by intros ?%elem_of_nil|].
  rewrite fmap_cons in Hnd. apply NoDup_cons in Hnd as [Hc Hnd].
  rewrite filter_cons. intros [->|Hn]%elem_of_cons.
  - by rewrite decide_True.
  - rewrite decide_False; [by apply IH|]. intros Heq. apply Hc. rewrite Heq.
    by apply list_elem_of_fmap_2.
Qed.





End Initialize.

(** ** Structural sharing *)

Section Sharing.
Context `{!Externals}.

Lemma resolveDependency_unfold dep req g :
  let requestNode := nodeFromTransformerRequest req in
  let r := replaceNodesConnectedTo (nodeFromDep dep) [requestNode] None
             (with_invalidNodes (JSMap.delete (dep_id dep))
                (with_incompleteNodes (JSMap.delete (dep_id dep)) g)) in
  nodes (resolveDependency dep req g).1 = nodes (this_after r)
  ∧ edges (resolveDependency dep req g).1 = edges (this_after r)
  ∧ rootNodeId (resolveDependency dep req g).1 = rootNodeId (this_after r)
  ∧ newRequestNode (resolveDependency dep req g).2 =
      (if JSMap.has (node_id requestNode) (nodes g) then None else Some requestNode).
Proof.
  cbn zeta. unfold resolveDependency. change (node_id (nodeFromDep dep)) with (dep_id dep).
  cbn [fst snd newRequestNode]. rewrite replace_added. simpl freshChildren.
  destruct (JSMap.has _ _); by split_and!.
Qed.

(** C4: two transformer requests with the same file path and environment
    get the same node id.  So when a dependency is resolved to a file and
    environment whose request node is already in the graph, referenced by
    another dependency, no node is created: [newRequestNode] is absent, the
    node under the id is the one that was there, and both dependencies
    have a default edge to it.  And when [replaceNodesConnectedTo] drops
    edges, a node that is still referenced, by an edge not dropped, from a
    node the root still reaches, is not pruned and keeps that edge;
    [removeNode] on a dependency takes no other node away. *)
Theorem structural_sharing :
  (∀ r1 r2, req_filePath r1 = req_filePath r2 → req_env r1 = req_env r2 →
     node_id (nodeFromTransformerRequest r1) = node_id (nodeFromTransformerRequest r2))
  ∧ (∀ g d1 d2 req t,
       getNode (node_id (nodeFromTransformerRequest req)) g = Some t →
       mkEdge (dep_id d1) (node_id (nodeFromTransformerRequest req)) None ∈ edges g →
       dep_id d1 ≠ dep_id d2 →
       reachableAvoiding [dep_id d2] g (dep_id d1) = true →
       reachableFromRoot g (dep_id d2) = true →
       let tid := node_id (nodeFromTransformerRequest req) in
       let g2 := (resolveDependency d2 req g).1 in
       newRequestNode (resolveDependency d2 req g).2 = None
       ∧ getNode tid g2 = Some t
       ∧ (∀ k n, getNode k g2 = Some n → getNode k g = Some n)
       ∧ hasEdge (mkEdge (dep_id d1) tid None) g2 = true
       ∧ hasEdge (mkEdge (dep_id d2) tid None) g2 = true)
  ∧ (∀ g p cs ty e t,
       e ∈ edges g → ¬ dropped (node_id p) ty cs e →
       reachableAfter p ty cs g (edge_from e) = true →
       getNode (edge_to e) g = Some t →
       let g' := this_after (replaceNodesConnectedTo p cs ty g) in
       getNode (edge_to e) g' = Some t ∧ hasEdge e g' = true)
  ∧ (∀ g d k, k ≠ node_id d → getNode k (removeNode d g) = getNode k g).
Proof.
  split_and!; [| | |by intros g d k Hne; unfold getNode; simpl; rewrite get_delete_ne].
  - intros r1 r2 Hf He. unfold nodeFromTransformerRequest. simpl. by rewrite Hf, He.
  - intros g d1 d2 req t Ht Hedge Hne Hd1 Hd2. cbn zeta.
    set (requestNode := nodeFromTransformerRequest req) in *.
    set (g0 := with_invalidNodes (JSMap.delete (dep_id d2))
                 (with_incompleteNodes (JSMap.delete (dep_id d2)) g)).
    destruct (resolveDependency_unfold d2 req g) as (Hn & He & _ & Hnew).
    fold requestNode g0 in Hn, He, Hnew.
    apply reachableAvoiding_rtc in Hd1 as (r0 & Hroot & Hd1).
    apply reachableFromRoot_rtc in Hd2 as (r0' & Hroot' & Hd2).
    assert (r0' = r0) as -> by congruence.
    assert (rootNodeId g0 = Some r0) as Hroot0 by done.
    assert (rtc (edge_rel (targetEdges (dep_id d2) None [requestNode] (edges g0))) r0 (dep_id d1))
      as Hs1 by (eapply rtc_target_of_avoiding; [|exact Hd1]; by left).
    assert (rtc (edge_rel (targetEdges (dep_id d2) None [requestNode] (edges g0))) r0 (dep_id d2))
      as Hs2 by (by apply rtc_target_avoiding, rtc_cut).
    assert (JSMap.has (node_id requestNode) (nodes g) = true) as Hhas.
    { apply has_get. unfold getNode in Ht. by rewrite Ht. }
    split_and!.
    + by rewrite Hnew, Hhas.
    + unfold getNode. rewrite Hn.
      destruct (replace_child (nodeFromDep d2) [requestNode] None g0 r0 Hroot0 requestNode)
        as (_ & _ & Hst); [done|by left|].
      by apply (replace_keep_node (nodeFromDep d2) [requestNode] None g0 r0 Hroot0).
    + intros k n. unfold getNode at 1. rewrite Hn. intros Hk.
      apply (replace_nodes_from (nodeFromDep d2) [requestNode] None g0) in Hk
        as [Hk|(Hnone & Hin%list_elem_of_singleton & Hid & _)]; [done|].
      subst n k. unfold getNode in *. change (nodes g0) with (nodes g) in Hnone. congruence.
    + unfold hasEdge. rewrite bool_decide_eq_true, He.
      apply (replace_keep_edge (nodeFromDep d2) [requestNode] None g0 r0 Hroot0); [done| |done].
      by intros [? _].
    + unfold hasEdge. rewrite bool_decide_eq_true, He.
      by destruct (replace_child (nodeFromDep d2) [requestNode] None g0 r0 Hroot0 requestNode)
        as (_ & ? & _); [|by left|].
  - intros g p cs ty e t He Hd Hreach Ht. cbn zeta.
    apply reachableAfter_rtc in Hreach as (r0 & Hroot & Hfrom).
    split.
    + apply (replace_keep_node p cs ty g r0 Hroot); [|done].
      eapply rtc_r; [exact Hfrom|]. exists e. split_and!; [|done..]. by apply target_kept.
    + unfold hasEdge. rewrite bool_decide_eq_true.
      by apply (replace_keep_edge p cs ty g r0 Hroot).
Qed.

End Sharing.

(** ** Establishing and keeping the children of a node *)

Lemma linkedTo_noop fromNode toNodes ty g :
  linkedTo g (node_id fromNode) ty (node_id <$> toNodes) →
  replaceNodesConnectedTo fromNode toNodes ty g = mkReplaced g newAssetGraph newAssetGraph.
Proof.
  intros [Hlow Hup]. apply replace_noop.
  - intros c Hc. destruct (Hlow (node_id c)) as [Hn He]; [by apply list_elem_of_fmap_2|].
    split; [by apply has_get|]. unfold hasEdge. by rewrite bool_decide_eq_true.
  - intros e He (Hfrom & Hty & Hto). apply Hto. by apply Hup.
Qed.

Section LinkedTo.
Variables (fromNode : Node) (toNodes : list Node) (ty : option EdgeType)
          (g : AssetGraph) (r0 : NodeId).
Hypothesis Hroot : rootNodeId g = Some r0.
Hypothesis Hsafe :
  rtc (edge_rel (targetEdges (node_id fromNode) ty toNodes (edges g))) r0 (node_id fromNode).

Let g' := this_after (replaceNodesConnectedTo fromNode toNodes ty g).

Lemma linkedTo_established : linkedTo g' (node_id fromNode) ty (node_id <$> toNodes).
Proof.
  split.
  - intros k (c & -> & Hc)%list_elem_of_fmap.
    by destruct (replace_child fromNode toNodes ty g r0 Hroot c Hsafe Hc) as (? & ? & _).
  - intros e. by apply replace_upper_same.
Qed.

Lemma linkedTo_preserved q tq ids :
  linkedTo g q tq ids → q ≠ node_id fromNode ∨ tq ≠ ty →
  rtc (edge_rel (targetEdges (node_id fromNode) ty toNodes (edges g))) r0 q →
  linkedTo g' q tq ids.
Proof.
  intros [Hlow Hup] Hne Hq. split.
  - intros k Hk. destruct (Hlow k Hk) as [[n Hn] He].
    assert (¬ dropped (node_id fromNode) ty toNodes (mkEdge q k tq)) as Hd.
    { intros (Hf & Ht & _). simpl in *. naive_solver. }
    split.
    + exists n. apply (replace_keep_node fromNode toNodes ty g r0 Hroot); [|done].
      eapply rtc_r; [exact Hq|]. exists (mkEdge q k tq). split_and!; [|done..].
      by apply target_kept.
    + by apply (replace_keep_edge fromNode toNodes ty g r0 Hroot).
  - intros e He Hfrom Hty. apply Hup; [|done..].
    apply (replace_upper_other fromNode toNodes ty g e He).
    destruct Hne as [Hne|Hne]; [left|right]; congruence.
Qed.

End LinkedTo.

Lemma rtc_avoiding_cut S es r0 x :
  rtc (edge_rel (avoiding S es)) r0 x → rtc (edge_rel (avoiding (x :: S) es)) r0 x.
Proof.
  intros Hx%rtc_cut. eapply rtc_edges_mono; [|exact Hx].
  intros e [Hne [HS He]%list_elem_of_filter]%list_elem_of_filter.
  apply list_elem_of_filter. split; [|done]. set_solver.
Qed.

Lemma fmap_node_id_assets `{!Externals} (l : list Asset) :
  node_id <$> (nodeFromAsset <$> l) = asset_id <$> l.
Proof. by rewrite <- list_fmap_compose. Qed.

Lemma fmap_node_id_deps `{!Externals} (l : list Dependency) :
  node_id <$> (nodeFromDep <$> l) = dep_id <$> l.
Proof. by rewrite <- list_fmap_compose. Qed.

(** ** Resolving a transformer request *)

Section Transform.
Context `{!Externals}.
Variables (req : TransformerRequest) (ce : CacheEntry).

Let requestNode := nodeFromTransformerRequest req.
Let tid := node_id (nodeFromTransformerRequest req).
Let aids := asset_id <$> assets ce.
Let core := tid :: aids.

Lemma anchored_safe r0 g p ty cs q :
  anchored req ce r0 g → p ∈ core → p ≠ tid ∨ ty ≠ Some produces →
  q ∈ core → rtc (edge_rel (targetEdges p ty cs (edges g))) r0 q.
Proof.
  intros (Hroot & Hwalk & [Hlow _]) Hp Hne Hq.
  assert (rtc (edge_rel (targetEdges p ty cs (edges g))) r0 tid) as Ht
    by (by eapply rtc_target_of_avoiding).
  apply elem_of_cons in Hq as [->|Hq]; [done|].
  eapply rtc_r; [exact Ht|]. exists (mkEdge tid q (Some produces)).
  split_and!; [|done..]. apply target_kept; [by apply Hlow|].
  intros (Hf & Hty & _). simpl in *. destruct Hne; congruence.
Qed.

Lemma anchored_step r0 g fromNode toNodes ty :
  anchored req ce r0 g → node_id fromNode ∈ core →
  node_id fromNode ≠ tid ∨ ty ≠ Some produces →
  let g' := this_after (replaceNodesConnectedTo fromNode toNodes ty g) in
  anchored req ce r0 g'
  ∧ linkedTo g' (node_id fromNode) ty (node_id <$> toNodes)
  ∧ ∀ q tq ids, q ∈ core → q ≠ node_id fromNode ∨ tq ≠ ty →
      linkedTo g q tq ids → linkedTo g' q tq ids.
Proof.
  intros Ha Hp Hne. cbn zeta. pose proof Ha as (Hroot & Hwalk & Hprod).
  assert (∀ q tq ids, q ∈ core → q ≠ node_id fromNode ∨ tq ≠ ty →
            linkedTo g q tq ids →
            linkedTo (this_after (replaceNodesConnectedTo fromNode toNodes ty g)) q tq ids)
    as Hkeep.
  { intros q tq ids Hq Hneq Hl.
    apply (linkedTo_preserved fromNode toNodes ty g r0 Hroot); [done..|].
    by apply (anchored_safe r0 g). }
  split_and!; [split_and!|..].
  - by apply replace_root.
  - by destruct (replace_avoiding fromNode toNodes ty g r0 Hroot core tid Hp Hwalk).
  - apply Hkeep; [by left| |done]. unfold tid in Hne.
    destruct Hne as [Hne|Hne]; [left|right]; congruence.
  - apply (linkedTo_established fromNode toNodes ty g r0 Hroot).
    by apply (anchored_safe r0 g).
  - done.
Qed.

(** The loop over the assets gives each asset its dependencies and keeps
    what was linked before. *)
Lemma connectDependencies_links r0 (todo : list Asset) g acc :
  anchored req ce r0 g → (∀ a, a ∈ todo → asset_id a ∈ aids) → NoDup (asset_id <$> todo) →
  let g' := (fold_left connectDependencies todo (g, acc)).1 in
  anchored req ce r0 g'
  ∧ (∀ q tq ids, q ∈ core → q ∉ asset_id <$> todo ∨ tq ≠ None →
       linkedTo g q tq ids → linkedTo g' q tq ids)
  ∧ (∀ a, a ∈ todo → linkedTo g' (asset_id a) None (dep_id <$> dependencies a)).
Proof.
  revert g acc. induction todo as [|a todo IH]; intros g acc Ha Hin Hnd; cbn zeta.
  - split_and!; [done|done|]. by intros a ?%elem_of_nil.
  - rewrite fmap_cons in Hnd. apply NoDup_cons in Hnd as [Ha_notin Hnd].
    cbn [fold_left]. unfold connectDependencies at 2. cbn [fst snd].
    set (g1 := this_after (replaceNodesConnectedTo (nodeFromAsset a)
                             (nodeFromDep <$> dependencies a) None g)).
    destruct (anchored_step r0 g (nodeFromAsset a) (nodeFromDep <$> dependencies a) None Ha)
      as (Ha1 & Hnew & Hkeep1).
    { right. apply Hin. by left. }
    { by right. }
    fold g1 in Ha1, Hnew, Hkeep1. rewrite fmap_node_id_deps in Hnew.
    cbn [node_id nodeFromAsset] in *.
    destruct (IH g1 (acc ++ getDepNodesFromGraph
                       (added (replaceNodesConnectedTo (nodeFromAsset a)
                                 (nodeFromDep <$> dependencies a) None g))) Ha1)
      as (Ha2 & Hkeep2 & Hall2); [|done|].
    { intros a' Ha'. apply Hin. by right. }
    split_and!; [done| |].
    + intros q tq ids Hq Hne Hl. apply Hkeep2; [done| |].
      * destruct Hne as [Hne|Hne]; [left|by right]. set_solver.
      * apply Hkeep1; [done| |done]. destruct Hne as [Hne|Hne]; [left|by right]. set_solver.
    + intros a' [->|Ha']%elem_of_cons; [|by apply Hall2].
      apply Hkeep2; [|by left|done]. right. apply Hin. by left.
Qed.

Lemma resolveTransformerRequest_unfold g :
  resolveTransformerRequest req ce g =
  let gA := this_after (replaceNodesConnectedTo requestNode (nodeFromAsset <$> assets ce)
                          (Some produces) (afterDelete req g)) in
  let gB := this_after (replaceNodesConnectedTo requestNode
                          [nodeFromFile (mkFile (req_filePath req))]
                          (Some invalidated_by_change_to) gA) in
  let st := fold_left connectDependencies (assets ce) (gB, []) in
  (registerIncomplete st.2 st.1, mkFileUpdates st.2).
Proof. reflexivity. Qed.

Lemma resolveTransformerRequest_links g :
  NoDup aids → reachableAvoiding aids g tid = true →
  resolvedAs req ce (resolveTransformerRequest req ce g).1.
Proof.
  intros Hnd (r0 & Hroot & Hwalk%rtc_avoiding_cut)%reachableAvoiding_rtc.
  rewrite resolveTransformerRequest_unfold. cbn zeta.
  set (g0 := afterDelete req g).
  set (gA := this_after (replaceNodesConnectedTo requestNode
                           (nodeFromAsset <$> assets ce) (Some produces) g0)).
  set (gB := this_after (replaceNodesConnectedTo requestNode
                           [nodeFromFile (mkFile (req_filePath req))]
                           (Some invalidated_by_change_to) gA)).
  cbn [fst].
  (* the assets *)
  assert (anchored req ce r0 gA) as HaA.
  { assert (rootNodeId g0 = Some r0) as Hroot0 by done.
    assert (rtc (edge_rel (targetEdges tid (Some produces) (nodeFromAsset <$> assets ce)
                             (edges g0))) r0 tid) as Hs.
    { eapply rtc_target_of_avoiding; [|exact Hwalk]. by left. }
    split_and!.
    - by apply replace_root.
    - destruct (replace_avoiding requestNode (nodeFromAsset <$> assets ce) (Some produces)
                  g0 r0 Hroot0 core tid) as [? _]; [by left|done|done].
    - pose proof (linkedTo_established requestNode (nodeFromAsset <$> assets ce)
                    (Some produces) g0 r0 Hroot0 Hs) as Hl.
      by rewrite fmap_node_id_assets in Hl. }
  (* the file *)
  destruct (anchored_step r0 gA requestNode [nodeFromFile (mkFile (req_filePath req))]
              (Some invalidated_by_change_to) HaA) as (HaB & HfileB & _);
    [by left|by right|]. fold gB in HaB, HfileB.
  (* the dependencies *)
  destruct (connectDependencies_links r0 (assets ce) gB [] HaB) as (HaC & Hkeep & Hdeps);
    [by intros a ?%(list_elem_of_fmap_2 asset_id)|done|].
  destruct (registerIncomplete_frame
              (fold_left connectDependencies (assets ce) (gB, [])).2
              (fold_left connectDependencies (assets ce) (gB, [])).1)
    as (Hn & He & _ & _).
  assert (∀ q tq ids,
            linkedTo (fold_left connectDependencies (assets ce) (gB, [])).1 q tq ids →
            linkedTo (registerIncomplete
                        (fold_left connectDependencies (assets ce) (gB, [])).2
                        (fold_left connectDependencies (assets ce) (gB, [])).1) q tq ids)
    as Hreg.
  { intros q tq ids. unfold linkedTo, getNode. by rewrite Hn, He. }
  split_and!.
  - apply Hreg. by destruct HaC as (_ & _ & ?).
  - apply Hreg, Hkeep; [by left|by right|done].
  - intros a Ha. by apply Hreg, Hdeps.
Qed.



End Transform.

Lemma delete_absent {V} k (m : JSMap.t V) :
  JSMap.get k m = None → JSMap.delete k m = m.
Proof.
  unfold JSMap.delete. induction m as [|[k' v] m IH]; [done|].
  simpl. case_decide; [done|]. intros Hm.
  rewrite filter_cons_True by done. by rewrite IH.
Qed.

Section TransformOutcome.
Context `{!Externals}.

(** The loop over the assets collects every dependency node it inserts. *)
Lemma connectDependencies_new (todo : list Asset) g acc :
  let st := fold_left connectDependencies todo (g, acc) in
  (∀ n, n ∈ acc → n ∈ st.2)
  ∧ (∀ n, n ∈ st.2 →
       n ∈ acc ∨ ∃ a d, a ∈ todo ∧ d ∈ dependencies a ∧ n = nodeFromDep d)
  ∧ (∀ k n, getNode k st.1 = Some n →
       getNode k g = Some n ∨ (node_type n = dependency ∧ n ∈ st.2))
  ∧ (∀ k n, JSMap.get k (incompleteNodes st.1) = Some n →
       JSMap.get k (incompleteNodes g) = Some n)
  ∧ invalidNodes st.1 = invalidNodes g.
Proof.
  revert g acc. induction todo as [|a todo IH]; intros g acc; cbn zeta.
  - cbn [fold_left fst snd]. split_and!; auto.
  - cbn [fold_left]. unfold connectDependencies at 2. cbn [fst snd].
    set (r := replaceNodesConnectedTo (nodeFromAsset a) (nodeFromDep <$> dependencies a) None g).
    destruct (IH (this_after r) (acc ++ getDepNodesFromGraph (added r)))
      as (I1 & I2 & I3 & I4 & I5).
    assert (∀ n, n ∈ JSMap.values (nodes (added r)) →
              ∃ d, d ∈ dependencies a ∧ n = nodeFromDep d) as Hadded.
    { intros n. unfold r. rewrite replace_added. unfold JSMap.values.
      intros ([k n'] & -> & (Hin & _)%freshChildren_elem)%list_elem_of_fmap.
      apply list_elem_of_fmap in Hin as (d & -> & Hd). eauto. }
    split_and!.
    + intros n Hn. apply I1, elem_of_app. by left.
    + intros n [[Hn|Hn]%elem_of_app|(a' & d & Ha' & Hd & ->)]%I2.
      * by left.
      * right. unfold getDepNodesFromGraph in Hn.
        apply list_elem_of_filter in Hn as [_ (d & Hd & ->)%Hadded].
        exists a, d. split_and!; [by left|done..].
      * right. exists a', d. split_and!; [by right|done..].
    + intros k n [Hn|Hn]%I3; [|by right].
      apply (replace_nodes_from (nodeFromAsset a) (nodeFromDep <$> dependencies a) None g)
        in Hn as [Hn|(_ & Hin & _ & Hval)]; [by left|]. right.
      apply list_elem_of_fmap in Hin as (d & -> & Hd). split; [done|].
      apply I1, elem_of_app. right. unfold getDepNodesFromGraph.
      by apply list_elem_of_filter.
    + intros k n Hn%I4.
      by destruct (replace_sub (nodeFromAsset a) (nodeFromDep <$> dependencies a) None g)
        as (_ & _ & S3); apply S3.
    + transitivity (invalidNodes (this_after r)); [exact I5 | apply replace_frame].
Qed.



Lemma connectDependencies_nodes_from (todo : list Asset) g acc k n :
  getNode k (fold_left connectDependencies todo (g, acc)).1 = Some n →
  getNode k g = Some n
  ∨ (node_id n = k ∧ ∃ a d, a ∈ todo ∧ d ∈ dependencies a ∧ n = nodeFromDep d).
Proof.
  revert g acc. induction todo as [|a todo IH]; intros g acc; [by left|].
  cbn [fold_left]. unfold connectDependencies at 2. cbn [fst snd]. intros Hn.
  apply IH in Hn as [Hn|(Hid & a' & d & Ha' & Hd & ->)].
  - apply replace_nodes_from in Hn as [Hn|(_ & Hin & Hid & _)]; [by left|].
    right. split; [done|]. apply list_elem_of_fmap in Hin as (d & -> & Hd).
    exists a, d. split_and!; [by left|done|done].
  - right. split; [done|]. exists a', d. split_and!; [by right|done|done].
Qed.

(** Where the nodes of the graph come from once a transformer request has
    been resolved. *)
Lemma resolveTransformerRequest_nodes_from req ce g k n :
  getNode k (resolveTransformerRequest req ce g).1 = Some n →
  getNode k g = Some n
  ∨ (node_id n = k
     ∧ ((∃ a, a ∈ assets ce ∧ n = nodeFromAsset a)
        ∨ n = nodeFromFile (mkFile (req_filePath req))
        ∨ ∃ a d, a ∈ assets ce ∧ d ∈ dependencies a ∧ n = nodeFromDep d)).
Proof.
  rewrite resolveTransformerRequest_unfold. cbn zeta. cbn [fst].
  unfold getNode at 1. destruct (registerIncomplete_frame
    (fold_left connectDependencies (assets ce)
       (this_after (replaceNodesConnectedTo (nodeFromTransformerRequest req)
          [nodeFromFile (mkFile (req_filePath req))] (Some invalidated_by_change_to)
          (this_after (replaceNodesConnectedTo (nodeFromTransformerRequest req)
             (nodeFromAsset <$> assets ce) (Some produces) (afterDelete req g)))), [])).2
    (fold_left connectDependencies (assets ce)
       (this_after (replaceNodesConnectedTo (nodeFromTransformerRequest req)
          [nodeFromFile (mkFile (req_filePath req))] (Some invalidated_by_change_to)
          (this_after (replaceNodesConnectedTo (nodeFromTransformerRequest req)
             (nodeFromAsset <$> assets ce) (Some produces) (afterDelete req g)))), [])).1)
    as (-> & _).
  intros Hn. apply connectDependencies_nodes_from in Hn as [Hn|(Hid & a & d & Ha & Hd & ->)].
  - apply replace_nodes_from in Hn as [Hn|(_ & Hin & Hid & _)].
    + apply replace_nodes_from in Hn as [Hn|(_ & Hin & Hid & _)]; [by left|].
      right. split; [done|]. left. apply list_elem_of_fmap in Hin as (a & -> & Ha).
      by exists a.
    + right. split; [done|]. right. left. by apply list_elem_of_singleton in Hin.
  - right. split; [done|]. right. right. by exists a, d.
Qed.

End TransformOutcome.

(** ** The nodes a resolved transformer request is connected to *)

Section TransformNodes.
Context `{!Externals}.
Variables (req : TransformerRequest) (ce : CacheEntry).

Let tid := node_id (nodeFromTransformerRequest req).
Let aids := asset_id <$> assets ce.
Let core := tid :: aids.





End TransformNodes.

Section TransformProperties.
Context `{!Externals}.



End TransformProperties.

(** * Further properties *)

(** ** Sets and maps built from arrays *)

Lemma JSSet_add_NoDup x (s : JSSet.t) : NoDup s → NoDup (JSSet.add x s).
Proof.
  intros Hs. unfold JSSet.add. case_decide as Hin; [done|].
  apply NoDup_app. split_and!; [done| |apply NoDup_singleton].
  intros y Hy ->%list_elem_of_singleton. done.
Qed.

Lemma JSSet_add_elem x y (s : JSSet.t) : y ∈ JSSet.add x s ↔ y = x ∨ y ∈ s.
Proof.
  unfold JSSet.add. case_decide as Hin.
  - split; [by right|]. by intros [->|?].
  - rewrite elem_of_app, list_elem_of_singleton. tauto.
Qed.

Lemma JSSet_add_idem x (s : JSSet.t) : JSSet.add x (JSSet.add x s) = JSSet.add x s.
Proof.
  unfold JSSet.add at 1. rewrite decide_True; [done|].
  apply JSSet_add_elem. by left.
Qed.

Lemma JSSet_fold_fresh (xs s : list string) :
  NoDup (s ++ xs) → fold_left (λ s x, JSSet.add x s) xs s = s ++ xs.
Proof.
  revert s. induction xs as [|x xs IH]; intros s Hnd; simpl.
  - by rewrite app_nil_r.
  - assert (x ∉ s) as Hx.
    { apply NoDup_app in Hnd as (_ & Hdis & _). intros Hin.
      apply (Hdis x Hin). by left. }
    unfold JSSet.add at 2. rewrite decide_False by done.
    rewrite IH; [by rewrite <- app_assoc|]. by rewrite <- app_assoc.
Qed.

Lemma JSSet_fold_NoDup (xs s : list string) :
  NoDup s → NoDup (fold_left (λ s x, JSSet.add x s) xs s).
Proof.
  revert s. induction xs as [|x xs IH]; intros s Hs; simpl; [done|].
  apply IH. by apply JSSet_add_NoDup.
Qed.

Lemma get_None_keys {V} k (m : JSMap.t V) : JSMap.get k m = None ↔ k ∉ JSMap.keys m.
Proof.
  unfold JSMap.keys. induction m as [|[k' v'] m IH]; simpl.
  - split; [intros _; apply not_elem_of_nil | done].
  - rewrite not_elem_of_cons. case_decide as Hk; simpl.
    + split; [done|]. intros [Hne _]. by destruct Hne.
    + rewrite IH. split; [by intros ?; split | by intros [_ ?]].
Qed.

Lemma keys_set {V} k (v : V) (m : JSMap.t V) :
  JSMap.keys (JSMap.set k v m) =
  if decide (k ∈ JSMap.keys m) then JSMap.keys m else JSMap.keys m ++ [k].
Proof.
  unfold JSMap.keys. induction m as [|[k' v'] m IH]; [done|].
  cbn [JSMap.set]. destruct (decide (k' = k)) as [->|Hne]; rewrite !fmap_cons; cbn [fst].
  - rewrite decide_True; [done|]. by left.
  - rewrite IH. destruct (decide (k ∈ m.*1)) as [Hin|Hnot].
    + rewrite decide_True; [done|]. by right.
    + rewrite decide_False; [done|]. rewrite not_elem_of_cons. by split.
Qed.

Lemma set_same {V} k (v : V) (m : JSMap.t V) :
  JSMap.get k m = Some v → JSMap.set k v m = m.
Proof.
  induction m as [|[k' v'] m IH]; simpl; [done|].
  destruct (decide (k' = k)) as [->|Hne]; [by intros [= ->]|].
  intros Hget. by rewrite IH.
Qed.

Lemma set_set {V} k (v v' : V) (m : JSMap.t V) :
  JSMap.set k v (JSMap.set k v' m) = JSMap.set k v m.
Proof.
  induction m as [|[k0 v0] m IH]; simpl.
  - by rewrite decide_True.
  - destruct (decide (k0 = k)) as [->|Hne]; simpl.
    + by rewrite decide_True.
    + rewrite decide_False by done. by rewrite IH.
Qed.

Lemma JSMap_fold_fresh {V} (kvs m : list (string * V)) :
  NoDup (JSMap.keys (m ++ kvs)) →
  fold_left (λ m kv, JSMap.set kv.1 kv.2 m) kvs m = m ++ kvs.
Proof.
  revert m. induction kvs as [|[k v] kvs IH]; intros m Hnd; simpl.
  - by rewrite app_nil_r.
  - assert (JSMap.get k m = None) as Hk.
    { apply get_None_keys. unfold JSMap.keys in *. rewrite fmap_app in Hnd.
      apply NoDup_app in Hnd as (_ & Hdis & _). intros Hin.
      apply (Hdis k Hin). simpl. by left. }
    rewrite (set_absent _ _ _ Hk).
    rewrite IH; [by rewrite <- app_assoc|]. by rewrite <- app_assoc.
Qed.

Lemma get_fold_set {V} k (kvs m : list (string * V)) :
  JSMap.get k (fold_left (λ m kv, JSMap.set kv.1 kv.2 m) kvs m) =
  match last (filter (λ kv, kv.1 = k) kvs) with
  | Some kv => Some kv.2
  | None => JSMap.get k m
  end.
Proof.
  revert m. induction kvs as [|[k0 v0] kvs IH]; intros m; simpl; [done|].
  rewrite IH, filter_cons. simpl. rewrite get_set.
  destruct (decide (k0 = k)) as [->|Hne].
  - rewrite last_cons. by destruct (last _).
  - done.
Qed.

Lemma JSSet_fold_elem (xs s : list string) f :
  f ∈ fold_left (λ s x, JSSet.add x s) xs s ↔ f ∈ s ∨ f ∈ xs.
Proof.
  revert s. induction xs as [|x xs IH]; intros s; simpl.
  - rewrite elem_of_nil. tauto.
  - rewrite IH, JSSet_add_elem, elem_of_cons. tauto.
Qed.

Lemma keys_set_NoDup {V} k (v : V) (m : JSMap.t V) :
  NoDup (JSMap.keys m) → NoDup (JSMap.keys (JSMap.set k v m)).
Proof.
  intros Hm. rewrite keys_set. case_decide as Hin; [done|].
  apply NoDup_app. split_and!; [done| |apply NoDup_singleton].
  intros y Hy ->%list_elem_of_singleton. done.
Qed.

Lemma JSMap_fold_NoDup {V} (kvs m : list (string * V)) :
  NoDup (JSMap.keys m) →
  NoDup (JSMap.keys (fold_left (λ m kv, JSMap.set kv.1 kv.2 m) kvs m)).
Proof.
  revert m. induction kvs as [|kv kvs IH]; intros m Hm; simpl; [done|].
  apply IH. by apply keys_set_NoDup.
Qed.

(** ** [Config]: what survives serialisation *)

(** X1: rebuilding a config from what [serialize] returns gives back the
    same search path, environment, options, resolved path, included files
    (in order), watch glob and dev-dep versions; the result hash and the
    cached package are lost, and a result that is falsy ([undefined],
    [false], [0], the empty string) comes back as [null].  [includedFiles]
    being a [Set] and [devDeps] a [Map], neither holds an element or a key
    twice. *)
Theorem Config_serialize_new (c : Config.t) :
  NoDup (Config.includedFiles c) →
  NoDup (JSMap.keys (Config.devDeps c)) →
  Config.new (Config.serialize c) =
    Config.mk (Config.searchPath c) (Config.env c) (Config.options c)
              (Config.resolvedPath c)
              (if truthy (Config.result c) then Config.result c else JSNull)
              None (Config.includedFiles c) (Config.watchGlob c) (Config.devDeps c) None
  ∧ (truthy (Config.result c) = true ∨ Config.result c = JSNull →
     Config.resultHash c = None → Config.pkg c = None →
     Config.new (Config.serialize c) = c)
  ∧ (truthy (Config.result c) = false →
     Config.result (Config.new (Config.serialize c)) = JSNull).
Proof.
  intros Hset Hmap.
  assert (Config.new (Config.serialize c) =
    Config.mk (Config.searchPath c) (Config.env c) (Config.options c)
              (Config.resolvedPath c)
              (if truthy (Config.result c) then Config.result c else JSNull)
              None (Config.includedFiles c) (Config.watchGlob c) (Config.devDeps c) None)
    as Heq.
  { unfold Config.new, Config.serialize, JSSet.from, JSMap_from. cbn.
    rewrite JSSet_fold_fresh by done. rewrite JSMap_fold_fresh by done. done. }
  split_and!; [done| |].
  - intros Hres Hhash Hpkg. rewrite Heq. destruct c as [sp en op rp res rh inc wg dd pk].
    cbn in *. subst rh pk. f_equal.
    destruct Hres as [->| ->]; done.
  - intros Hfalsy. rewrite Heq. cbn. by rewrite Hfalsy.
Qed.

(** X2: the constructor and every mutator keep [includedFiles] free of
    repetitions and [devDeps] free of repeated keys, whatever the arrays
    handed to the constructor hold. *)
Theorem Config_collections (o : Config.Opts) :
  (NoDup (Config.includedFiles (Config.new o))
   ∧ NoDup (JSMap.keys (Config.devDeps (Config.new o)))
   ∧ ∀ f, f ∈ Config.includedFiles (Config.new o) ↔ f ∈ default [] (Config.o_includedFiles o))
  ∧ ∀ c, NoDup (Config.includedFiles c) → NoDup (JSMap.keys (Config.devDeps c)) →
      (∀ f, NoDup (Config.includedFiles (Config.addIncludedFile f c))
            ∧ NoDup (JSMap.keys (Config.devDeps (Config.addIncludedFile f c))))
      ∧ (∀ n v, NoDup (Config.includedFiles (Config.setDevDep n v c))
                ∧ NoDup (JSMap.keys (Config.devDeps (Config.setDevDep n v c)))).
Proof.
  split.
  - unfold Config.new, JSSet.from, JSMap_from. cbn. split_and!.
    + apply JSSet_fold_NoDup. apply NoDup_nil_2.
    + apply JSMap_fold_NoDup. apply NoDup_nil_2.
    + intros f. rewrite JSSet_fold_elem, elem_of_nil. tauto.
  - intros c Hset Hmap. split.
    + intros f. cbn. split; [by apply JSSet_add_NoDup | done].
    + intros n v. cbn. split; [done|]. by apply keys_set_NoDup.
Qed.

(** ** [Config]: dev-dep versions *)

(** X3: [getDevDepVersion] reads back what [setDevDep] recorded last for
    the name, other names being untouched; a package recorded without a
    version reads back as [undefined], like one never recorded; and of the
    pairs handed to the constructor the last one for a name wins. *)
Theorem Config_devDeps :
  (∀ n v c, Config.getDevDepVersion n (Config.setDevDep n v c) = v)
  ∧ (∀ n n' v c, n ≠ n' →
       Config.getDevDepVersion n' (Config.setDevDep n v c) = Config.getDevDepVersion n' c)
  ∧ (∀ n c, JSMap.get n (Config.devDeps c) = None →
       Config.getDevDepVersion n c = Config.getDevDepVersion n (Config.setDevDep n None c))
  ∧ (∀ o n, Config.getDevDepVersion n (Config.new o) =
       match last (filter (λ kv, kv.1 = n) (default [] (Config.o_devDeps o))) with
       | Some kv => kv.2
       | None => None
       end).
Proof.
  split_and!.
  - intros n v c. unfold Config.getDevDepVersion. cbn. by rewrite get_set_eq.
  - intros n n' v c Hne. unfold Config.getDevDepVersion. cbn. by rewrite get_set_ne.
  - intros n c Hnone. unfold Config.getDevDepVersion. cbn. by rewrite get_set_eq, Hnone.
  - intros o n. unfold Config.getDevDepVersion, Config.new, JSMap_from. cbn.
    rewrite get_fold_set. by destruct (last _).
Qed.

(** ** [Config.getInvalidations] *)

Lemma getInvalidations_unfold (c : Config.t) :
  Config.getInvalidations c =
  (if truthyString (Config.watchGlob c)
   then [Config.mkInvalidation "add" (Config.watchGlob c)] else [])
  ++ flat_map (λ filePath, [Config.mkInvalidation "change" filePath;
                            Config.mkInvalidation "unlink" filePath])
              (Config.resolvedPath c :: (Some <$> Config.includedFiles c)).
Proof.
  unfold Config.getInvalidations. cbn zeta.
  generalize (Config.resolvedPath c :: (Some <$> Config.includedFiles c)).
  rewrite app_nil_l.
  generalize (if truthyString (Config.watchGlob c)
              then [Config.mkInvalidation "add" (Config.watchGlob c)] else []).
  intros acc l. revert acc. induction l as [|x l IH]; intros acc; simpl.
  - by rewrite app_nil_r.
  - rewrite IH. by rewrite <- !app_assoc.
Qed.

Lemma getInvalidations_elem (c : Config.t) i :
  i ∈ Config.getInvalidations c ↔
  (truthyString (Config.watchGlob c) = true
   ∧ i = Config.mkInvalidation "add" (Config.watchGlob c))
  ∨ ((Config.action i = "change" ∨ Config.action i = "unlink")
     ∧ (Config.pattern i = Config.resolvedPath c
        ∨ ∃ f, f ∈ Config.includedFiles c ∧ Config.pattern i = Some f)).
Proof.
  rewrite getInvalidations_unfold, elem_of_app, elem_of_flat_map. split.
  - intros [Hw|(p & Hp & Hi)].
    + left. destruct (truthyString _); [|by apply elem_of_nil in Hw].
      by apply list_elem_of_singleton in Hw.
    + right. apply elem_of_cons in Hp.
      assert (Config.pattern i = p ∧ (Config.action i = "change" ∨ Config.action i = "unlink"))
        as [Hpat Hact].
      { apply elem_of_cons in Hi as [->|Hi]; [by split; [|left]|].
        apply list_elem_of_singleton in Hi as ->. by split; [|right]. }
      split; [done|]. destruct Hp as [->|Hp]; [by left|].
      right. apply list_elem_of_fmap in Hp as (f & -> & Hf). by exists f.
  - intros [[Hw ->]|[Hact Hpat]].
    + left. rewrite Hw. by apply list_elem_of_singleton.
    + right. exists (Config.pattern i). split.
      * destruct Hpat as [->|(f & Hf & ->)]; [by left|].
        right. apply list_elem_of_fmap. by exists f.
      * destruct i as [a p]. cbn in *. destruct Hact as [->| ->]; [by left|].
        right. by left.
Qed.

(** X4: [getInvalidations] reports the watch glob, when it is a non-empty
    string, as one [add] invalidation, and then, for the resolved path and
    for every included file in turn, a [change] and an [unlink]
    invalidation: nothing else, and the resolved path even when it is
    [undefined]. *)
Theorem getInvalidations_spec (c : Config.t) :
  Config.getInvalidations c =
    (if truthyString (Config.watchGlob c)
     then [Config.mkInvalidation "add" (Config.watchGlob c)] else [])
    ++ flat_map (λ filePath, [Config.mkInvalidation "change" filePath;
                              Config.mkInvalidation "unlink" filePath])
                (Config.resolvedPath c :: (Some <$> Config.includedFiles c))
  ∧ length (Config.getInvalidations c) =
      (if truthyString (Config.watchGlob c) then 1 else 0)
      + 2 + 2 * length (Config.includedFiles c)
  ∧ (∀ i, i ∈ Config.getInvalidations c ↔
       (truthyString (Config.watchGlob c) = true
        ∧ i = Config.mkInvalidation "add" (Config.watchGlob c))
       ∨ ((Config.action i = "change" ∨ Config.action i = "unlink")
          ∧ (Config.pattern i = Config.resolvedPath c
             ∨ ∃ f, f ∈ Config.includedFiles c ∧ Config.pattern i = Some f)))
  ∧ (Config.mkInvalidation "change" None ∈ Config.getInvalidations c ↔
     Config.resolvedPath c = None).
Proof.
  split_and!; [apply getInvalidations_unfold| |apply getInvalidations_elem|].
  - rewrite getInvalidations_unfold, length_app.
    assert (∀ l : list (option string),
              length (flat_map (λ filePath, [Config.mkInvalidation "change" filePath;
                                             Config.mkInvalidation "unlink" filePath]) l)
              = 2 * length l) as Hlen.
    { induction l as [|x l IH]; [done|]. cbn [flat_map]. rewrite length_app, IH. simpl. lia. }
    rewrite Hlen. cbn [length]. rewrite length_fmap.
    destruct (truthyString _); simpl; lia.
  - rewrite getInvalidations_elem. cbn. split.
    + intros [[_ [=]]|[_ [Hp|(f & _ & [=])]]]. done.
    + intros Hp. right. split; [by left|by left].
Qed.

(** X5: including a file adds its [change] and [unlink] invalidations at
    the end of the list the first time, and nothing when the file is
    already included. *)
Theorem addIncludedFile_getInvalidations (f : FilePath) (c : Config.t) :
  Config.getInvalidations (Config.addIncludedFile f c) =
  Config.getInvalidations c
  ++ (if decide (f ∈ Config.includedFiles c) then []
      else [Config.mkInvalidation "change" (Some f);
            Config.mkInvalidation "unlink" (Some f)])
  ∧ Config.addIncludedFile f (Config.addIncludedFile f c) = Config.addIncludedFile f c.
Proof.
  split.
  - rewrite !getInvalidations_unfold. cbn [Config.addIncludedFile Config.watchGlob
      Config.resolvedPath Config.includedFiles]. unfold JSSet.add.
    repeat case_decide; try done; [by rewrite app_nil_r|].
    rewrite fmap_app. cbn [fmap list_fmap].
    rewrite app_comm_cons, flat_map_app, <- app_assoc. done.
  - unfold Config.addIncludedFile. cbn. by rewrite JSSet_add_idem.
Qed.

(** ** Resolving a config request *)

Lemma link_step e n g :
  let g' := if hasEdge e g then g else addEdge e (addNode n g) in
  incompleteNodes g' = incompleteNodes g
  ∧ invalidNodes g' = invalidNodes g
  ∧ rootNodeId g' = rootNodeId g
  ∧ (∀ e', e' ∈ edges g' ↔ e' ∈ edges g ∨ e' = e)
  ∧ (∀ k, getNode k g' =
          if hasEdge e g then getNode k g
          else if decide (node_id n = k) then Some n else getNode k g).
Proof.
  cbn zeta. unfold hasEdge. case_bool_decide as Hin.
  - split_and!; try done. intros e'. split; [by left|]. by intros [?| ->].
  - split_and!.
    + unfold addEdge. by destruct (hasEdge _ _).
    + unfold addEdge. by destruct (hasEdge _ _).
    + unfold addEdge. by destruct (hasEdge _ _).
    + intros e'. by rewrite addEdge_edges.
    + intros k. unfold addEdge. destruct (hasEdge _ _); unfold getNode; cbn;
        by rewrite get_set.
Qed.

Lemma getInvalidationEdgeType_cases a :
  (a ∈ ["change"; "add"; "unlink"] → ∃ ty, getInvalidationEdgeType a = inr ty)
  ∧ (a ∉ ["change"; "add"; "unlink"] →
     getInvalidationEdgeType a =
       inl (Error ("Unrecognized invalidation action " +:+ dquote +:+ a +:+ dquote))).
Proof.
  unfold getInvalidationEdgeType.
  split; intros Ha; repeat case_decide; eauto; exfalso; set_solver.
Qed.

Section MoreConfigRequests.
Context `{!Externals}.

Local Abbreviation linkNode i :=
  (if isGlob (pattern i) then nodeFromGlob (pattern i)
   else nodeFromFile (mkFile (pattern i))).

Local Abbreviation linkEdge cr i ty := (mkEdge (node_id cr) (pattern i) (Some ty)).

Local Abbreviation devDepEdge cr d :=
  (mkEdge (node_id cr) (node_id (nodeFromDevDepRequest d)) (Some configures)).

Lemma linkInvalidation_run cr i g :
  linkInvalidation cr i g =
  match getInvalidationEdgeType (action i) with
  | inl e => Throw e g
  | inr ty =>
      Ok tt (if hasEdge (linkEdge cr i ty) g then g
             else addEdge (linkEdge cr i ty) (addNode (linkNode i) g))
  end.
Proof.
  unfold linkInvalidation, bind, liftE.
  destruct (getInvalidationEdgeType (action i)) as [e|ty]; [done|].
  unfold ret, modify. by destruct (isGlob (pattern i)).
Qed.

Lemma linkNode_id i : node_id (linkNode i) = pattern i.
Proof. by destruct (isGlob (pattern i)). Qed.

(** The loop over the invalidations, all of them recognised. *)
Lemma linkInvalidations_ok cr invs g :
  (∀ i, i ∈ invs → action i ∈ ["change"; "add"; "unlink"]) →
  ∃ g', forEach invs (linkInvalidation cr) g = Ok tt g'
    ∧ incompleteNodes g' = incompleteNodes g
    ∧ invalidNodes g' = invalidNodes g
    ∧ rootNodeId g' = rootNodeId g
    ∧ (∀ e, e ∈ edges g' ↔
            e ∈ edges g
            ∨ ∃ i ty, i ∈ invs ∧ getInvalidationEdgeType (action i) = inr ty
                      ∧ e = linkEdge cr i ty)
    ∧ (∀ k n, getNode k g' = Some n →
              getNode k g = Some n ∨ ∃ i, i ∈ invs ∧ n = linkNode i ∧ k = pattern i)
    ∧ ((∀ e, e ∈ edges g → is_Some (getNode (edge_to e) g)) →
       ∀ e, e ∈ edges g' → is_Some (getNode (edge_to e) g')).
Proof.
  revert g. induction invs as [|i invs IH]; intros g Hrec.
  - exists g. split_and!; try done.
    + intros e. split; [by left|]. intros [?|(i & ty & Hi & _)]; [done|].
      by apply elem_of_nil in Hi.
    + by left.
  - cbn [forEach]. unfold bind. rewrite linkInvalidation_run.
    destruct (proj1 (getInvalidationEdgeType_cases (action i))) as [ty Hty];
      [apply Hrec; by left|].
    rewrite Hty.
    destruct (link_step (linkEdge cr i ty) (linkNode i) g) as (I1 & V1 & R1 & E1 & N1).
    set (g1 := if hasEdge _ g then g else _) in *.
    destruct (IH g1) as (g' & Hrun & I2 & V2 & R2 & E2 & N2 & C2).
    { intros j Hj. apply Hrec. by right. }
    exists g'. split_and!.
    + done.
    + by rewrite I2.
    + by rewrite V2.
    + by rewrite R2.
    + intros e. rewrite E2, E1. split.
      * intros [[?| ->]|(j & tj & Hj & Htj & ->)].
        -- by left.
        -- right. exists i, ty. split_and!; [by left|done|done].
        -- right. exists j, tj. split_and!; [by right|done|done].
      * intros [?|(j & tj & Hj & Htj & ->)]; [by left; left|].
        apply elem_of_cons in Hj as [->|Hj].
        -- left. right. congruence.
        -- right. by exists j, tj.
    + intros k n Hn. apply N2 in Hn as [Hn|(j & Hj & -> & ->)].
      * rewrite N1 in Hn. destruct (hasEdge _ g); [by left|].
        case_decide as Hk; [|by left]. right. exists i.
        rewrite linkNode_id in Hk. split_and!; [by left|congruence|done].
      * right. exists j. split_and!; [by right|done|done].
    + intros Hclosed. apply C2. intros e [He| ->]%E1.
      * rewrite N1. destruct (hasEdge _ g); [by apply Hclosed|].
        case_decide; [done|by apply Hclosed].
      * rewrite N1. cbn [edge_to]. unfold hasEdge. case_bool_decide as Hin.
        -- by apply (Hclosed _ Hin).
        -- rewrite decide_True; [done|apply linkNode_id].
Qed.

(** The loop over the invalidations stops at the first action it does not
    recognise. *)
Lemma linkInvalidations_throw cr pre i post g :
  (∀ j, j ∈ pre → action j ∈ ["change"; "add"; "unlink"]) →
  action i ∉ ["change"; "add"; "unlink"] →
  ∃ g1, forEach pre (linkInvalidation cr) g = Ok tt g1
    ∧ forEach (pre ++ i :: post) (linkInvalidation cr) g =
      Throw (Error ("Unrecognized invalidation action " +:+ dquote +:+ action i +:+ dquote)) g1.
Proof.
  intros Hpre Hi.
  destruct (linkInvalidations_ok cr pre g Hpre) as (g1 & Hrun & _).
  exists g1. split; [done|].
  rewrite forEach_app. unfold bind at 1. rewrite Hrun. cbn [forEach]. unfold bind.
  rewrite linkInvalidation_run.
  by rewrite (proj2 (getInvalidationEdgeType_cases (action i)) Hi).
Qed.

Lemma linkDevDepRequest_step cr d g :
  let g' := linkDevDepRequest cr d g in
  let n := nodeFromDevDepRequest d in
  nodes g' = JSMap.set (node_id n) n (nodes g)
  ∧ invalidNodes g' = invalidNodes g
  ∧ rootNodeId g' = rootNodeId g
  ∧ (∀ e, e ∈ edges g' ↔ e ∈ edges g ∨ e = devDepEdge cr d)
  ∧ incompleteNodes g' =
      if hasEdge (devDepEdge cr d) g then incompleteNodes g
      else JSMap.set (node_id n) n (incompleteNodes g).
Proof.
  cbn zeta. unfold linkDevDepRequest.
  change (hasEdge (devDepEdge cr d) (addNode (nodeFromDevDepRequest d) g))
    with (hasEdge (devDepEdge cr d) g).
  unfold hasEdge. case_bool_decide as Hin.
  - split_and!; try done. intros e. split; [by left|]. by intros [?| ->].
  - unfold addEdge, hasEdge. cbn [edges addNode with_nodes].
    rewrite bool_decide_eq_false_2 by done.
    split_and!; try done. intros e. cbn. rewrite elem_of_app, list_elem_of_singleton. done.
Qed.

Lemma linkDevDepRequests_other cr ds g k :
  (∀ d, d ∈ ds → node_id (nodeFromDevDepRequest d) ≠ k) →
  getNode k (fold_left (λ g r, linkDevDepRequest cr r g) ds g) = getNode k g.
Proof.
  revert g. induction ds as [|d ds IH]; intros g Hk; cbn [fold_left]; [done|].
  rewrite IH by (intros d' Hd'; apply Hk; by right).
  destruct (linkDevDepRequest_step cr d g) as (N & _).
  unfold getNode. rewrite N, get_set_ne; [done|]. apply Hk. by left.
Qed.

Lemma linkDevDepRequests_mono cr ds g k :
  is_Some (JSMap.get k (incompleteNodes g)) →
  is_Some (JSMap.get k (incompleteNodes (fold_left (λ g r, linkDevDepRequest cr r g) ds g))).
Proof.
  revert g. induction ds as [|d ds IH]; intros g Hk; cbn [fold_left]; [done|].
  apply IH. destruct (linkDevDepRequest_step cr d g) as (_ & _ & _ & _ & I).
  rewrite I. destruct (hasEdge _ g); [done|]. rewrite get_set. by case_decide.
Qed.

(** The loop over the dev-dep requests. *)
Lemma linkDevDepRequests_spec cr ds g :
  let g' := fold_left (λ g r, linkDevDepRequest cr r g) ds g in
  invalidNodes g' = invalidNodes g
  ∧ rootNodeId g' = rootNodeId g
  ∧ (∀ e, e ∈ edges g' ↔ e ∈ edges g ∨ ∃ d, d ∈ ds ∧ e = devDepEdge cr d)
  ∧ (∀ k n, getNode k g' = Some n →
            getNode k g = Some n
            ∨ ∃ d, d ∈ ds ∧ n = nodeFromDevDepRequest d ∧ k = node_id n)
  ∧ (∀ d, d ∈ ds →
       ∃ d', d' ∈ ds
             ∧ node_id (nodeFromDevDepRequest d') = node_id (nodeFromDevDepRequest d)
             ∧ getNode (node_id (nodeFromDevDepRequest d)) g' = Some (nodeFromDevDepRequest d'))
  ∧ (∀ k n, JSMap.get k (incompleteNodes g') = Some n →
            JSMap.get k (incompleteNodes g) = Some n
            ∨ ∃ d, d ∈ ds ∧ n = nodeFromDevDepRequest d ∧ k = node_id n
                   ∧ devDepEdge cr d ∉ edges g)
  ∧ (∀ d, d ∈ ds → devDepEdge cr d ∉ edges g →
       is_Some (JSMap.get (node_id (nodeFromDevDepRequest d)) (incompleteNodes g')))
  ∧ (∀ k, (∀ d, d ∈ ds → node_id (nodeFromDevDepRequest d) = k → devDepEdge cr d ∈ edges g) →
       JSMap.get k (incompleteNodes g') = JSMap.get k (incompleteNodes g)).
Proof.
  revert g. induction ds as [|d ds IH]; intros g; cbn zeta.
  - cbn [fold_left]. split_and!; try done.
    + intros e. split; [by left|]. intros [?|(d & Hd & _)]; [done|].
      by apply elem_of_nil in Hd.
    + by left.
    + intros d Hd. by apply elem_of_nil in Hd.
    + by left.
    + intros d Hd. by apply elem_of_nil in Hd.
  - cbn [fold_left].
    destruct (linkDevDepRequest_step cr d g) as (N1 & V1 & R1 & E1 & I1).
    pose proof (linkDevDepRequests_other cr ds (linkDevDepRequest cr d g)) as Hother.
    pose proof (linkDevDepRequests_mono cr ds (linkDevDepRequest cr d g)) as Hmono.
    destruct (IH (linkDevDepRequest cr d g)) as (V2 & R2 & E2 & N2 & S2 & P2 & Q2 & F2).
    set (g1 := linkDevDepRequest cr d g) in *.
    set (g' := fold_left _ ds g1) in *.
    split_and!.
    + by rewrite V2.
    + by rewrite R2.
    + intros e. rewrite E2, E1. split.
      * intros [[?| ->]|(d' & Hd' & ->)].
        -- by left.
        -- right. exists d. split; [by left|done].
        -- right. exists d'. split; [by right|done].
      * intros [?|(d' & Hd' & ->)]; [by left; left|].
        apply elem_of_cons in Hd' as [->|Hd']; [by left; right|].
        right. by exists d'.
    + intros k n Hn. apply N2 in Hn as [Hn|(d' & Hd' & -> & ->)].
      * unfold getNode in Hn. rewrite N1, get_set in Hn.
        case_decide as Hk; [|by left]. injection Hn as <-.
        right. exists d. split_and!; [by left|done|done].
      * right. exists d'. split_and!; [by right|done|done].
    + intros d0 Hd0.
      destruct (decide (node_id (nodeFromDevDepRequest d0)
                        ∈ (λ d', node_id (nodeFromDevDepRequest d')) <$> ds)) as [Hin|Hnot].
      * apply list_elem_of_fmap in Hin as (d' & Heq & Hd').
        destruct (S2 d' Hd') as (d'' & Hd'' & Hid & Hget).
        exists d''. split_and!; [by right|congruence|]. by rewrite Heq.
      * assert (d0 = d) as ->.
        { apply elem_of_cons in Hd0 as [?|Hd0]; [done|]. destruct Hnot.
          apply list_elem_of_fmap. by exists d0. }
        exists d. split_and!; [by left|done|].
        rewrite Hother.
        -- unfold getNode. rewrite N1. apply get_set_eq.
        -- intros d' Hd' Heq. apply Hnot. apply list_elem_of_fmap. by exists d'.
    + intros k n Hn. apply P2 in Hn as [Hn|(d' & Hd' & -> & -> & Hnew)].
      * rewrite I1 in Hn. unfold hasEdge in Hn. case_bool_decide as Hin; [by left|].
        rewrite get_set in Hn. case_decide as Hk; [|by left]. injection Hn as <-.
        right. exists d. split_and!; [by left|done|done|done].
      * right. exists d'. split_and!; [by right|done|done|].
        intros Hin. apply Hnew. apply E1. by left.
    + intros d0 Hd0 Hnew.
      assert (is_Some (JSMap.get (node_id (nodeFromDevDepRequest d)) (incompleteNodes g1))
              ∨ devDepEdge cr d ∈ edges g) as Hd.
      { rewrite I1. unfold hasEdge. case_bool_decide as Hin; [by right|].
        left. by rewrite get_set_eq. }
      apply elem_of_cons in Hd0 as [->|Hd0].
      * destruct Hd as [Hd|Hd]; [by apply Hmono|done].
      * destruct (decide (devDepEdge cr d0 ∈ edges g1)) as [Hin|Hnot]; [|by apply Q2].
        apply E1 in Hin as [Hin|Heq]; [done|].
        assert (node_id (nodeFromDevDepRequest d0) = node_id (nodeFromDevDepRequest d))
          as Hid by congruence.
        rewrite Hid. destruct Hd as [Hd|Hd]; [by apply Hmono|].
        destruct Hnew. by rewrite Heq.
    + intros k Hk. rewrite F2.
      * rewrite I1. unfold hasEdge. case_bool_decide as Hin; [done|].
        rewrite get_set_ne; [done|]. intros Heq. apply Hin. apply Hk; [by left|done].
      * intros d0 Hd0 Heq. apply E1. left. apply Hk; [by right|done].
Qed.

Lemma first_such {A} (P : A → Prop) `{∀ x, Decision (P x)} (l : list A) :
  Exists P l → ∃ pre x post, l = pre ++ x :: post ∧ (∀ y, y ∈ pre → ¬ P y) ∧ P x.
Proof.
  induction l as [|a l IH]; intros Hex; [by apply Exists_nil in Hex|].
  destruct (decide (P a)) as [Ha|Ha].
  - exists [], a, l. split_and!; [done| |done]. intros y Hy. by apply elem_of_nil in Hy.
  - apply Exists_cons in Hex as [?|Hex]; [done|].
    destruct (IH Hex) as (pre & x & post & -> & Hpre & Hx).
    exists (a :: pre), x, post. split_and!; [done| |done].
    intros y [->|Hy]%elem_of_cons; [done|by apply Hpre].
Qed.

Lemma getInvalidationEdgeType_not_configures a ty :
  getInvalidationEdgeType a = inr ty → ty ≠ configures.
Proof. unfold getInvalidationEdgeType. repeat case_decide; by intros [= <-]. Qed.

Lemma resolveConfigRequest_ok result cr g :
  (∀ i, i ∈ default [] (invalidations result) → action i ∈ ["change"; "add"; "unlink"]) →
  ∃ g', resolveConfigRequest result cr g
          = Ok (nodeFromDevDepRequest <$> devDepRequests result) g'
    ∧ rootNodeId g' = rootNodeId g
    ∧ invalidNodes g' = JSMap.delete (node_id cr) (invalidNodes g)
    ∧ (∀ e, e ∈ edges g' ↔
            e ∈ edges g
            ∨ e = mkEdge (node_id cr) (node_id (nodeFromConfig (config result))) None
            ∨ (∃ i ty, i ∈ default [] (invalidations result)
                       ∧ getInvalidationEdgeType (action i) = inr ty
                       ∧ e = linkEdge cr i ty)
            ∨ ∃ d, d ∈ devDepRequests result ∧ e = devDepEdge cr d)
    ∧ (∀ d, d ∈ devDepRequests result →
         ∃ d', d' ∈ devDepRequests result
               ∧ node_id (nodeFromDevDepRequest d') = node_id (nodeFromDevDepRequest d)
               ∧ getNode (node_id (nodeFromDevDepRequest d)) g'
                 = Some (nodeFromDevDepRequest d'))
    ∧ (∀ d, d ∈ devDepRequests result → devDepEdge cr d ∉ edges g →
         is_Some (JSMap.get (node_id (nodeFromDevDepRequest d)) (incompleteNodes g')))
    ∧ (∀ k n, JSMap.get k (incompleteNodes g') = Some n →
         (k ≠ node_id cr ∧ JSMap.get k (incompleteNodes g) = Some n)
         ∨ ∃ d, d ∈ devDepRequests result ∧ n = nodeFromDevDepRequest d
                ∧ k = node_id n ∧ devDepEdge cr d ∉ edges g)
    ∧ ((∀ e, e ∈ edges g → is_Some (getNode (edge_to e) g)) →
       ∀ e, e ∈ edges g' → is_Some (getNode (edge_to e) g')).
Proof.
  intros Hrec. unfold resolveConfigRequest, bind, modify, ret.
  set (g0 := with_invalidNodes _ (with_incompleteNodes _ g)).
  destruct (link_step (mkEdge (node_id cr) (node_id (nodeFromConfig (config result))) None)
              (nodeFromConfig (config result)) g0) as (I1 & V1 & R1 & E1 & N1).
  set (g1 := if hasEdge _ g0 then g0 else _) in *.
  destruct (linkInvalidations_ok cr _ g1 Hrec) as (g2 & Hrun & I2 & V2 & R2 & E2 & N2 & C2).
  rewrite Hrun.
  destruct (linkDevDepRequests_spec cr (devDepRequests result) g2)
    as (V3 & R3 & E3 & N3 & S3 & P3 & Q3 & F3).
  pose proof (grows_linkDevDepRequests cr (devDepRequests result) g2) as [_ G3].
  set (g3 := fold_left _ (devDepRequests result) g2) in *.
  assert (∀ d, devDepEdge cr d ∈ edges g2 → devDepEdge cr d ∈ edges g) as Hdev.
  { intros d [[Hd|Hd]%E1|(i & ty & _ & Hty & Hd)]%E2; [done|done|].
    apply getInvalidationEdgeType_not_configures in Hty. congruence. }
  eexists. split; [reflexivity|]. split_and!.
  - by rewrite R3, R2, R1.
  - by rewrite V3, V2, V1.
  - intros e. rewrite E3, E2, E1. change (edges g0) with (edges g). tauto.
  - done.
  - intros d Hd Hnew. apply Q3; [done|]. intros Hin. by apply Hnew, Hdev.
  - intros k n Hn. apply P3 in Hn as [Hn|(d & Hd & -> & -> & Hnew)].
    + left. rewrite I2, I1 in Hn. cbn in Hn. rewrite get_delete in Hn.
      by case_decide.
    + right. exists d. split_and!; try done. intros Hin. apply Hnew.
      apply E2. left. apply E1. by left.
  - intros Hclosed e [He|(d & Hd & ->)]%E3.
    + apply G3. revert e He. apply C2. intros e' [He'| ->]%E1.
      * rewrite N1. destruct (hasEdge _ g0); [by apply Hclosed|].
        case_decide; [done|by apply Hclosed].
      * rewrite N1. cbn [edge_to]. unfold hasEdge. case_bool_decide as Hin.
        -- by apply (Hclosed _ Hin).
        -- by rewrite decide_True.
    + cbn [edge_to]. destruct (S3 d Hd) as (d' & _ & _ & ->). done.
Qed.

Lemma resolveConfigRequest_throw result cr g pre i post :
  default [] (invalidations result) = pre ++ i :: post →
  (∀ j, j ∈ pre → action j ∈ ["change"; "add"; "unlink"]) →
  action i ∉ ["change"; "add"; "unlink"] →
  ∃ g', resolveConfigRequest result cr g =
          Throw (Error ("Unrecognized invalidation action " +:+ dquote +:+ action i
                        +:+ dquote)) g'
    ∧ incompleteNodes g' = JSMap.delete (node_id cr) (incompleteNodes g)
    ∧ invalidNodes g' = JSMap.delete (node_id cr) (invalidNodes g)
    ∧ hasEdge (mkEdge (node_id cr) (node_id (nodeFromConfig (config result))) None) g' = true
    ∧ (∀ j ty, j ∈ pre → getInvalidationEdgeType (action j) = inr ty →
         hasEdge (linkEdge cr j ty) g' = true)
    ∧ (∀ d, devDepEdge cr d ∈ edges g' → devDepEdge cr d ∈ edges g).
Proof.
  intros Hsplit Hpre Hi. unfold resolveConfigRequest, bind, modify, ret.
  set (g0 := with_invalidNodes _ (with_incompleteNodes _ g)).
  destruct (link_step (mkEdge (node_id cr) (node_id (nodeFromConfig (config result))) None)
              (nodeFromConfig (config result)) g0) as (I1 & V1 & R1 & E1 & N1).
  set (g1 := if hasEdge _ g0 then g0 else _) in *.
  rewrite Hsplit.
  destruct (linkInvalidations_throw cr pre i post g1 Hpre Hi) as (g2 & Hrun & ->).
  destruct (linkInvalidations_ok cr pre g1 Hpre) as (g2' & Hrun' & I2 & V2 & R2 & E2 & _).
  assert (g2' = g2) as -> by congruence.
  eexists. split; [reflexivity|]. unfold hasEdge. split_and!.
  - by rewrite I2, I1.
  - by rewrite V2, V1.
  - apply bool_decide_eq_true. apply E2. left. apply E1. by right.
  - intros j ty Hj Hty. apply bool_decide_eq_true. apply E2. right. by exists j, ty.
  - intros d [[Hd|Hd]%E1|(j & ty & _ & Hty & Hd)]%E2; [done|done|].
    apply getInvalidationEdgeType_not_configures in Hty. congruence.
Qed.

(** X6: given invalidations whose patterns are strings (those of a config
    without resolved path are not), [resolveConfigRequest] throws exactly
    when one of the invalidations has an action other than [change], [add]
    and [unlink]; the error names the first such action.  The request has
    by then left both indices and is linked to the config node and to the
    invalidations before the offending one, and no dev-dep request has
    been linked. *)
Theorem resolveConfigRequest_failure (result : ConfigResult) (cr : Node) (g : AssetGraph) :
  (throws (resolveConfigRequest result cr g) = true ↔
   ∃ i, i ∈ default [] (invalidations result) ∧ action i ∉ ["change"; "add"; "unlink"])
  ∧ ∀ pre i post,
      default [] (invalidations result) = pre ++ i :: post →
      (∀ j, j ∈ pre → action j ∈ ["change"; "add"; "unlink"]) →
      action i ∉ ["change"; "add"; "unlink"] →
      ∃ g', resolveConfigRequest result cr g =
              Throw (Error ("Unrecognized invalidation action " +:+ dquote +:+ action i
                            +:+ dquote)) g'
        ∧ incompleteNodes g' = JSMap.delete (node_id cr) (incompleteNodes g)
        ∧ invalidNodes g' = JSMap.delete (node_id cr) (invalidNodes g)
        ∧ hasEdge (mkEdge (node_id cr) (node_id (nodeFromConfig (config result))) None) g'
          = true
        ∧ (∀ j ty, j ∈ pre → getInvalidationEdgeType (action j) = inr ty →
             hasEdge (mkEdge (node_id cr) (pattern j) (Some ty)) g' = true)
        ∧ (∀ d, mkEdge (node_id cr) (node_id (nodeFromDevDepRequest d)) (Some configures)
                  ∈ edges g' →
                mkEdge (node_id cr) (node_id (nodeFromDevDepRequest d)) (Some configures)
                  ∈ edges g).
Proof.
  split; [|apply resolveConfigRequest_throw].
  split.
  - intros Hthrows.
    destruct (decide (Exists (λ i, action i ∉ ["change"; "add"; "unlink"])
                             (default [] (invalidations result)))) as [Hex|Hall].
    + apply Exists_exists in Hex as (i & Hi & Hbad). by exists i.
    + destruct (resolveConfigRequest_ok result cr g) as (g' & Hrun & _).
      * intros i Hi. destruct (decide (action i ∈ ["change"; "add"; "unlink"])); [done|].
        destruct Hall. apply Exists_exists. by exists i.
      * by rewrite Hrun in Hthrows.
  - intros (i & Hi & Hbad).
    destruct (first_such (λ i, action i ∉ ["change"; "add"; "unlink"])
                (default [] (invalidations result))) as (pre & x & post & Hsplit & Hpre & Hx).
    { apply Exists_exists. by exists i. }
    destruct (resolveConfigRequest_throw result cr g pre x post Hsplit) as (g' & -> & _);
      [|done|done].
    intros j Hj. destruct (decide (action j ∈ ["change"; "add"; "unlink"])); [done|].
    by destruct (Hpre j Hj).
Qed.

(** X7: when every invalidation has a string for its pattern (those of a
    config without resolved path have not) and a recognised action,
    [resolveConfigRequest] returns the nodes of the dev-dep requests, in
    order.  It removes no edge and adds only the edge to the config node,
    one edge per invalidation (of the type of its action, to the node
    stored under its pattern) and one [configures] edge per dev-dep
    request; every dev-dep request has its node in the graph; the request
    leaves [invalidNodes] and nothing enters it; what is in
    [incompleteNodes] afterwards was there before (the request apart) or is
    a dev-dep request linked for the first time, and each of those is
    there; and if every edge led to a node before, every edge does
    after. *)
Theorem resolveConfigRequest_returns (result : ConfigResult) (cr : Node) (g : AssetGraph) :
  (∀ i, i ∈ default [] (invalidations result) → action i ∈ ["change"; "add"; "unlink"]) →
  ∃ g', resolveConfigRequest result cr g
          = Ok (nodeFromDevDepRequest <$> devDepRequests result) g'
    ∧ rootNodeId g' = rootNodeId g
    ∧ invalidNodes g' = JSMap.delete (node_id cr) (invalidNodes g)
    ∧ (∀ e, e ∈ edges g' ↔
            e ∈ edges g
            ∨ e = mkEdge (node_id cr) (node_id (nodeFromConfig (config result))) None
            ∨ (∃ i ty, i ∈ default [] (invalidations result)
                       ∧ getInvalidationEdgeType (action i) = inr ty
                       ∧ e = mkEdge (node_id cr) (pattern i) (Some ty))
            ∨ ∃ d, d ∈ devDepRequests result
                   ∧ e = mkEdge (node_id cr) (node_id (nodeFromDevDepRequest d))
                                (Some configures))
    ∧ (∀ d, d ∈ devDepRequests result →
         ∃ d', d' ∈ devDepRequests result
               ∧ node_id (nodeFromDevDepRequest d') = node_id (nodeFromDevDepRequest d)
               ∧ getNode (node_id (nodeFromDevDepRequest d)) g'
                 = Some (nodeFromDevDepRequest d'))
    ∧ (∀ d, d ∈ devDepRequests result →
         mkEdge (node_id cr) (node_id (nodeFromDevDepRequest d)) (Some configures) ∉ edges g →
         is_Some (JSMap.get (node_id (nodeFromDevDepRequest d)) (incompleteNodes g')))
    ∧ (∀ k n, JSMap.get k (incompleteNodes g') = Some n →
         (k ≠ node_id cr ∧ JSMap.get k (incompleteNodes g) = Some n)
         ∨ ∃ d, d ∈ devDepRequests result ∧ n = nodeFromDevDepRequest d
                ∧ k = node_id n
                ∧ mkEdge (node_id cr) (node_id (nodeFromDevDepRequest d)) (Some configures)
                  ∉ edges g)
    ∧ ((∀ e, e ∈ edges g → is_Some (getNode (edge_to e) g)) →
       ∀ e, e ∈ edges g' → is_Some (getNode (edge_to e) g')).
Proof. apply resolveConfigRequest_ok. Qed.

(** X8: the invalidations a [Config] reports are all of a kind
    [resolveConfigRequest] accepts.  Once the config has a resolved path
    every pattern is defined, every action is one
    [getInvalidationEdgeType] maps to an edge type, and a
    [resolveConfigRequest] fed with them does not throw. *)
Theorem Config_invalidations_accepted (c : Config.t) (p : FilePath) :
  Config.resolvedPath c = Some p →
  ∃ invs, mapM asInvalidation (Config.getInvalidations c) = Some invs
    ∧ length invs = length (Config.getInvalidations c)
    ∧ (∀ i, i ∈ invs → ∃ ty, getInvalidationEdgeType (action i) = inr ty)
    ∧ ∀ cfg devDepRequests cr g,
        throws (resolveConfigRequest (mkConfigResult cfg devDepRequests (Some invs)) cr g)
        = false.
Proof.
  intros Hp.
  assert (∀ i, i ∈ Config.getInvalidations c →
            is_Some (Config.pattern i)
            ∧ Config.action i ∈ ["change"; "add"; "unlink"]) as Hall.
  { intros i Hi. apply getInvalidations_elem in Hi as [[Hw ->]|[Hact Hpat]].
    - cbn. split; [|set_solver]. by destruct (Config.watchGlob c).
    - split.
      + destruct Hpat as [->|(f & _ & ->)]; [by rewrite Hp|done].
      + destruct Hact as [->| ->]; set_solver. }
  assert (∃ invs, mapM asInvalidation (Config.getInvalidations c) = Some invs) as [invs Hinvs].
  { apply (mapM_is_Some_2 asInvalidation). apply Forall_forall. intros i Hi.
    destruct (Hall i Hi) as [[q Hq] _]. unfold compose, asInvalidation. by rewrite Hq. }
  exists invs. split; [done|].
  pose proof (mapM_Some_1 _ _ _ Hinvs) as Hrel.
  assert (∀ i, i ∈ invs → action i ∈ ["change"; "add"; "unlink"]) as Hrec.
  { intros i Hi. apply list_elem_of_lookup in Hi as [n Hn].
    destruct (Forall2_lookup_r _ _ _ _ _ Hrel Hn) as (ci & Hci & Hconv).
    apply list_elem_of_lookup_2 in Hci. destruct (Hall ci Hci) as [_ Hact].
    unfold asInvalidation in Hconv. destruct (Config.pattern ci); [|done].
    by injection Hconv as <-. }
  split_and!.
  - symmetry. by eapply Forall2_length.
  - intros i Hi. by apply getInvalidationEdgeType_cases, Hrec.
  - intros cfg ddrs cr g.
    destruct (resolveConfigRequest_ok (mkConfigResult cfg ddrs (Some invs)) cr g Hrec)
      as (g' & -> & _). done.
Qed.

End MoreConfigRequests.

(** ** The two indices under the [resolve*] operations *)

Section Indices.
Context `{!Externals}.

Lemma registerIncomplete_from ns g k n :
  JSMap.get k (incompleteNodes (registerIncomplete ns g)) = Some n →
  (n ∈ ns ∧ node_id n = k) ∨ JSMap.get k (incompleteNodes g) = Some n.
Proof.
  revert g. induction ns as [|c ns IH]; intros g; [by right|].
  unfold registerIncomplete in *. cbn [fold_left]. intros Hn.
  apply IH in Hn as [[Hin Hid]|Hn].
  - left. split; [by right|done].
  - cbn in Hn. rewrite get_set in Hn. case_decide as Hk; [|by right].
    injection Hn as <-. left. split; [by left|done].
Qed.

(** X9: no [resolve*] operation marks a node invalid, and each un-marks
    only the node it resolves ([resolveDevDepRequest] none at all); what
    is incomplete afterwards either was incomplete before or is among the
    nodes the operation hands back, so the values returned account for
    every node that becomes incomplete. *)
Theorem resolve_indices :
  (∀ dep req g,
     let g' := (resolveDependency dep req g).1 in
     let out := (resolveDependency dep req g).2 in
     invalidNodes g' = JSMap.delete (dep_id dep) (invalidNodes g)
     ∧ ∀ k n, JSMap.get k (incompleteNodes g') = Some n →
         (k ≠ dep_id dep ∧ JSMap.get k (incompleteNodes g) = Some n)
         ∨ (newRequestNode out = Some n ∧ node_id n = k))
  ∧ (∀ req ce g,
       let tid := node_id (nodeFromTransformerRequest req) in
       let g' := (resolveTransformerRequest req ce g).1 in
       let out := (resolveTransformerRequest req ce g).2 in
       invalidNodes g' = JSMap.delete tid (invalidNodes g)
       ∧ ∀ k n, JSMap.get k (incompleteNodes g') = Some n →
           (k ≠ tid ∧ JSMap.get k (incompleteNodes g) = Some n)
           ∨ (n ∈ newDepNodes out ∧ node_id n = k))
  ∧ (∀ devDepRequestNode devDep g,
       let g' := resolveDevDepRequest devDepRequestNode devDep g in
       invalidNodes g' = invalidNodes g
       ∧ incompleteNodes g' = JSMap.delete (node_id devDepRequestNode) (incompleteNodes g)).
Proof.
  split_and!.
  - intros dep req g. cbn zeta. unfold resolveDependency. cbn zeta.
    change (node_id (nodeFromDep dep)) with (dep_id dep).
    set (g0 := with_invalidNodes _ (with_incompleteNodes _ g)).
    set (r := replaceNodesConnectedTo (nodeFromDep dep) _ None g0).
    destruct (replace_frame (nodeFromDep dep) [nodeFromTransformerRequest req] None g0)
      as [_ V].
    destruct (replace_sub (nodeFromDep dep) [nodeFromTransformerRequest req] None g0)
      as (_ & _ & I).
    fold r in V, I.
    assert (∀ k n, JSMap.get k (incompleteNodes (this_after r)) = Some n →
                   k ≠ dep_id dep ∧ JSMap.get k (incompleteNodes g) = Some n) as I'.
    { intros k n Hn. apply I in Hn. cbn in Hn. rewrite get_delete in Hn.
      by case_decide. }
    destruct (negb _); cbn [fst snd newRequestNode].
    + split; [done|]. intros k n Hn. cbn in Hn. rewrite get_set in Hn.
      case_decide as Hk; [|left; by apply I'].
      injection Hn as <-. by right.
    + split; [done|]. intros k n Hn. left. by apply I'.
  - intros req ce g. cbn zeta. rewrite resolveTransformerRequest_unfold. cbn zeta.
    set (gA := this_after (replaceNodesConnectedTo _ _ (Some produces) _)).
    set (gB := this_after (replaceNodesConnectedTo _ _ (Some invalidated_by_change_to) gA)).
    destruct (connectDependencies_new (assets ce) gB []) as (_ & _ & _ & I3 & V3).
    set (st := fold_left connectDependencies (assets ce) (gB, [])) in *.
    cbn [fst snd newDepNodes].
    destruct (registerIncomplete_frame st.2 st.1) as (_ & _ & _ & V4).
    destruct (replace_frame (nodeFromTransformerRequest req)
                [nodeFromFile (mkFile (req_filePath req))]
                (Some invalidated_by_change_to) gA) as [_ V2].
    destruct (replace_sub (nodeFromTransformerRequest req)
                [nodeFromFile (mkFile (req_filePath req))]
                (Some invalidated_by_change_to) gA) as (_ & _ & I2).
    destruct (replace_frame (nodeFromTransformerRequest req) (nodeFromAsset <$> assets ce)
                (Some produces) (afterDelete req g)) as [_ V1].
    destruct (replace_sub (nodeFromTransformerRequest req) (nodeFromAsset <$> assets ce)
                (Some produces) (afterDelete req g)) as (_ & _ & I1).
    fold gA in V1, I1. fold gB in V2, I2.
    split.
    + by rewrite V4, V3, V2, V1.
    + intros k n Hn. apply registerIncomplete_from in Hn as [[Hin Hid]|Hn]; [by right|].
      left. apply I3, I2, I1 in Hn. cbn in Hn. rewrite get_delete in Hn.
      by case_decide.
  - intros n d g. cbn zeta. unfold resolveDevDepRequest.
    destruct (hasEdge _ _); [done|]. unfold addEdge. by destruct (hasEdge _ _).
Qed.

(** ** Resolving a dev-dep request *)

Lemma delete_delete {V} k (m : JSMap.t V) :
  JSMap.delete k (JSMap.delete k m) = JSMap.delete k m.
Proof. apply delete_absent, get_delete_eq. Qed.

Lemma resolveDevDepRequest_facts (devDepRequestNode : Node) (devDep : DevDep)
    (g : AssetGraph) :
  let devDepNode := nodeFromDevDep devDep in
  let edge := mkEdge (node_id devDepRequestNode) (node_id devDepNode) (Some resolves_to) in
  let g' := resolveDevDepRequest devDepRequestNode devDep g in
  getNode (node_id devDepNode) g' = Some devDepNode
  ∧ (∀ k, k ≠ node_id devDepNode → getNode k g' = getNode k g)
  ∧ (∀ e, e ∈ edges g' ↔ e ∈ edges g ∨ e = edge)
  ∧ JSMap.get (node_id devDepRequestNode) (incompleteNodes g') = None
  ∧ rootNodeId g' = rootNodeId g
  ∧ resolveDevDepRequest devDepRequestNode devDep g' = g'.
Proof.
  cbn zeta. unfold resolveDevDepRequest at 1 2 3 4 5.
  set (dn := nodeFromDevDep devDep).
  set (edge := mkEdge (node_id devDepRequestNode) (node_id dn) (Some resolves_to)).
  set (g0 := addNode dn (with_incompleteNodes (JSMap.delete (node_id devDepRequestNode)) g)).
  assert (∀ k, getNode k (if hasEdge edge g0 then g0 else addEdge edge g0) = getNode k g0)
    as Hnodes.
  { intros k. destruct (hasEdge edge g0); [done|]. unfold addEdge.
    by destruct (hasEdge edge g0). }
  assert (∀ e, e ∈ edges (if hasEdge edge g0 then g0 else addEdge edge g0)
               ↔ e ∈ edges g ∨ e = edge) as Hedges.
  { intros e. unfold hasEdge at 1. case_bool_decide as Hin.
    - split; [by left|]. by intros [?| ->].
    - by rewrite addEdge_edges. }
  split_and!.
  - rewrite Hnodes. unfold getNode, g0. cbn. apply get_set_eq.
  - intros k Hk. rewrite Hnodes. unfold getNode, g0. cbn. by rewrite get_set_ne.
  - done.
  - destruct (hasEdge edge g0); [|unfold addEdge; destruct (hasEdge edge g0)];
      cbn; apply get_delete_eq.
  - destruct (hasEdge edge g0); [done|]. unfold addEdge. by destruct (hasEdge edge g0).
  - set (g' := if hasEdge edge g0 then g0 else addEdge edge g0).
    assert (hasEdge edge g' = true) as Hhas.
    { unfold hasEdge. apply bool_decide_eq_true. apply Hedges. by right. }
    assert (addNode dn (with_incompleteNodes (JSMap.delete (node_id devDepRequestNode)) g')
            = g') as Hsame.
    { subst g'. destruct (hasEdge edge g0) eqn:Hh.
      - unfold g0, addNode, with_nodes, with_incompleteNodes.
        cbn [nodes edges rootNodeId incompleteNodes invalidNodes].
        by rewrite set_set, delete_delete.
      - unfold addEdge. rewrite Hh. unfold g0, addNode, with_nodes, with_incompleteNodes,
          with_edges. cbn [nodes edges rootNodeId incompleteNodes invalidNodes].
        by rewrite set_set, delete_delete. }
    unfold resolveDevDepRequest. cbn zeta. fold dn. fold edge. fold g0. fold g'. rewrite Hsame.
    by rewrite Hhas.
Qed.

(** X10: [resolveDevDepRequest] stores the dev dep's node under its id
    (replacing whatever was stored there), links it to the request by a
    [resolves_to] edge, leaves every other node and edge alone, and takes
    the request out of [incompleteNodes]; resolving the same request to
    the same dev dep again changes nothing. *)
Theorem resolveDevDepRequest_spec (devDepRequestNode : Node) (devDep : DevDep)
    (g : AssetGraph) :
  let devDepNode := nodeFromDevDep devDep in
  let edge := mkEdge (node_id devDepRequestNode) (node_id devDepNode) (Some resolves_to) in
  let g' := resolveDevDepRequest devDepRequestNode devDep g in
  getNode (node_id devDepNode) g' = Some devDepNode
  ∧ (∀ k, k ≠ node_id devDepNode → getNode k g' = getNode k g)
  ∧ (∀ e, e ∈ edges g' ↔ e ∈ edges g ∨ e = edge)
  ∧ JSMap.get (node_id devDepRequestNode) (incompleteNodes g') = None
  ∧ rootNodeId g' = rootNodeId g
  ∧ resolveDevDepRequest devDepRequestNode devDep g' = g'.
Proof. apply resolveDevDepRequest_facts. Qed.

End Indices.

(** ** Asking for a config *)

Section AddConfigRequest.
Context `{!Externals}.

Lemma getNodesConnectedTo_values n ty g x :
  x ∈ getNodesConnectedTo n ty g → x ∈ JSMap.values (nodes g).
Proof.
  unfold getNodesConnectedTo. intros (e & _ & Hget)%list_elem_of_omap.
  by eapply get_Some_values.
Qed.

(** X11: the first node that asks for a config is the only one linked to
    the config request.  A request already in the graph is handed back
    with the graph untouched, whoever asks; so after two nodes have asked,
    the request's only parent is the first, and invalidating the request
    marks the request and the first asker, nothing else. *)
Theorem addConfigRequest_first_requester (cr n1 n2 : Node) (g : AssetGraph) :
  getNode (node_id cr) g = None →
  (∀ e, e ∈ edges g → is_Some (getNode (edge_to e) g)) →
  let g1 := (addConfigRequest cr n1 g).1 in
  addConfigRequest cr n2 g1 = (g1, cr)
  ∧ getNode (node_id cr) g1 = Some cr
  ∧ (∀ e, e ∈ edges g1 ↔ e ∈ edges g ∨ e = mkEdge (node_id n1) (node_id cr) None)
  ∧ (node_type cr = config_request → getNode (node_id n1) g = Some n1 →
     getNodesConnectedTo cr None g1 = [n1]
     ∧ invalidateNode cr g1 =
         Ok tt (with_invalidNodes
                  (λ m, JSMap.set (node_id n1) n1 (JSMap.set (node_id cr) cr m)) g1)).
Proof.
  intros Hnew Hclosed. cbn zeta.
  set (edge := mkEdge (node_id n1) (node_id cr) None).
  assert (edge ∉ edges g) as Hedge.
  { intros Hin. apply Hclosed in Hin. cbn in Hin. rewrite Hnew in Hin. by destruct Hin. }
  assert ((addConfigRequest cr n1 g).1 = with_edges (λ es, es ++ [edge]) (addNode cr g))
    as ->.
  { unfold addConfigRequest.
    assert (JSMap.has (node_id cr) (nodes g) = false) as -> by by apply has_false.
    cbn [fst]. fold edge. unfold addEdge, hasEdge. by rewrite bool_decide_eq_false_2. }
  set (g1 := with_edges _ (addNode cr g)).
  assert (getNode (node_id cr) g1 = Some cr) as Hcr.
  { unfold getNode, g1. cbn. apply get_set_eq. }
  split_and!.
  - unfold addConfigRequest.
    assert (JSMap.has (node_id cr) (nodes g1) = true) as ->; [|done].
    apply has_get. unfold getNode in Hcr. by rewrite Hcr.
  - done.
  - intros e. unfold g1. cbn. rewrite elem_of_app, list_elem_of_singleton. done.
  - intros Hty Hn1.
    assert (node_id n1 ≠ node_id cr) as Hne by congruence.
    assert (getNodesConnectedTo cr None g1 = [n1]) as Hparents.
    { unfold getNodesConnectedTo, g1. cbn [edges with_edges addNode with_nodes].
      rewrite filter_app.
      rewrite (filter_none _ (edges g)).
      - rewrite filter_cons, decide_True by done. cbn.
        unfold getNode in *. cbn. rewrite get_set_ne by done. by rewrite Hn1.
      - intros e He [Hto _]. apply Hclosed in He. rewrite Hto, Hnew in He.
        by destruct He. }
    split; [done|].
    assert (getActionNode cr g1 = inr (Some n1)) as Haction.
    { unfold getActionNode. by rewrite Hty, Hparents. }
    pose proof (invalidateNode_ok cr g1 (λ m, m)) as Hinv.
    rewrite with_invalidNodes_id in Hinv. rewrite Hinv.
    + unfold cascade. by rewrite Hty, Haction.
    + unfold invalidatable. by rewrite Hty, Haction.
Qed.

End AddConfigRequest.

(** ** What a filesystem event can touch *)

Section Marks.
Context `{!Externals}.

(** [g'] differs from [g] in [invalidNodes] only, where nothing is
    un-marked and whatever is newly marked is a node of the graph, under
    its own id. *)
Local Abbreviation marks g g' :=
  (nodes g' = nodes g ∧ edges g' = edges g ∧ rootNodeId g' = rootNodeId g
   ∧ incompleteNodes g' = incompleteNodes g
   ∧ (∀ k, JSMap.has k (invalidNodes g) = true → JSMap.has k (invalidNodes g') = true)
   ∧ (∀ k n, JSMap.get k (invalidNodes g') = Some n →
             JSMap.get k (invalidNodes g) = Some n
             ∨ (node_id n = k ∧ n ∈ JSMap.values (nodes g)))).

Lemma marks_refl g : marks g g.
Proof. split_and!; try done. intros k n Hn. by left. Qed.

Lemma marks_trans g1 g2 g3 : marks g1 g2 → marks g2 g3 → marks g1 g3.
Proof.
  intros (N1 & E1 & R1 & I1 & H1 & P1) (N2 & E2 & R2 & I2 & H2 & P2).
  split_and!; try congruence.
  - intros k Hk. by apply H2, H1.
  - intros k n Hn. apply P2 in Hn as [Hn|[Hid Hin]]; [by apply P1|].
    right. by rewrite <- N1.
Qed.

Lemma marks_set g n :
  n ∈ JSMap.values (nodes g) → marks g (with_invalidNodes (JSMap.set (node_id n) n) g).
Proof.
  intros Hn. split_and!; try done.
  - intros k Hk. cbn. apply has_set. by right.
  - intros k n' Hn'. cbn in Hn'. rewrite get_set in Hn'. case_decide as Hk; [|by left].
    injection Hn' as <-. by right.
Qed.

Lemma getActionNode_values c g a :
  getActionNode c g = inr (Some a) → a ∈ JSMap.values (nodes g).
Proof.
  unfold getActionNode, first.
  destruct (node_type c); try done.
  - intros [= Ha]. apply head_Some_elem_of in Ha. by eapply getNodesConnectedTo_values.
  - destruct (head (getNodesConnectedTo c None g)) as [p|]; [|done].
    intros [= Ha]. apply head_Some_elem_of in Ha. by eapply getNodesConnectedTo_values.
Qed.

Lemma invalidateNode_marks c g :
  c ∈ JSMap.values (nodes g) → marks g (state_of (invalidateNode c g)).
Proof.
  intros Hc. pose proof (marks_set g c Hc) as Hmark.
  assert (marks g (state_of
            (bind (markInvalid c)
               (λ _, bind (λ g0, liftE (getActionNode c g0) g0)
                       (λ actionNode, match actionNode with
                                      | Some a => markInvalid a
                                      | None => throw TypeError
                                      end)) g))) as Hcascade.
  { unfold bind, markInvalid, modify. rewrite getActionNode_with_invalidNodes.
    destruct (getActionNode c g) as [e|[a|]] eqn:Ha; cbn [liftE throw ret state_of];
      [done| |done].
    eapply marks_trans; [exact Hmark|].
    apply (marks_set (with_invalidNodes _ g) a). by eapply getActionNode_values. }
  unfold invalidateNode. destruct (node_type c); try apply marks_refl; done.
Qed.

Lemma invalidateAll_marks cs g :
  (∀ c, c ∈ cs → c ∈ JSMap.values (nodes g)) →
  marks g (state_of (forEach cs invalidateNode g)).
Proof.
  revert g. induction cs as [|c cs IH]; intros g Hcs; [apply marks_refl|].
  cbn [forEach]. unfold bind.
  pose proof (invalidateNode_marks c g (Hcs c ltac:(by left))) as Hc.
  destruct (invalidateNode c g) as [[] g1|e g1]; cbn [state_of] in *; [|done].
  eapply marks_trans; [exact Hc|]. apply IH.
  intros c' Hc'. destruct Hc as (-> & _). apply Hcs. by right.
Qed.

Lemma invalidateConnectedNodes_marks n ty g :
  marks g (state_of (invalidateConnectedNodes n ty g)).
Proof.
  unfold invalidateConnectedNodes, bind, ret. apply invalidateAll_marks.
  intros c. apply getNodesConnectedTo_values.
Qed.

Lemma globLoop_marks path ty globs g :
  marks g (state_of (forEach globs
                       (λ globNode, when (isMatch path (glob_pattern globNode))
                                         (invalidateConnectedNodes globNode (Some ty))) g)).
Proof.
  revert g. induction globs as [|gl globs IH]; intros g; [apply marks_refl|].
  cbn [forEach]. unfold bind.
  assert (marks g (state_of (when (isMatch path (glob_pattern gl))
                                  (invalidateConnectedNodes gl (Some ty)) g))) as Hgl.
  { destruct (isMatch _ _); cbn [when]; [apply invalidateConnectedNodes_marks|].
    apply marks_refl. }
  destruct (when _ _ g) as [[] g1|e g1]; cbn [state_of] in *; [|done].
  eapply marks_trans; [exact Hgl | apply IH].
Qed.

Lemma respondToFSChange_any_outcome (action path : string) (g : AssetGraph) :
  let g' := state_of (respondToFSChange action path g) in
  nodes g' = nodes g ∧ edges g' = edges g ∧ rootNodeId g' = rootNodeId g
  ∧ incompleteNodes g' = incompleteNodes g
  ∧ (∀ k, JSMap.has k (invalidNodes g) = true → JSMap.has k (invalidNodes g') = true)
  ∧ (∀ k n, JSMap.get k (invalidNodes g') = Some n →
            JSMap.get k (invalidNodes g) = Some n
            ∨ (node_id n = k ∧ n ∈ JSMap.values (nodes g))).
Proof.
  cbn zeta. unfold respondToFSChange, bind, ret.
  destruct (getInvalidationEdgeType action) as [e|ty]; cbn [liftE throw ret state_of];
    [apply marks_refl|].
  assert (marks g (state_of (match JSMap.get path (nodes g) with
                             | Some f => invalidateConnectedNodes f (Some ty)
                             | None => λ g0, Ok tt g0
                             end g))) as Hfile.
  { destruct (JSMap.get path (nodes g)); [apply invalidateConnectedNodes_marks|].
    apply marks_refl. }
  destruct (match JSMap.get path (nodes g) with
            | Some f => invalidateConnectedNodes f (Some ty)
            | None => _
            end g) as [[] g1|e g1]; cbn [state_of] in *; [|done].
  destruct (bool_decide (action = "add")); cbn [when]; [|done].
  eapply marks_trans; [exact Hfile|]. apply globLoop_marks.
Qed.

(** X12: whatever the event and however the call ends, with a return or
    with an exception, [respondToFSChange] changes nothing but
    [invalidNodes]: nodes, edges, root and [incompleteNodes] are as
    before, no node is un-marked, and each node newly marked is a node of
    the graph, marked under its own id. *)
Theorem respondToFSChange_only_marks (action path : string) (g : AssetGraph) :
  let g' := state_of (respondToFSChange action path g) in
  nodes g' = nodes g ∧ edges g' = edges g ∧ rootNodeId g' = rootNodeId g
  ∧ incompleteNodes g' = incompleteNodes g
  ∧ (∀ k, JSMap.has k (invalidNodes g) = true → JSMap.has k (invalidNodes g') = true)
  ∧ (∀ k n, JSMap.get k (invalidNodes g') = Some n →
            JSMap.get k (invalidNodes g) = Some n
            ∨ (node_id n = k ∧ n ∈ JSMap.values (nodes g))).
Proof. apply respondToFSChange_any_outcome. Qed.

End Marks.

(** ** Delivering an event twice *)

Lemma set_comm {V} k1 k2 (v1 v2 : V) (m : JSMap.t V) :
  k1 ≠ k2 → JSMap.has k1 m = true →
  JSMap.set k1 v1 (JSMap.set k2 v2 m) = JSMap.set k2 v2 (JSMap.set k1 v1 m).
Proof.
  intros Hne. induction m as [|[k v] m IH]; [done|].
  unfold JSMap.has. cbn [JSMap.get JSMap.set].
  destruct (decide (k = k1)) as [->|Hk1].
  - intros _. rewrite (decide_False (P := k1 = k2)) by done. cbn [JSMap.set].
    by rewrite decide_True, (decide_False (P := k1 = k2)).
  - intros Hhas. destruct (decide (k = k2)) as [->|Hk2]; cbn [JSMap.set].
    + by rewrite (decide_False (P := k2 = k1)), decide_True.
    + rewrite (decide_False (P := k = k1)), (decide_False (P := k = k2)) by done.
      by rewrite IH.
Qed.

Lemma markAll_set ns n m :
  (∀ x, x ∈ ns → JSMap.has (node_id x) m = true) →
  markAll ns (JSMap.set (node_id n) n m) =
  if decide (node_id n ∈ node_id <$> ns) then markAll ns m
  else JSMap.set (node_id n) n (markAll ns m).
Proof.
  revert m. induction ns as [|x ns IH]; intros m Hhas.
  - cbn. rewrite decide_False; [done|]. apply not_elem_of_nil.
  - unfold markAll in *. cbn [fold_left]. rewrite fmap_cons.
    destruct (decide (node_id x = node_id n)) as [Heq|Hne].
    + rewrite Heq, set_set. rewrite decide_True; [done|]. by left.
    + rewrite set_comm; [|done|apply Hhas; by left].
      rewrite IH.
      * destruct (decide (node_id n ∈ node_id <$> ns)) as [Hin|Hnot].
        -- rewrite decide_True; [done|]. by right.
        -- rewrite decide_False; [done|]. rewrite not_elem_of_cons. by split.
      * intros y Hy. apply has_set. right. apply Hhas. by right.
Qed.

Lemma markAll_idem ns m : markAll ns (markAll ns m) = markAll ns m.
Proof.
  revert m. induction ns as [|n ns IH] using rev_ind; intros m; [done|].
  rewrite !markAll_app. cbn. rewrite markAll_set.
  - rewrite IH. case_decide; [done|]. by rewrite set_set.
  - intros x Hx. apply has_markAll. right. by apply list_elem_of_fmap_2.
Qed.

Section Twice.
Context `{!Externals}.

(** X13: invalidation is idempotent.  Invalidating a node a second time
    ends as the first time did, with the same exception if any, and
    leaves the graph as the first call left it; and a filesystem event
    that could be handled (every node it reaches can be invalidated)
    changes nothing when it is delivered again. *)
Theorem invalidation_idempotent :
  (∀ c g, invalidateNode c (state_of (invalidateNode c g)) = invalidateNode c g)
  ∧ ∀ action path ty g,
      getInvalidationEdgeType action = inr ty →
      forallb (invalidatable g) (fsTargets action path ty g) = true →
      ∃ g', respondToFSChange action path g = Ok tt g'
        ∧ respondToFSChange action path g' = Ok tt g'.
Proof.
  split.
  - intros c g.
    assert (∀ g0, with_invalidNodes (JSMap.set (node_id c) c)
                    (with_invalidNodes (JSMap.set (node_id c) c) g0)
                  = with_invalidNodes (JSMap.set (node_id c) c) g0) as Hcc.
    { intros g0. unfold with_invalidNodes. cbn. by rewrite set_set. }
    assert (∀ m : M unit, (m = markInvalid c ∨ ∃ e, m = throw e) →
              m (state_of (m g)) = m g) as Hsimple.
    { intros m [->|[e ->]]; [|done]. unfold markInvalid, modify. cbn. by rewrite Hcc. }
    assert (let m := bind (markInvalid c)
               (λ _, bind (λ g0, liftE (getActionNode c g0) g0)
                       (λ actionNode, match actionNode with
                                      | Some a => markInvalid a
                                      | None => throw TypeError
                                      end)) in
            m (state_of (m g)) = m g) as Hcascade.
    { cbn zeta. unfold bind, markInvalid, modify.
      rewrite !getActionNode_with_invalidNodes.
      destruct (getActionNode c g) as [e|[a|]] eqn:Ha; cbn [liftE throw ret state_of].
      - rewrite !getActionNode_with_invalidNodes, Ha. cbn. by rewrite Hcc.
      - rewrite !getActionNode_with_invalidNodes, Ha. cbn [liftE ret].
        f_equal. unfold with_invalidNodes. cbn. f_equal.
        apply (markAll_idem [c; a]).
      - rewrite !getActionNode_with_invalidNodes, Ha. cbn. by rewrite Hcc. }
    unfold invalidateNode.
    destruct (node_type c); first [exact Hcascade | apply Hsimple; eauto].
  - intros action path ty g Hty Hall.
    pose proof (respondToFSChange_ok action path ty g (λ m, m) Hty Hall) as H1.
    rewrite with_invalidNodes_id in H1.
    eexists. split; [exact H1|].
    rewrite (respondToFSChange_ok action path ty g _ Hty Hall).
    f_equal. unfold with_invalidNodes. cbn. f_equal. apply markAll_idem.
Qed.

End Twice.

(** ** Initialising the graph without entries *)

Section InitializeMore.
Context `{!Externals}.

(** The graph [initializeGraph] builds from the children it has chosen. *)
Lemma initialize_with rootDir ns g :
  let rootNode := nodeFromRootDir rootDir in
  let g' := registerIncomplete ns
              (this_after (replaceNodesConnectedTo rootNode ns None
                             (setRootNode rootNode g))) in
  NoDup (node_id <$> ns) →
  (∀ n, n ∈ ns → node_id n ≠ rootDir ∧ getNode (node_id n) g = None) →
  rootNodeId g' = Some rootDir
  ∧ getNode rootDir g' = Some rootNode
  ∧ (∀ n, n ∈ ns →
       getNode (node_id n) g' = Some n
       ∧ JSMap.get (node_id n) (incompleteNodes g') = Some n
       ∧ hasEdge (mkEdge rootDir (node_id n) None) g' = true)
  ∧ (∀ m, m ∈ getNodesConnectedFrom rootNode None g' ↔ m ∈ ns)
  ∧ (∀ k n, JSMap.get k (incompleteNodes g') = Some n →
       n ∈ ns ∨ JSMap.get k (incompleteNodes g) = Some n).
Proof.
  cbn zeta. intros Hnd Hfresh.
  set (rootNode := nodeFromRootDir rootDir).
  set (g0 := setRootNode rootNode g).
  set (r := replaceNodesConnectedTo rootNode ns None g0).
  destruct (registerIncomplete_frame ns (this_after r)) as (Hn & Hedges & Hr & _).
  assert (rootNodeId g0 = Some rootDir) as Hroot by done.
  assert (rtc (edge_rel (targetEdges (node_id rootNode) None ns (edges g0)))
              rootDir rootDir) as Hsafe by done.
  assert (∀ n, n ∈ ns → getNode (node_id n) (this_after r) = Some n
                         ∧ mkEdge rootDir (node_id n) None ∈ edges (this_after r))
    as Hchild.
  { intros n Hin.
    destruct (replace_child rootNode ns None g0 _ Hroot n Hsafe Hin) as (_ & E & Hsn).
    split; [|done].
    destruct (replace_safe rootNode ns None g0 _ _ Hroot Hsn) as (N & _ & _).
    unfold getNode. fold r in N. rewrite N, get_freshChildren.
    destruct (Hfresh n Hin) as [Hne Hnone].
    assert (JSMap.get (node_id n) (nodes g0) = None) as ->.
    { unfold g0. simpl. by rewrite get_set_ne. }
    by apply head_filter_NoDup. }
  split_and!.
  - rewrite Hr. unfold r. by erewrite replace_root.
  - unfold getNode. rewrite Hn.
    apply (replace_keep_node rootNode ns None g0 _ Hroot); [done|].
    unfold getNode, g0. simpl. apply get_set_eq.
  - intros n Hin. destruct (Hchild n Hin) as [Hnode Hedge]. split_and!.
    + unfold getNode in *. by rewrite Hn.
    + by apply registerIncomplete_get.
    + unfold hasEdge. by rewrite bool_decide_eq_true, Hedges.
  - intros m. unfold getNodesConnectedFrom, getNode. rewrite Hn, Hedges.
    rewrite list_elem_of_omap. setoid_rewrite list_elem_of_filter. split.
    + intros (e & [[Hfrom Hty] Hin] & Hget).
      apply (replace_upper_same rootNode ns None g0) in Hin; [|done..].
      apply list_elem_of_fmap in Hin as (n & Hto & Hin).
      destruct (Hchild n Hin) as [Hnode _]. unfold getNode in Hnode.
      rewrite Hto in Hget. congruence.
    + intros Hin. destruct (Hchild m Hin) as [Hnode Hedge].
      exists (mkEdge rootDir (node_id m) None). by split_and!.
  - intros k n Hk. apply registerIncomplete_from in Hk as [[Hin _]|Hk]; [by left|].
    right. destruct (replace_sub rootNode ns None g0) as (_ & _ & I).
    by apply I in Hk.
Qed.

(** X14: without entries [initializeGraph] does not throw, whatever the
    targets, and creates no dependency.  Given a transformer request whose
    id is new to the graph, the request's node becomes the one child of
    the root and is registered incomplete; given neither entries nor a
    request the root is left without children and nothing is registered.
    With entries present the transformer request is not looked at. *)
Theorem initializeGraph_without_entries (opts : AssetGraphOpts) (k : nat) (g : AssetGraph) :
  let rootNode := nodeFromRootDir (opt_rootDir opts) in
  (opt_entries opts = None →
   (∀ req, opt_transformerRequest opts = Some req →
      let n := nodeFromTransformerRequest req in
      node_id n ≠ opt_rootDir opts → getNode (node_id n) g = None →
      ∃ g', initializeGraph opts k g = Ok tt g'
        ∧ rootNodeId g' = Some (opt_rootDir opts)
        ∧ getNode (opt_rootDir opts) g' = Some rootNode
        ∧ getNode (node_id n) g' = Some n
        ∧ JSMap.get (node_id n) (incompleteNodes g') = Some n
        ∧ hasEdge (mkEdge (opt_rootDir opts) (node_id n) None) g' = true
        ∧ (∀ m, m ∈ getNodesConnectedFrom rootNode None g' ↔ m = n))
   ∧ (opt_transformerRequest opts = None →
      ∃ g', initializeGraph opts k g = Ok tt g'
        ∧ rootNodeId g' = Some (opt_rootDir opts)
        ∧ getNode (opt_rootDir opts) g' = Some rootNode
        ∧ getNodesConnectedFrom rootNode None g' = []
        ∧ ∀ k' n, JSMap.get k' (incompleteNodes g') = Some n →
                  JSMap.get k' (incompleteNodes g) = Some n)
   ∧ ∀ k', initializeGraph opts k' g = initializeGraph opts k g)
  ∧ (is_Some (opt_entries opts) →
     ∀ req, initializeGraph opts k g =
            initializeGraph (mkAssetGraphOpts (opt_entries opts) (opt_targets opts) req
                                              (opt_rootDir opts)) k g).
Proof.
  cbn zeta. split.
  - intros He. split_and!.
    + intros req Hreq Hne Hnew.
      destruct (initialize_with (opt_rootDir opts) [nodeFromTransformerRequest req] g)
        as (R & N & C & Ch & _).
      { apply NoDup_singleton. }
      { intros n ->%list_elem_of_singleton. done. }
      destruct (C (nodeFromTransformerRequest req)) as (C1 & C2 & C3); [by left|].
      set (g' := registerIncomplete _ _) in *.
      exists g'. split.
      { unfold initializeGraph, bind, modify, ret. by rewrite He, Hreq. }
      split_and!; try done.
      intros m. rewrite Ch. apply list_elem_of_singleton.
    + intros Hreq.
      destruct (initialize_with (opt_rootDir opts) [] g) as (R & N & _ & Ch & I).
      { apply NoDup_nil_2. }
      { intros n Hn. by apply elem_of_nil in Hn. }
      set (g' := registerIncomplete [] _) in *.
      exists g'. split.
      { unfold initializeGraph, bind, modify, ret. by rewrite He, Hreq. }
      split_and!; try done.
      * apply elem_of_nil_inv. intros m Hm. apply Ch in Hm. by apply elem_of_nil in Hm.
      * intros k' n Hk'. apply I in Hk' as [Hin|Hk']; [|done].
        by apply elem_of_nil in Hin.
    + intros k'. unfold initializeGraph. by rewrite He.
  - intros [entries He] req. unfold initializeGraph. cbn. by rewrite He.
Qed.

End InitializeMore.

(** ** Reading the dependencies of an asset *)

Lemma mapE_inr {A B E} (f : A → E + B) (xs : list A) :
  (∀ x, x ∈ xs → ∃ y, f x = inr y) →
  ∃ ys, mapE f xs = inr ys ∧ Forall2 (λ x y, f x = inr y) xs ys.
Proof.
  induction xs as [|x xs IH]; intros Hall.
  - exists []. split; [done|constructor].
  - destruct (Hall x) as [y Hy]; [by left|].
    destruct IH as (ys & Hys & Hrel); [intros x' Hx'; apply Hall; by right|].
    exists (y :: ys). cbn. rewrite Hy, Hys. split; [done|by constructor].
Qed.

Lemma mapE_inl {A B E} (f : A → E + B) (xs : list A) x :
  x ∈ xs → (∃ e, f x = inl e) → ∃ e, mapE f xs = inl e.
Proof.
  intros Hx [e0 Hbad]. induction xs as [|x' xs IH]; [by apply elem_of_nil in Hx|].
  cbn. apply elem_of_cons in Hx as [<-|Hx].
  - rewrite Hbad. by exists e0.
  - destruct (f x') as [e|b]; [by exists e|].
    destruct (IH Hx) as [e ->]. by exists e.
Qed.

Section GetDependencies.
Context `{!Externals}.

(** X15: [getDependencies] answers [[]] for an asset the graph does not
    know and fails its assertion when a default-edge child of the asset is
    not a dependency node.  After [resolveTransformerRequest] it reads
    back, for each asset of the cache entry, exactly the dependencies the
    asset declares, provided ids name one thing only: the graph is keyed by
    node id, a node already stored under a declared dependency's id is
    that dependency's node, no two declared dependencies share an id, and
    no dependency has the id of an asset or the path of the file. *)
Theorem getDependencies_spec :
  (∀ a g, getNode (asset_id a) g = None → getDependencies a g = inr [])
  ∧ (∀ a g node x,
       getNode (asset_id a) g = Some node →
       x ∈ getNodesConnectedFrom node None g → node_type x ≠ dependency →
       getDependencies a g = inl assertionError)
  ∧ ∀ req ce g a,
      let g' := (resolveTransformerRequest req ce g).1 in
      NoDup (asset_id <$> assets ce) →
      reachableAvoiding (asset_id <$> assets ce) g
        (node_id (nodeFromTransformerRequest req)) = true →
      keyed g →
      a ∈ assets ce →
      (∀ d n, d ∈ dependencies a → getNode (dep_id d) g = Some n → n = nodeFromDep d) →
      (∀ a' d' d, a' ∈ assets ce → d' ∈ dependencies a' → d ∈ dependencies a →
                  dep_id d' = dep_id d → d' = d) →
      (∀ d, d ∈ dependencies a →
            (dep_id d ∉ asset_id <$> assets ce) ∧ dep_id d ≠ req_filePath req) →
      ∃ ds, getDependencies a g' = inr ds ∧ ∀ d, d ∈ ds ↔ d ∈ dependencies a.
Proof.
  split_and!.
  - intros a g Hnone. unfold getDependencies. by rewrite Hnone.
  - intros a g node x Hnode Hx Hty. unfold getDependencies. rewrite Hnode.
    destruct (mapE_inl (λ n, match node_value n with
                             | VDependency d => inr d
                             | _ => inl assertionError
                             end) _ x Hx) as [[] ->]; [|done].
    exists assertionError. unfold node_type in Hty. by destruct (node_value x).
  - intros req ce g a. cbn zeta. intros Hnd Hreach Hkeyed Ha Hold Hids Hdisj.
    set (g' := (resolveTransformerRequest req ce g).1).
    destruct (resolveTransformerRequest_links req ce g Hnd Hreach) as (Lp & _ & La).
    fold g' in Lp, La. specialize (La a Ha). destruct La as [La1 La2].
    destruct Lp as [Lp _].
    destruct (Lp (asset_id a)) as [[an Han] _]; [by apply list_elem_of_fmap_2|].
    assert (node_id an = asset_id a) as Hanid.
    { apply resolveTransformerRequest_nodes_from in Han as [Han|[Hid _]]; [|done].
      by apply Hkeyed. }
    assert (∀ d n, d ∈ dependencies a → getNode (dep_id d) g' = Some n → n = nodeFromDep d)
      as Hstored.
    { intros d n Hd Hn. destruct (Hdisj d Hd) as [Hna Hnf].
      apply resolveTransformerRequest_nodes_from in Hn
        as [Hn|[Hid [(a' & Ha' & ->)|[->|(a' & d' & Ha' & Hd' & ->)]]]].
      - by apply Hold.
      - destruct Hna. rewrite <- Hid. cbn. by apply list_elem_of_fmap_2.
      - by destruct Hnf.
      - by rewrite (Hids a' d' d Ha' Hd' Hd Hid). }
    unfold getDependencies. rewrite Han.
    set (f := λ n, match node_value n with
                   | VDependency d => inr d
                   | _ => inl assertionError
                   end).
    assert (∀ x, x ∈ getNodesConnectedFrom an None g' →
                 ∃ d, d ∈ dependencies a ∧ x = nodeFromDep d) as Hchildren.
    { intros x. unfold getNodesConnectedFrom. rewrite Hanid.
      intros (e & [[Hfrom Hty] He]%list_elem_of_filter & Hget)%list_elem_of_omap.
      apply La2 in He; [|done..].
      apply list_elem_of_fmap in He as (d & Hto & Hd). exists d. split; [done|].
      apply Hstored; [done|]. by rewrite <- Hto. }
    destruct (mapE_inr f (getNodesConnectedFrom an None g')) as (ds & -> & Hrel).
    { intros x (d & _ & ->)%Hchildren. by exists d. }
    exists ds. split; [done|]. intros d. split.
    + intros Hd. apply list_elem_of_lookup in Hd as [i Hi].
      destruct (Forall2_lookup_r _ _ _ _ _ Hrel Hi) as (x & Hx & Hfx).
      apply list_elem_of_lookup_2 in Hx. apply Hchildren in Hx as (d0 & Hd0 & ->).
      cbn in Hfx. by injection Hfx as <-.
    + intros Hd.
      assert (nodeFromDep d ∈ getNodesConnectedFrom an None g') as Hx.
      { unfold getNodesConnectedFrom. rewrite Hanid. apply list_elem_of_omap.
        destruct (La1 (dep_id d)) as [[n Hn] He]; [by apply list_elem_of_fmap_2|].
        exists (mkEdge (asset_id a) (dep_id d) None). split.
        - apply list_elem_of_filter. by split.
        - cbn [edge_to]. rewrite Hn. f_equal. by apply Hstored. }
      apply list_elem_of_lookup in Hx as [i Hi].
      destruct (Forall2_lookup_l _ _ _ _ _ Hrel Hi) as (y & Hy & Hfy).
      cbn in Hfy. injection Hfy as <-. by eapply list_elem_of_lookup_2.
Qed.

End GetDependencies.

(** ** Merging babel configs *)

(** X16: [mergeConfigs] hands back [result] itself when there is nothing
    to merge (no config, or one whose presets and plugins are both missing
    or empty) and the config itself when there is no result; in every case
    the presets of what it returns are those of [result] followed by those
    of [config], and likewise the plugins, a missing list counting as
    empty, so that merging is associative as far as presets and plugins
    go. *)
Theorem mergeConfigs_spec :
  (∀ r, mergeConfigs r None = r)
  ∧ (∀ r c, missingOrEmpty (presets c) = true → missingOrEmpty (plugins c) = true →
       mergeConfigs r (Some c) = r)
  ∧ (∀ c, missingOrEmpty (presets c) = false ∨ missingOrEmpty (plugins c) = false →
       mergeConfigs None (Some c) = Some c)
  ∧ (∀ r c,
       orEmpty (mergeConfigs r c ≫= presets) = orEmpty (r ≫= presets) ++ orEmpty (c ≫= presets)
       ∧ orEmpty (mergeConfigs r c ≫= plugins)
         = orEmpty (r ≫= plugins) ++ orEmpty (c ≫= plugins))
  ∧ (∀ a b c,
       orEmpty (mergeConfigs (mergeConfigs a b) c ≫= presets)
       = orEmpty (mergeConfigs a (mergeConfigs b c) ≫= presets)
       ∧ orEmpty (mergeConfigs (mergeConfigs a b) c ≫= plugins)
         = orEmpty (mergeConfigs a (mergeConfigs b c) ≫= plugins)).
Proof.
  assert (∀ r c,
       orEmpty (mergeConfigs r c ≫= presets) = orEmpty (r ≫= presets) ++ orEmpty (c ≫= presets)
       ∧ orEmpty (mergeConfigs r c ≫= plugins)
         = orEmpty (r ≫= plugins) ++ orEmpty (c ≫= plugins)) as Hcat.
  { intros r [[ps qs]|]; unfold mergeConfigs; cbn.
    - destruct ps as [[|p ps]|], qs as [[|q qs]|], r as [[rp rq]|]; cbn;
        by rewrite ?app_nil_r.
    - by rewrite !app_nil_r. }
  split_and!; [done| | |done|].
  - intros r c Hp Hq. unfold mergeConfigs. by rewrite Hp, Hq.
  - intros c Hne. unfold mergeConfigs.
    destruct (missingOrEmpty (presets c)), (missingOrEmpty (plugins c)); try done.
    by destruct Hne.
  - intros a b c.
    destruct (Hcat (mergeConfigs a b) c) as [-> ->], (Hcat a b) as [-> ->].
    destruct (Hcat a (mergeConfigs b c)) as [-> ->], (Hcat b c) as [-> ->].
    by rewrite !app_assoc.
Qed.

(** ** The flow pragma *)

#[local] Arguments String.append !_ _ : simpl nomatch.

Lemma str_app_assoc (a b c : string) : (a +:+ b) +:+ c = a +:+ (b +:+ c).
Proof. induction a as [|x a IH]; simpl; [done|by f_equal]. Qed.

Lemma str_length_app (a b : string) :
  String.length (a +:+ b) = String.length a + String.length b.
Proof. induction a as [|x a IH]; simpl; [done|by f_equal]. Qed.

Lemma length_replicate_char n c : String.length (replicate_char n c) = n.
Proof. induction n as [|n IH]; simpl; [done|by f_equal]. Qed.

Lemma prefix_spec (p s : string) : String.prefix p s = true ↔ ∃ r, s = p +:+ r.
Proof.
  revert s. induction p as [|a p IH]; intros s; destruct s as [|b s]; simpl.
  - split; [intros _; by eexists | done].
  - split; [intros _; by eexists | done].
  - split; [done|]. by intros [r [=]].
  - destruct (ascii_dec a b) as [->|Hne].
    + rewrite IH. split; [intros [r ->]; by exists r|]. intros [r [= ->]]. by exists r.
    + split; [done|]. intros [r [= -> _]]. done.
Qed.

Lemma skip_spec c (s : string) :
  ∃ n, s = replicate_char n c +:+ skip c s.
Proof.
  induction s as [|a s [n IH]]; [by exists 0|]. cbn.
  destruct (decide (a = c)) as [->|Hne]; [|by exists 0].
  exists (S n). cbn. by rewrite <- IH.
Qed.

Lemma skip_replicate c n (r : string) :
  (∀ r', r ≠ String c r') → skip c (replicate_char n c +:+ r) = r.
Proof.
  intros Hr. induction n as [|n IH]; cbn.
  - destruct r as [|a r]; [done|]. cbn. rewrite decide_False; [done|].
    intros ->. by destruct (Hr r).
  - by rewrite decide_True.
Qed.

Lemma substring_prefix (p s : string) n :
  (∃ r, substring 0 n s = p +:+ r) ↔ (String.length p ≤ n)%nat ∧ ∃ r, s = p +:+ r.
Proof.
  revert s n. induction p as [|a p IH]; intros s n.
  - cbn. split; [intros _; split; [lia|by exists s] | intros _; by eexists].
  - destruct n as [|n].
    + cbn. split; [intros [r Hr]; by destruct s | intros [? _]; lia].
    + destruct s as [|b s]; cbn.
      * split; [by intros [r [=]] | by intros [_ [r [=]]]].
      * split.
        -- intros [r [= -> Hr]]. destruct (proj1 (IH s n)) as [Hlen [r' ->]]; [by exists r|].
           split; [lia|by exists r'].
        -- intros [Hlen [r [= -> ->]]].
           destruct (proj2 (IH (p +:+ r) n)) as [r' ->]; [split; [lia|by exists r]|].
           by exists r'.
Qed.

Lemma flowPragma_spec (s : string) :
  flowPragma s = true ↔
  ∃ opener m rest, flowComment opener
    ∧ s = opener +:+ replicate_char m " " +:+ "@flow" +:+ rest.
Proof.
  split.
  - unfold flowPragma. destruct s as [|a [|b r]]; [done..|].
    destruct (decide (a = "/"%char)) as [->|]; [|done].
    destruct (decide (b = "/"%char)) as [->|Hb].
    + intros [rest Hrest]%prefix_spec. destruct (skip_spec " " r) as [m Hm].
      exists "//", m, rest. split; [by left|]. simpl. do 2 f_equal.
      by rewrite Hm at 1; rewrite Hrest.
    + destruct (decide (b = "*"%char)) as [->|]; [|done].
      intros [rest Hrest]%prefix_spec.
      destruct (skip_spec "*" r) as [k Hk].
      destruct (skip_spec " " (skip "*" r)) as [m Hm].
      exists ("/" +:+ replicate_char (S k) "*"), m, rest. split; [right; by exists k|].
      simpl. do 2 f_equal.
      rewrite Hk at 1. f_equal. rewrite Hm at 1. by rewrite Hrest.
  - intros (opener & m & rest & [->|[k ->]] & ->).
    + simpl. rewrite skip_replicate; [|by intros r' [=]].
      apply prefix_spec. by exists rest.
    + simpl. rewrite skip_replicate.
      * rewrite skip_replicate; [|by intros r' [=]].
        apply prefix_spec. by exists rest.
      * intros r'. by destruct m.
Qed.

(** X17: [getFlowConfig] asks for the flow plugin exactly when the code
    starts with a comment opener (two slashes, or a slash and one star or
    more), then any number of spaces, then [@flow], all of it within the
    first twenty characters; a pragma that starts later or ends beyond the
    twentieth character is not seen.  The config it hands back holds the
    one plugin, without options, and no presets. *)
Theorem getFlowConfig_spec (stripTypes : JSValue) (code : string) :
  (is_Some (getFlowConfig stripTypes code) ↔
   ∃ opener m rest, flowComment opener
     ∧ code = opener +:+ replicate_char m " " +:+ "@flow" +:+ rest
     ∧ (String.length opener + m + 5 ≤ 20)%nat)
  ∧ (∀ cfg, getFlowConfig stripTypes code = Some cfg →
       presets cfg = None
       ∧ plugins cfg = Some [JSArray (JSElement stripTypes JSNoElement)]).
Proof.
  split.
  - unfold getFlowConfig.
    assert (is_Some (if flowPragma (substring 0 20 code)
                     then Some (mkBabelConfig None
                                  (Some [JSArray (JSElement stripTypes JSNoElement)]))
                     else None)
            ↔ flowPragma (substring 0 20 code) = true) as ->.
    { destruct (flowPragma _); split; first [done | by intros [? [=]]]. }
    rewrite flowPragma_spec. split.
    + intros (opener & m & rest & Hop & Hsub).
      destruct (proj1 (substring_prefix (opener +:+ replicate_char m " " +:+ "@flow")
                         code 20)) as [Hlen [r ->]].
      { exists rest. by rewrite Hsub, !str_app_assoc. }
      exists opener, m, r. split; [done|]. split; [by rewrite !str_app_assoc|].
      rewrite !str_length_app, length_replicate_char in Hlen. cbn in Hlen. lia.
    + intros (opener & m & rest & Hop & -> & Hlen).
      destruct (proj2 (substring_prefix (opener +:+ replicate_char m " " +:+ "@flow")
                         (opener +:+ replicate_char m " " +:+ "@flow" +:+ rest) 20))
        as [r Hr].
      { split.
        - rewrite !str_length_app, length_replicate_char. cbn. lia.
        - exists rest. by rewrite !str_app_assoc. }
      exists opener, m, r. split; [done|]. by rewrite Hr, !str_app_assoc.
  - intros cfg. unfold getFlowConfig. destruct (flowPragma _); [|done].
    by intros [= <-].
Qed.

#[local] Arguments String.append : simpl never.

(** ** Two invariants of the graph *)

Lemma keyed_addNode n g : keyed g → keyed (addNode n g).
Proof.
  intros Hk k x. unfold getNode. cbn. rewrite get_set. case_decide as Heq.
  - by intros [= <-].
  - apply Hk.
Qed.

Lemma keyed_same g g' : nodes g' = nodes g → keyed g → keyed g'.
Proof. intros Hn Hk k x. unfold getNode. rewrite Hn. apply Hk. Qed.

Lemma closed_same g g' : nodes g' = nodes g → edges g' = edges g → closed g → closed g'.
Proof. intros Hn He Hc e. unfold getNode. rewrite Hn, He. apply Hc. Qed.

Lemma closed_addNode n g : closed g → closed (addNode n g).
Proof. intros Hc e He. apply grows_addNode. by apply Hc. Qed.

Lemma closed_link e n g :
  edge_to e = node_id n → closed g →
  closed (if hasEdge e g then g else addEdge e (addNode n g)).
Proof.
  intros Hto Hc. destruct (link_step e n g) as (_ & _ & _ & E & N).
  intros e' [He'| ->]%E; rewrite N.
  - destruct (hasEdge e g); [by apply Hc|]. case_decide; [done|by apply Hc].
  - unfold hasEdge. case_bool_decide as Hin; [by apply Hc|]. by rewrite decide_True.
Qed.

Lemma keyed_link e n g :
  keyed g → keyed (if hasEdge e g then g else addEdge e (addNode n g)).
Proof.
  intros Hk. destruct (link_step e n g) as (_ & _ & _ & _ & N).
  intros k x. rewrite N. destruct (hasEdge e g); [apply Hk|].
  case_decide as Heq; [by intros [= <-]|apply Hk].
Qed.

Lemma closed_removeNodes ds g : closed g → closed (removeNodes ds g).
Proof.
  intros Hc e (He & _ & Hto)%removeNodes_edges.
  unfold getNode. rewrite removeNodes_nodes, decide_False by done. by apply Hc.
Qed.

Lemma closed_disconnectChild st e : closed st.1 → closed (disconnectChild st e).1.
Proof.
  intros Hc. unfold disconnectChild.
  assert (closed (removeEdge e st.1)) as Hc1.
  { intros e' He'. unfold removeEdge in He'. cbn in He'.
    apply list_elem_of_filter in He' as [_ He']. by apply Hc. }
  destruct (reachableFromRoot _ _); [done|]. by apply closed_removeNodes.
Qed.

Lemma closed_disconnectAll R st : closed st.1 → closed (disconnectAll R st).1.
Proof.
  revert st. induction R as [|e R IH]; intros st Hc; [done|].
  unfold disconnectAll in *. cbn [fold_left]. apply IH. by apply closed_disconnectChild.
Qed.

Lemma closed_connectAll p ty cs st : closed st.1 → closed (connectAll p ty cs st).1.
Proof.
  revert st. induction cs as [|c cs IH]; intros st Hc; [done|].
  unfold connectAll in *. cbn [fold_left]. apply IH.
  intros e [He| ->]%connectChild_edges; unfold getNode; rewrite connectChild_nodes.
  - destruct (JSMap.has _ _); [by apply Hc|]. rewrite get_app.
    destruct (Hc e He) as [x Hx]. unfold getNode in Hx. by rewrite Hx.
  - cbn [edge_to]. destruct (JSMap.has (node_id c) (nodes st.1)) eqn:Hhas.
    + by apply has_get.
    + apply has_false in Hhas. rewrite get_app, Hhas. cbn. by rewrite decide_True.
Qed.

Lemma closed_replace fromNode toNodes ty g :
  closed g → closed (this_after (replaceNodesConnectedTo fromNode toNodes ty g)).
Proof.
  intros Hc. unfold replaceNodesConnectedTo. cbn [this_after].
  apply closed_disconnectAll. cbn [fst]. by apply closed_connectAll.
Qed.

Lemma keyed_replace fromNode toNodes ty g :
  keyed g → keyed (this_after (replaceNodesConnectedTo fromNode toNodes ty g)).
Proof.
  intros Hk k x [Hx|(_ & _ & Hid & _)]%replace_nodes_from; [by apply Hk|done].
Qed.

Lemma forEach_invariant {A} (P : AssetGraph → Prop) (xs : list A) (body : A → M unit) g :
  (∀ x g0, P g0 → P (state_of (body x g0))) → P g → P (state_of (forEach xs body g)).
Proof.
  intros Hbody. revert g. induction xs as [|x xs IH]; intros g Hg; [done|].
  cbn [forEach]. unfold bind. specialize (Hbody x g Hg).
  destruct (body x g) as [[] g1|e g1]; cbn [state_of] in *; [by apply IH|done].
Qed.

Section Invariants.
Context `{!Externals}.

Lemma invalidateNode_frame c g :
  nodes (state_of (invalidateNode c g)) = nodes g
  ∧ edges (state_of (invalidateNode c g)) = edges g.
Proof.
  unfold invalidateNode, bind, markInvalid, modify, throw.
  destruct (node_type c); try done.
  all: rewrite getActionNode_with_invalidNodes;
    by destruct (getActionNode c g) as [e|[a|]].
Qed.

Lemma connectDependencies_closed (todo : list Asset) g acc :
  closed g → closed (fold_left connectDependencies todo (g, acc)).1.
Proof.
  revert g acc. induction todo as [|a todo IH]; intros g acc Hc; [done|].
  cbn [fold_left]. unfold connectDependencies at 2. cbn [fst snd].
  apply IH. by apply closed_replace.
Qed.

Lemma connectDependencies_keyed (todo : list Asset) g acc :
  keyed g → keyed (fold_left connectDependencies todo (g, acc)).1.
Proof.
  intros Hk k x [Hx|[Hid _]]%connectDependencies_nodes_from; [by apply Hk|done].
Qed.

Lemma resolveConfigRequest_invariants result cr g :
  keyed g → closed g →
  keyed (state_of (resolveConfigRequest result cr g))
  ∧ closed (state_of (resolveConfigRequest result cr g)).
Proof.
  intros Hk Hc. unfold resolveConfigRequest, bind, modify, ret.
  set (g0 := with_invalidNodes _ (with_incompleteNodes _ g)).
  assert (keyed g0 ∧ closed g0) as [Hk0 Hc0] by done.
  set (g1 := if hasEdge _ g0 then g0 else _).
  assert (keyed g1 ∧ closed g1) as H1.
  { split; [by apply keyed_link|by apply closed_link]. }
  pose proof (forEach_invariant (λ g, keyed g ∧ closed g)
                (default [] (invalidations result)) (linkInvalidation cr) g1) as H2.
  cbn beta in H2.
  assert (keyed (state_of (forEach (default [] (invalidations result))
                             (linkInvalidation cr) g1))
          ∧ closed (state_of (forEach (default [] (invalidations result))
                                (linkInvalidation cr) g1))) as H2'.
  { apply H2; [|done]. intros i gi [Hki Hci]. rewrite linkInvalidation_run.
    destruct (getInvalidationEdgeType (action i)) as [e|ty]; cbn [state_of]; [done|].
    split; [by apply keyed_link|]. apply closed_link; [|done].
    cbn [edge_to]. by destruct (isGlob (pattern i)). }
  destruct (forEach _ _ g1) as [[] g2|e g2]; cbn [state_of] in *; [|done].
  destruct H2' as [Hk2 Hc2].
  destruct (linkDevDepRequests_spec cr (devDepRequests result) g2)
    as (_ & _ & E3 & N3 & S3 & _).
  pose proof (grows_linkDevDepRequests cr (devDepRequests result) g2) as [_ G3].
  split.
  - intros k x [Hx|(d & _ & -> & ->)]%N3; [by apply Hk2|done].
  - intros e [He|(d & Hd & ->)]%E3; [by apply G3, Hc2|].
    cbn [edge_to]. destruct (S3 d Hd) as (d' & _ & _ & ->). done.
Qed.

Lemma cascade_self g c : invalidatable g c = true → c ∈ cascade g c.
Proof.
  unfold invalidatable, cascade. destruct (node_type c); try done.
  - intros _. by left.
  - intros _. by left.
  - destruct (getActionNode c g) as [e|[a|]]; try done. intros _. by left.
  - destruct (getActionNode c g) as [e|[a|]]; try done. intros _. by left.
Qed.

(** X18: every operation keeps the [nodes] map keyed by node id and every
    edge pointing at a node of the graph, however it ends.  Both hold of
    the empty graph, hence of every graph the operations build. *)
Theorem graph_invariants :
  (keyed newAssetGraph ∧ closed newAssetGraph)
  ∧ ∀ g, keyed g → closed g →
      (∀ opts k, let g' := state_of (initializeGraph opts k g) in keyed g' ∧ closed g')
      ∧ (∀ dep req, let g' := (resolveDependency dep req g).1 in keyed g' ∧ closed g')
      ∧ (∀ req ce, let g' := (resolveTransformerRequest req ce g).1 in
                   keyed g' ∧ closed g')
      ∧ (∀ cr n, let g' := (addConfigRequest cr n g).1 in keyed g' ∧ closed g')
      ∧ (∀ result cr, let g' := state_of (resolveConfigRequest result cr g) in
                      keyed g' ∧ closed g')
      ∧ (∀ n devDep, let g' := resolveDevDepRequest n devDep g in keyed g' ∧ closed g')
      ∧ (∀ n, let g' := removeNode n g in keyed g' ∧ closed g')
      ∧ (∀ c, let g' := state_of (invalidateNode c g) in keyed g' ∧ closed g')
      ∧ (∀ action path, let g' := state_of (respondToFSChange action path g) in
                        keyed g' ∧ closed g').
Proof.
  split.
  { split; [by intros k n|]. intros e He. by apply elem_of_nil in He. }
  intros g Hk Hc. split_and!; cbn zeta.
  - intros opts k. unfold initializeGraph, bind, modify, ret, throw.
    assert (keyed (setRootNode (nodeFromRootDir (opt_rootDir opts)) g)
            ∧ closed (setRootNode (nodeFromRootDir (opt_rootDir opts)) g)) as [Hk0 Hc0].
    { split.
      - apply (keyed_same (addNode (nodeFromRootDir (opt_rootDir opts)) g)); [done|].
        by apply keyed_addNode.
      - apply (closed_same (addNode (nodeFromRootDir (opt_rootDir opts)) g)); [done..|].
        by apply closed_addNode. }
    assert (∀ ns, keyed (registerIncomplete ns
                    (this_after (replaceNodesConnectedTo (nodeFromRootDir (opt_rootDir opts))
                       ns None (setRootNode (nodeFromRootDir (opt_rootDir opts)) g))))
                  ∧ closed (registerIncomplete ns
                    (this_after (replaceNodesConnectedTo (nodeFromRootDir (opt_rootDir opts))
                       ns None (setRootNode (nodeFromRootDir (opt_rootDir opts)) g)))))
      as Hns.
    { intros ns. destruct (registerIncomplete_frame ns
        (this_after (replaceNodesConnectedTo (nodeFromRootDir (opt_rootDir opts))
           ns None (setRootNode (nodeFromRootDir (opt_rootDir opts)) g)))) as (N & E & _).
      split.
      - eapply keyed_same; [exact N|]. by apply keyed_replace.
      - eapply closed_same; [exact N|exact E|]. by apply closed_replace. }
    destruct (opt_entries opts) as [entries|].
    + destruct (opt_targets opts) as [targets|]; cbn [state_of]; [apply Hns|done].
    + destruct (opt_transformerRequest opts) as [req|]; cbn [state_of]; apply Hns.
  - intros dep req. destruct (resolveDependency_unfold dep req g) as (N & E & _).
    cbn zeta in N, E.
    split.
    + eapply keyed_same; [exact N|]. apply keyed_replace. by eapply keyed_same.
    + eapply closed_same; [exact N|exact E|]. apply closed_replace. by eapply closed_same.
  - intros req ce. rewrite resolveTransformerRequest_unfold. cbn zeta. cbn [fst].
    set (gB := this_after (replaceNodesConnectedTo _ _ (Some invalidated_by_change_to) _)).
    destruct (registerIncomplete_frame
                (fold_left connectDependencies (assets ce) (gB, [])).2
                (fold_left connectDependencies (assets ce) (gB, [])).1) as (N & E & _).
    assert (keyed gB ∧ closed gB) as [HkB HcB].
    { split.
      - apply keyed_replace, keyed_replace. by eapply keyed_same.
      - apply closed_replace, closed_replace. by eapply closed_same. }
    split.
    + eapply keyed_same; [exact N|]. by apply connectDependencies_keyed.
    + eapply closed_same; [exact N|exact E|]. by apply connectDependencies_closed.
  - intros cr n. unfold addConfigRequest. destruct (JSMap.has _ _) eqn:Hhas; [done|].
    cbn [fst]. split.
    + eapply (keyed_same (addNode cr g)); [|by apply keyed_addNode].
      unfold addEdge. by destruct (hasEdge _ _).
    + intros e [He| ->]%addEdge_edges.
      * apply grows_addEdge. by apply closed_addNode.
      * apply grows_addEdge. unfold getNode. cbn. by rewrite get_set_eq.
  - intros result cr. by apply resolveConfigRequest_invariants.
  - intros n devDep.
    destruct (resolveDevDepRequest_facts n devDep g) as (N1 & N2 & E & _).
    cbn zeta in N1, N2, E. split.
    + intros k x. destruct (decide (k = node_id (nodeFromDevDep devDep))) as [->|Hne].
      * rewrite N1. by intros [= <-].
      * rewrite N2 by done. apply Hk.
    + intros e [He| ->]%E.
      * destruct (decide (edge_to e = node_id (nodeFromDevDep devDep))) as [->|Hne].
        -- by rewrite N1.
        -- rewrite N2 by done. by apply Hc.
      * cbn [edge_to]. by rewrite N1.
  - intros n. split.
    + intros k x. unfold removeNode, Graph_removeNode, getNode. cbn.
      intros Hx%get_delete_Some. by apply Hk.
    + intros e. unfold removeNode, Graph_removeNode, getNode.
      cbn [nodes edges with_edges with_nodes with_incompleteNodes].
      intros [[_ Hto] He]%list_elem_of_filter. rewrite get_delete_ne by done.
      by apply Hc.
  - intros c. destruct (invalidateNode_frame c g) as [N E].
    split; [by eapply keyed_same|by eapply closed_same].
  - intros action path.
    destruct (respondToFSChange_any_outcome action path g) as (N & E & _).
    split; [by eapply keyed_same|by eapply closed_same].
Qed.

(** ** From a config's invalidations to the request's invalidation *)

(** X19: once [resolveConfigRequest] has returned, a filesystem event
    carrying the action and the pattern of one of the invalidations hands
    the config request (the node stored under its id) to [invalidateNode];
    and when that event can be handled (every node it reaches can be
    invalidated) the request ends up marked invalid. *)
Theorem config_invalidation_reaches_request (result : ConfigResult) (cr : Node)
    (g : AssetGraph) (i : Invalidation) (ty : EdgeType) :
  keyed g → closed g →
  (∀ j, j ∈ default [] (invalidations result) → action j ∈ ["change"; "add"; "unlink"]) →
  i ∈ default [] (invalidations result) →
  getInvalidationEdgeType (action i) = inr ty →
  ∃ g' out, resolveConfigRequest result cr g = Ok out g'
    ∧ ∀ cr', getNode (node_id cr) g' = Some cr' →
        cr' ∈ fsTargets (action i) (pattern i) ty g'
        ∧ (forallb (invalidatable g') (fsTargets (action i) (pattern i) ty g') = true →
           ∃ g'', respondToFSChange (action i) (pattern i) g' = Ok tt g''
                  ∧ JSMap.has (node_id cr) (invalidNodes g'') = true).
Proof.
  intros Hk Hc Hrec Hi Hty.
  destruct (resolveConfigRequest_invariants result cr g Hk Hc) as [Hk' Hc'].
  destruct (resolveConfigRequest_ok result cr g Hrec) as (g' & Hrun & _ & _ & E & _).
  rewrite Hrun in Hk', Hc'. cbn [state_of] in Hk', Hc'.
  exists g', (nodeFromDevDepRequest <$> devDepRequests result). split; [done|].
  intros cr' Hcr'.
  assert (mkEdge (node_id cr) (pattern i) (Some ty) ∈ edges g') as Hedge.
  { apply E. right. right. left. by exists i, ty. }
  destruct (Hc' _ Hedge) as [f Hf]. cbn [edge_to] in Hf.
  pose proof (Hk' _ _ Hf) as Hfid.
  assert (cr' ∈ fsTargets (action i) (pattern i) ty g') as Hin.
  { unfold fsTargets. unfold getNode in Hf. rewrite Hf. apply elem_of_app. left.
    unfold getNodesConnectedTo. apply list_elem_of_omap.
    exists (mkEdge (node_id cr) (pattern i) (Some ty)). split; [|done].
    apply list_elem_of_filter. by rewrite Hfid. }
  split; [done|]. intros Hall.
  pose proof (respondToFSChange_ok (action i) (pattern i) ty g' (λ m, m) Hty Hall) as Hok.
  rewrite with_invalidNodes_id in Hok.
  eexists. split; [exact Hok|]. cbn [invalidNodes with_invalidNodes].
  apply has_markAll. right. apply elem_of_flat_map_cascade.
  exists cr'. split; [done|].
  rewrite <- (Hk' _ _ Hcr'). apply list_elem_of_fmap_2. apply cascade_self.
  rewrite forallb_forall in Hall. apply Hall. by apply list_elem_of_In.
Qed.

End Invariants.

(** ** Resolving again *)

Lemma indices_unchanged f1 f2 g :
  f1 (incompleteNodes g) = incompleteNodes g → f2 (invalidNodes g) = invalidNodes g →
  with_invalidNodes f2 (with_incompleteNodes f1 g) = g.
Proof.
  destruct g as [ns es r inc inv]. unfold with_invalidNodes, with_incompleteNodes. cbn.
  by intros -> ->.
Qed.

Section Again.
Context `{!Externals}.

(** X20: resolving a dependency a second time to the same request changes
    nothing and reports nothing: no new request node, no pruned file. *)
Theorem resolveDependency_idempotent (dep : Dependency) (req : TransformerRequest)
    (g : AssetGraph) :
  dep_id dep ≠ node_id (nodeFromTransformerRequest req) →
  reachableFromRoot g (dep_id dep) = true →
  let g1 := (resolveDependency dep req g).1 in
  resolveDependency dep req g1 = (g1, mkDepUpdates None []).
Proof.
  intros Hne Hreach. cbn zeta.
  set (requestNode := nodeFromTransformerRequest req).
  set (g0 := with_invalidNodes (JSMap.delete (dep_id dep))
               (with_incompleteNodes (JSMap.delete (dep_id dep)) g)).
  set (r := replaceNodesConnectedTo (nodeFromDep dep) [requestNode] None g0).
  set (g1 := (resolveDependency dep req g).1).
  assert (nodes g1 = nodes (this_after r) ∧ edges g1 = edges (this_after r)
          ∧ invalidNodes g1 = invalidNodes (this_after r)
          ∧ ∀ k, k ≠ node_id requestNode →
                 JSMap.get k (incompleteNodes g1) = JSMap.get k (incompleteNodes (this_after r)))
    as (Hnodes & Hedges & Hinvalid & Hincomplete).
  { unfold g1, resolveDependency. change (node_id (nodeFromDep dep)) with (dep_id dep).
    fold requestNode g0 r. cbn [fst].
    destruct (negb _); [|done]. split_and!; try done.
    intros k Hk. cbn. by rewrite get_set_ne. }
  apply reachableFromRoot_rtc in Hreach as (r0 & Hroot & Hdep).
  assert (rootNodeId g0 = Some r0) as Hroot0 by done.
  assert (rtc (edge_rel (targetEdges (node_id (nodeFromDep dep)) None [requestNode]
                           (edges g0))) r0 (node_id (nodeFromDep dep))) as Hsafe.
  { apply rtc_target_avoiding. by apply rtc_cut. }
  pose proof (linkedTo_established (nodeFromDep dep) [requestNode] None g0 r0 Hroot0 Hsafe)
    as [Llow Lup].
  fold r in Llow, Lup.
  assert (linkedTo g1 (node_id (nodeFromDep dep)) None (node_id <$> [requestNode])) as Hlinked.
  { split.
    - intros k Hk. unfold getNode. rewrite Hnodes, Hedges. by apply Llow.
    - intros e. rewrite Hedges. apply Lup. }
  destruct (replace_sub (nodeFromDep dep) [requestNode] None g0) as (_ & _ & Sub).
  destruct (replace_frame (nodeFromDep dep) [requestNode] None g0) as [_ Hframe].
  fold r in Sub, Hframe.
  assert (JSMap.get (dep_id dep) (incompleteNodes g1) = None) as Hinc.
  { rewrite Hincomplete by done.
    destruct (JSMap.get (dep_id dep) (incompleteNodes (this_after r))) as [n|] eqn:Hn; [|done].
    apply Sub in Hn. cbn in Hn. by rewrite get_delete_eq in Hn. }
  assert (JSMap.get (dep_id dep) (invalidNodes g1) = None) as Hinv.
  { rewrite Hinvalid, Hframe. cbn. apply get_delete_eq. }
  unfold resolveDependency at 1. change (node_id (nodeFromDep dep)) with (dep_id dep).
  cbn zeta. rewrite (indices_unchanged _ _ g1) by (by apply delete_absent).
  fold requestNode. rewrite (linkedTo_noop (nodeFromDep dep) [requestNode] None g1 Hlinked).
  done.
Qed.

Lemma linkInvalidations_again cr invs g :
  (∀ i, i ∈ invs → ∃ ty, getInvalidationEdgeType (action i) = inr ty
                         ∧ mkEdge (node_id cr) (pattern i) (Some ty) ∈ edges g) →
  forEach invs (linkInvalidation cr) g = Ok tt g.
Proof.
  induction invs as [|i invs IH]; intros Hall; [done|].
  cbn [forEach]. unfold bind. rewrite linkInvalidation_run.
  destruct (Hall i) as (ty & -> & He); [by left|].
  unfold hasEdge. rewrite bool_decide_eq_true_2 by done.
  apply IH. intros j Hj. apply Hall. by right.
Qed.

Lemma linkDevDepRequests_again cr ds g :
  (∀ d, d ∈ ds → mkEdge (node_id cr) (node_id (nodeFromDevDepRequest d)) (Some configures)
                  ∈ edges g) →
  fold_left (λ g r, linkDevDepRequest cr r g) ds g
  = with_nodes (markAll (nodeFromDevDepRequest <$> ds)) g.
Proof.
  revert g. induction ds as [|d ds IH]; intros g Hall.
  - by destruct g.
  - cbn [fold_left].
    assert (linkDevDepRequest cr d g = addNode (nodeFromDevDepRequest d) g) as ->.
    { unfold linkDevDepRequest, hasEdge. rewrite bool_decide_eq_true_2; [done|].
      apply Hall. by left. }
    rewrite IH; [done|]. intros d' Hd'. apply Hall. by right.
Qed.

Lemma linkDevDepRequests_nodes cr ds g :
  nodes (fold_left (λ g r, linkDevDepRequest cr r g) ds g)
  = markAll (nodeFromDevDepRequest <$> ds) (nodes g).
Proof.
  revert g. induction ds as [|d ds IH]; intros g; [done|].
  cbn [fold_left]. rewrite IH.
  destruct (linkDevDepRequest_step cr d g) as (-> & _). done.
Qed.

(** X21: resolving a config request a second time with the same result
    returns the same nodes and leaves the graph and both indices as the
    first call left them, as long as no dev-dep request has got the
    request's own id. *)
Theorem resolveConfigRequest_idempotent (result : ConfigResult) (cr : Node)
    (g : AssetGraph) :
  (∀ i, i ∈ default [] (invalidations result) → action i ∈ ["change"; "add"; "unlink"]) →
  (∀ d, d ∈ devDepRequests result → node_id (nodeFromDevDepRequest d) ≠ node_id cr) →
  ∃ g' out, resolveConfigRequest result cr g = Ok out g'
    ∧ resolveConfigRequest result cr g' = Ok out g'.
Proof.
  intros Hrec Hids.
  destruct (resolveConfigRequest_ok result cr g Hrec)
    as (g' & Hrun & _ & Hinv & E & _ & _ & Hinc & _).
  exists g', (nodeFromDevDepRequest <$> devDepRequests result). split; [done|].
  assert (nodes g' = markAll (nodeFromDevDepRequest <$> devDepRequests result) (nodes g'))
    as Hnodes.
  { revert Hrun. unfold resolveConfigRequest, bind, modify, ret.
    destruct (forEach _ _ _) as [[] g2|e g2]; [|done]. intros [= <-].
    by rewrite linkDevDepRequests_nodes, markAll_idem. }
  unfold resolveConfigRequest, bind, modify, ret.
  rewrite (indices_unchanged _ _ g').
  - unfold hasEdge at 1. rewrite bool_decide_eq_true_2 by (apply E; right; by left).
    rewrite linkInvalidations_again.
    + rewrite linkDevDepRequests_again.
      * f_equal. destruct g' as [ns es r inc inv]. unfold with_nodes. cbn in *.
        by rewrite <- Hnodes.
      * intros d Hd. apply E. right. right. right. by exists d.
    + intros i Hi. destruct (proj1 (getInvalidationEdgeType_cases (action i))) as [ty Hty];
        [by apply Hrec|].
      exists ty. split; [done|]. apply E. right. right. left. by exists i, ty.
  - apply delete_absent.
    destruct (JSMap.get (node_id cr) (incompleteNodes g')) as [n|] eqn:Hn; [|done].
    apply Hinc in Hn as [[Hne _]|(d & Hd & -> & Hid & _)]; [done|].
    by destruct (Hids d Hd).
  - rewrite Hinv. apply delete_delete.
Qed.

End Again.

(** ** Invalidating a dev-dep request that [resolveConfigRequest] linked *)

Section LinkedDevDepRequest.
Context `{!Externals}.

(** A call that returns has met recognised actions only. *)
Lemma resolveConfigRequest_returned result cr g out g' :
  resolveConfigRequest result cr g = Ok out g' →
  ∀ i, i ∈ default [] (invalidations result) → action i ∈ ["change"; "add"; "unlink"].
Proof.
  intros Hrun i Hi.
  destruct (decide (Exists (λ i, action i ∉ ["change"; "add"; "unlink"])
                           (default [] (invalidations result)))) as [Hex|Hall].
  - destruct (first_such (λ i, action i ∉ ["change"; "add"; "unlink"])
                (default [] (invalidations result)) Hex)
      as (pre & x & post & Hsplit & Hpre & Hx).
    destruct (resolveConfigRequest_throw result cr g pre x post Hsplit) as (g1 & Hthrow & _);
      [|done|congruence].
    intros j Hj. destruct (decide (action j ∈ ["change"; "add"; "unlink"])); [done|].
    by destruct (Hpre j Hj).
  - destruct (decide (action i ∈ ["change"; "add"; "unlink"])); [done|].
    destruct Hall. apply Exists_exists. by exists i.
Qed.

(** X22: a dev-dep request hangs off its config request by the
    [configures] edge [resolveConfigRequest] makes, and [getActionNode]
    looks for the parents along default edges.  So, no default edge having
    led to the request before and its id not being the config node's,
    once [resolveConfigRequest] has returned there is no parent to find:
    [invalidateNode] on the request marks the request and ends in a
    [TypeError], with nothing else marked. *)
Theorem linked_dev_dep_request_has_no_action_node (result : ConfigResult) (cr : Node)
    (g : AssetGraph) (d : JSValue) :
  let n := nodeFromDevDepRequest d in
  d ∈ devDepRequests result →
  (∀ e, e ∈ edges g → edge_to e = node_id n → edge_type e ≠ None) →
  node_id n ≠ node_id (nodeFromConfig (config result)) →
  ∀ out g', resolveConfigRequest result cr g = Ok out g' →
    mkEdge (node_id cr) (node_id n) (Some configures) ∈ edges g'
    ∧ getNodesConnectedTo n None g' = []
    ∧ invalidateNode n g'
      = Throw TypeError (with_invalidNodes (JSMap.set (node_id n) n) g').
Proof.
  cbn zeta. intros Hd Hnone Hcfg out g' Hrun.
  pose proof (resolveConfigRequest_returned result cr g out g' Hrun) as Hrec.
  destruct (resolveConfigRequest_ok result cr g Hrec) as (g'' & Hrun' & _ & _ & E & _).
  assert (g'' = g') as -> by congruence.
  assert (getNodesConnectedTo (nodeFromDevDepRequest d) None g' = []) as Hparents.
  { unfold getNodesConnectedTo.
    match goal with |- omap _ ?l = [] => assert (l = []) as ->; [|done] end.
    apply elem_of_nil_inv. intros e [[Hto Hty] He]%list_elem_of_filter.
    apply E in He as [He|[->|[(i & ty & _ & _ & ->)|(d' & _ & ->)]]]; try done.
    by apply (Hnone e). }
  split_and!.
  - apply E. right. right. right. by exists d.
  - done.
  - unfold invalidateNode. cbn [node_type nodeFromDevDepRequest node_value].
    unfold bind, markInvalid, modify. rewrite getActionNode_with_invalidNodes.
    unfold getActionNode, first. cbn [node_type nodeFromDevDepRequest node_value].
    by rewrite Hparents.
Qed.

End LinkedDevDepRequest.

(** ** Checking the two invariants entry by entry *)

Lemma keyed_entries g : Forall (λ kn, node_id kn.2 = kn.1) (nodes g) → keyed g.
Proof.
  unfold keyed, getNode. generalize (nodes g). intros m Hm k n.
  induction Hm as [|[k' n'] m Hkn _ IH]; cbn; [done|].
  case_decide as Hk; [|done]. intros [= <-]. by rewrite <- Hk.
Qed.

Lemma closed_entries g :
  Forall (λ e, is_Some (getNode (edge_to e) g)) (edges g) → closed g.
Proof. intros Hall e He. by apply (proj1 (Forall_forall _ _) Hall). Qed.

(** * Worked cases *)

Section WorkedCases.
Import Examples.
Existing Instance ext.

Ltac decide_by_computation := apply (bool_decide_unpack _); vm_compute; exact I.


(** Where a default edge is put in by hand, so that the walk of
    [getActionNode] finds its way from [devDepGraph]'s dev-dep request,
    the request and the transformer request two edges back are marked; the
    config request in between is still not. *)
Lemma default_edge_walk_skips_config_request :
  getNodesConnectedTo devDepNode None devDepGraph = [babelRequestNode]
  ∧ getNodesConnectedTo babelRequestNode None devDepGraph = [indexNode]
  ∧ ∃ g', invalidateNode devDepNode devDepGraph = Ok tt g'
      ∧ JSMap.has (node_id devDepNode) (invalidNodes g') = true
      ∧ JSMap.has (node_id indexNode) (invalidNodes g') = true
      ∧ JSMap.has (node_id babelRequestNode) (invalidNodes g') = false.
Proof.
  split_and!; [by vm_compute | by vm_compute |].
  eexists. split_and!; [by vm_compute | by vm_compute..].
Qed.


(** A change to the file a config depends on marks the config request,
    which is connected to the file, and also the transformer request that
    asked for the config, which is not. *)
Lemma change_event_marks_the_action_node :
  JSMap.get babelrc (nodes configuredGraph) = Some (nodeFromFile (mkFile babelrc))
  ∧ getNodesConnectedTo (nodeFromFile (mkFile babelrc)) (Some invalidated_by_change_to)
      configuredGraph = [babelRequestNode]
  ∧ JSMap.has (node_id indexNode) (invalidNodes configuredGraph) = false
  ∧ ∃ g', respondToFSChange "change" babelrc configuredGraph = Ok tt g'
      ∧ JSMap.has (node_id babelRequestNode) (invalidNodes g') = true
      ∧ JSMap.has (node_id indexNode) (invalidNodes g') = true.
Proof.
  split_and!; [by vm_compute..|].
  eexists. split_and!; [by vm_compute | by vm_compute..].
Qed.

Lemma respondToFSChange_marks_witness :
  getInvalidationEdgeType "add" = inr invalidated_by_addition_matching
  ∧ (∀ c, fsTarget "add" "/proj/new.js" invalidated_by_addition_matching watchedGraph c →
          invalidatable watchedGraph c = true)
  ∧ getNode "/proj/new.js" watchedGraph = None
  ∧ fsTarget "add" "/proj/new.js" invalidated_by_addition_matching watchedGraph
      babelRequestNode
  ∧ ∃ g', respondToFSChange "add" "/proj/new.js" watchedGraph = Ok tt g'
      ∧ edges g' = edges watchedGraph
      ∧ JSMap.has (node_id babelRequestNode) (invalidNodes g') = true
      ∧ JSMap.has (node_id indexNode) (invalidNodes g') = true.
Proof.
  assert (∀ c, fsTarget "add" "/proj/new.js" invalidated_by_addition_matching
                 watchedGraph c → invalidatable watchedGraph c = true) as Hall.
  { intros c Hc%fsTargets_spec. vm_compute in Hc.
    apply list_elem_of_singleton in Hc. subst c. by vm_compute. }
  assert (fsTarget "add" "/proj/new.js" invalidated_by_addition_matching watchedGraph
            babelRequestNode) as Htarget.
  { right. split; [done|]. exists (nodeFromGlob "**"), "**". split_and!.
    - apply (get_Some_values "**"). by vm_compute.
    - done.
    - done.
    - vm_compute. by left. }
  split_and!; [done| done | by vm_compute | done |].
  destruct (respondToFSChange_marks "add" "/proj/new.js" invalidated_by_addition_matching
              watchedGraph eq_refl Hall) as (g' & Hok & _ & He & _ & _ & Hmarked & _).
  exists g'. split_and!; [done|done| |].
  - apply Hmarked. right. exists babelRequestNode. split; [done|]. vm_compute. by left.
  - apply Hmarked. right. exists babelRequestNode. split; [done|]. vm_compute.
    right. by left.
Defined.


Lemma structural_sharing_witness :
  node_id (nodeFromTransformerRequest reqA) = node_id (nodeFromTransformerRequest reqA')
  ∧ newRequestNode (resolveDependency depB reqA' oneResolved).2 = None
  ∧ hasEdge (mkEdge (dep_id depA) (node_id (nodeFromTransformerRequest reqA')) None)
      bothResolved = true
  ∧ hasEdge (mkEdge (dep_id depB) (node_id (nodeFromTransformerRequest reqA')) None)
      bothResolved = true
  ∧ getNode (node_id (nodeFromTransformerRequest reqA))
      (this_after (replaceNodesConnectedTo (nodeFromAsset asset1) [nodeFromDep depA] None
                     bothResolved))
    = Some (nodeFromTransformerRequest reqA).
Proof.
  destruct structural_sharing as (Hid & Hshare & Hkeep & _).
  destruct (Hshare oneResolved depA depB reqA' (nodeFromTransformerRequest reqA))
    as (Hnone & _ & _ & HedgeA & HedgeB).
  { by vm_compute. }
  { decide_by_computation. }
  { decide_by_computation. }
  { by vm_compute. }
  { by vm_compute. }
  split_and!; [by apply Hid | done..|].
  - apply (Hkeep bothResolved (nodeFromAsset asset1) [nodeFromDep depA] None
             (mkEdge (dep_id depA) (node_id (nodeFromTransformerRequest reqA)) None)).
    + decide_by_computation.
    + intros (Hfrom & _). by vm_compute in Hfrom.
    + by vm_compute.
    + by vm_compute.
Defined.





Lemma invalidation_errors_witness :
  ("rename" ∉ ["change"; "add"; "unlink"])
  ∧ throws (respondToFSChange "rename" "/proj/index.js" requestedGraph) = true
  ∧ (node_type (nodeFromFile (mkFile babelrc))
       ∉ [dependency; transformer_request; config_request; dev_dep_request])
  ∧ throws (invalidateNode (nodeFromFile (mkFile babelrc)) configuredGraph) = true.
Proof.
  assert ("rename" ∉ ["change"; "add"; "unlink"]) as Hact by decide_by_computation.
  assert (node_type (nodeFromFile (mkFile babelrc))
            ∉ [dependency; transformer_request; config_request; dev_dep_request]) as Hty
    by decide_by_computation.
  destruct invalidation_errors as (_ & _ & _ & Hactions & Htypes).
  split_and!; [done| |done|].
  - by apply (Hactions "rename" Hact).
  - by rewrite (Htypes _ configuredGraph Hty).
Defined.



(** Where the dev-dep request hangs off its config request by the
    [configures] edge, the unfiltered query of [getActionNode] finds no
    parent: the request is marked and the call ends in a [TypeError]. *)
Lemma configures_edge_is_not_walked :
  hasEdge (mkEdge (node_id babelRequestNode) (node_id devDepNode) (Some configures))
    configuresGraph = true
  ∧ getNodesConnectedTo devDepNode None configuresGraph = []
  ∧ invalidateNode devDepNode configuresGraph =
      Throw TypeError
        (with_invalidNodes (JSMap.set (node_id devDepNode) devDepNode) configuresGraph).
Proof. split_and!; by vm_compute. Qed.

(** A dependency pruned while it is marked invalid: it is gone from the
    graph and from [incompleteNodes], and still in [invalidNodes]; the
    request both imports resolved to stays, the other import referencing
    it. *)
Lemma pruned_dependency_stays_invalid :
  getNode (dep_id depB) invalidatedGraph = Some (nodeFromDep depB)
  ∧ getNode (dep_id depB) retransformedGraph = None
  ∧ JSMap.has (dep_id depB) (incompleteNodes retransformedGraph) = false
  ∧ JSMap.has (dep_id depB) (invalidNodes retransformedGraph) = true
  ∧ getNode (node_id (nodeFromTransformerRequest reqA)) retransformedGraph
    = Some (nodeFromTransformerRequest reqA).
Proof. split_and!; by vm_compute. Qed.

(** ** The further properties at work *)

Lemma Config_serialize_new_witness :
  NoDup (Config.includedFiles babelConfig)
  ∧ NoDup (JSMap.keys (Config.devDeps babelConfig))
  ∧ Config.new (Config.serialize babelConfig) = babelConfig.
Proof.
  assert (NoDup (Config.includedFiles babelConfig)) as Hset by decide_by_computation.
  assert (NoDup (JSMap.keys (Config.devDeps babelConfig))) as Hmap by decide_by_computation.
  split_and!; [done..|].
  destruct (Config_serialize_new babelConfig Hset Hmap) as (_ & Hsame & _).
  apply Hsame; [by right|done|done].
Defined.

Lemma Config_collections_witness :
  NoDup (Config.includedFiles (Config.new babelOpts))
  ∧ NoDup (JSMap.keys (Config.devDeps (Config.new babelOpts)))
  ∧ NoDup (Config.includedFiles (Config.addIncludedFile babelrc (Config.new babelOpts)))
  ∧ NoDup (JSMap.keys (Config.devDeps
             (Config.setDevDep "@babel/core" None (Config.new babelOpts)))).
Proof.
  assert (NoDup (Config.includedFiles (Config.new babelOpts))) as Hset
    by decide_by_computation.
  assert (NoDup (JSMap.keys (Config.devDeps (Config.new babelOpts)))) as Hmap
    by decide_by_computation.
  destruct (Config_collections babelOpts) as [_ Hkeep].
  destruct (Hkeep (Config.new babelOpts) Hset Hmap) as [Hadd Hdev].
  split_and!; [done|done| |].
  - apply (Hadd babelrc).
  - apply (Hdev "@babel/core" None).
Defined.

Lemma Config_devDeps_witness :
  "@babel/core" ≠ "@babel/preset-env"
  ∧ Config.getDevDepVersion "@babel/preset-env"
      (Config.setDevDep "@babel/core" (Some "7.2.0") babelConfig)
    = Config.getDevDepVersion "@babel/preset-env" babelConfig
  ∧ Config.getDevDepVersion "@babel/core" (Config.new babelOpts) = Some "7.1.0".
Proof.
  assert ("@babel/core" ≠ "@babel/preset-env") as Hne by decide_by_computation.
  destruct Config_devDeps as (_ & Hother & _ & Hnew).
  split_and!; [done| |].
  - by apply Hother.
  - by rewrite Hnew.
Defined.

Lemma resolveConfigRequest_failure_witness :
  default [] (invalidations renameResult)
    = [mkInvalidation "change" babelrc]
      ++ mkInvalidation "rename" "/proj/package.json" :: [mkInvalidation "add" "/proj/*.js"]
  ∧ (∀ j, j ∈ [mkInvalidation "change" babelrc] → action j ∈ ["change"; "add"; "unlink"])
  ∧ ("rename" ∉ ["change"; "add"; "unlink"])
  ∧ throws (resolveConfigRequest renameResult babelRequestNode askedGraph) = true
  ∧ ∃ g', resolveConfigRequest renameResult babelRequestNode askedGraph =
            Throw (Error ("Unrecognized invalidation action " +:+ dquote +:+ "rename"
                          +:+ dquote)) g'
      ∧ hasEdge (mkEdge (node_id babelRequestNode) babelrc (Some invalidated_by_change_to)) g'
        = true.
Proof.
  assert (∀ j, j ∈ [mkInvalidation "change" babelrc] →
               action j ∈ ["change"; "add"; "unlink"]) as Hpre.
  { intros j Hj. apply list_elem_of_singleton in Hj. subst j. decide_by_computation. }
  assert ("rename" ∉ ["change"; "add"; "unlink"]) as Hbad by decide_by_computation.
  destruct (resolveConfigRequest_failure renameResult babelRequestNode askedGraph)
    as [Hthrows Hfirst].
  destruct (Hfirst [mkInvalidation "change" babelrc]
              (mkInvalidation "rename" "/proj/package.json")
              [mkInvalidation "add" "/proj/*.js"] eq_refl Hpre Hbad)
    as (g' & Hrun & _ & _ & _ & Hlinked & _).
  split_and!; [done..| |].
  - apply Hthrows. exists (mkInvalidation "rename" "/proj/package.json").
    split; [|done]. right. by left.
  - exists g'. split; [done|].
    apply (Hlinked (mkInvalidation "change" babelrc)); [by left|done].
Defined.

Lemma resolveConfigRequest_returns_witness :
  (∀ i, i ∈ default [] (invalidations fullResult) → action i ∈ ["change"; "add"; "unlink"])
  ∧ ∃ g', resolveConfigRequest fullResult babelRequestNode askedGraph = Ok [devDepNode] g'
      ∧ is_Some (JSMap.get (node_id devDepNode) (incompleteNodes g'))
      ∧ JSMap.get (node_id babelRequestNode) (invalidNodes g') = None.
Proof.
  assert (∀ i, i ∈ default [] (invalidations fullResult) →
               action i ∈ ["change"; "add"; "unlink"]) as Hrec.
  { apply Forall_forall. decide_by_computation. }
  split; [done|].
  destruct (resolveConfigRequest_returns fullResult babelRequestNode askedGraph Hrec)
    as (g' & Hrun & _ & Hinv & _ & _ & Hnew & _).
  exists g'. split_and!; [done| |].
  - apply (Hnew (JSString "@babel/core")); [by left|decide_by_computation].
  - rewrite Hinv. apply get_delete_eq.
Defined.

Lemma Config_invalidations_accepted_witness :
  Config.resolvedPath babelConfig = Some babelrc
  ∧ mapM asInvalidation (Config.getInvalidations babelConfig) = Some babelInvalidations
  ∧ throws (resolveConfigRequest fullResult babelRequestNode askedGraph) = false.
Proof.
  split; [done|].
  destruct (Config_invalidations_accepted babelConfig babelrc eq_refl)
    as (invs & Hinvs & _ & _ & Hruns).
  assert (invs = babelInvalidations) as ->.
  { unfold babelInvalidations. by rewrite Hinvs. }
  split; [done|]. apply Hruns.
Defined.

Lemma resolve_indices_witness :
  invalidNodes (resolveDependency depB reqA' invalidatedGraph).1
  = JSMap.delete (dep_id depB) (invalidNodes invalidatedGraph)
  ∧ invalidNodes (resolveDevDepRequest devDepNode babelCore configuresGraph)
    = invalidNodes configuresGraph.
Proof.
  destruct resolve_indices as (Hdep & _ & Hdev).
  split.
  - by destruct (Hdep depB reqA' invalidatedGraph).
  - by destruct (Hdev devDepNode babelCore configuresGraph).
Defined.

Lemma resolveDevDepRequest_spec_witness :
  getNode (node_id (nodeFromDevDep babelCore))
    (resolveDevDepRequest devDepNode babelCore configuresGraph)
  = Some (nodeFromDevDep babelCore)
  ∧ resolveDevDepRequest devDepNode babelCore
      (resolveDevDepRequest devDepNode babelCore configuresGraph)
    = resolveDevDepRequest devDepNode babelCore configuresGraph.
Proof.
  destruct (resolveDevDepRequest_spec devDepNode babelCore configuresGraph)
    as (Hnode & _ & _ & _ & _ & Hagain).
  by split.
Defined.

Lemma addConfigRequest_first_requester_witness :
  getNode (node_id babelRequestNode) requestedGraph = None
  ∧ (∀ e, e ∈ edges requestedGraph → is_Some (getNode (edge_to e) requestedGraph))
  ∧ addConfigRequest babelRequestNode (nodeFromDep entryDep) askedGraph
    = (askedGraph, babelRequestNode)
  ∧ getNodesConnectedTo babelRequestNode None askedGraph = [indexNode].
Proof.
  assert (getNode (node_id babelRequestNode) requestedGraph = None) as Hnew
    by (by vm_compute).
  assert (∀ e, e ∈ edges requestedGraph → is_Some (getNode (edge_to e) requestedGraph))
    as Hclosed.
  { apply Forall_forall. decide_by_computation. }
  destruct (addConfigRequest_first_requester babelRequestNode indexNode (nodeFromDep entryDep)
              requestedGraph Hnew Hclosed) as (Hsecond & _ & _ & Hparent).
  split_and!; [done..|].
  apply Hparent; [done|by vm_compute].
Defined.

Lemma respondToFSChange_only_marks_witness :
  nodes (state_of (respondToFSChange "change" babelrc configuredGraph)) = nodes configuredGraph
  ∧ edges (state_of (respondToFSChange "rename" babelrc configuredGraph))
    = edges configuredGraph.
Proof.
  split.
  - by destruct (respondToFSChange_only_marks "change" babelrc configuredGraph).
  - by destruct (respondToFSChange_only_marks "rename" babelrc configuredGraph) as (_ & ? & _).
Defined.

Lemma invalidation_idempotent_witness :
  getInvalidationEdgeType "change" = inr invalidated_by_change_to
  ∧ forallb (invalidatable configuredGraph)
      (fsTargets "change" babelrc invalidated_by_change_to configuredGraph) = true
  ∧ ∃ g', respondToFSChange "change" babelrc configuredGraph = Ok tt g'
      ∧ respondToFSChange "change" babelrc g' = Ok tt g'.
Proof.
  assert (forallb (invalidatable configuredGraph)
            (fsTargets "change" babelrc invalidated_by_change_to configuredGraph) = true)
    as Hall by (by vm_compute).
  split_and!; [done..|].
  destruct invalidation_idempotent as [_ Hevents].
  apply (Hevents "change" babelrc invalidated_by_change_to configuredGraph eq_refl Hall).
Defined.

Lemma initializeGraph_without_entries_witness :
  node_id indexNode ≠ "/proj"
  ∧ getNode (node_id indexNode) newAssetGraph = None
  ∧ ∃ g', initializeGraph (mkAssetGraphOpts None None (Some indexReq) "/proj") 0
            newAssetGraph = Ok tt g'
      ∧ getNode (node_id indexNode) g' = Some indexNode
      ∧ JSMap.get (node_id indexNode) (incompleteNodes g') = Some indexNode.
Proof.
  assert (node_id indexNode ≠ "/proj") as Hne by decide_by_computation.
  split_and!; [done..|].
  destruct (initializeGraph_without_entries
              (mkAssetGraphOpts None None (Some indexReq) "/proj") 0 newAssetGraph)
    as [Hnone _].
  destruct (Hnone eq_refl) as (Hreq & _ & _).
  destruct (Hreq indexReq eq_refl Hne eq_refl) as (g' & Hrun & _ & _ & Hnode & Hinc & _).
  exists g'. by split_and!.
Defined.

Lemma getDependencies_spec_witness :
  NoDup (asset_id <$> assets indexResult)
  ∧ reachableAvoiding (asset_id <$> assets indexResult) requestedGraph
      (node_id (nodeFromTransformerRequest indexReq)) = true
  ∧ keyed requestedGraph
  ∧ ∃ ds, getDependencies asset1 transformedGraph = inr ds
      ∧ depA ∈ ds ∧ depB ∈ ds.
Proof.
  assert (NoDup (asset_id <$> assets indexResult)) as Hnd by decide_by_computation.
  assert (reachableAvoiding (asset_id <$> assets indexResult) requestedGraph
            (node_id (nodeFromTransformerRequest indexReq)) = true) as Hreach
    by (by vm_compute).
  assert (keyed requestedGraph) as Hkeyed.
  { apply keyed_entries. decide_by_computation. }
  assert (asset1 ∈ assets indexResult) as Ha by (by left).
  assert (∀ d, d ∈ dependencies asset1 → d = depA ∨ d = depB) as Hdeps.
  { intros d Hd. apply elem_of_cons in Hd as [->|Hd]; [by left|].
    apply list_elem_of_singleton in Hd. by right. }
  assert (∀ d n, d ∈ dependencies asset1 → getNode (dep_id d) requestedGraph = Some n →
                 n = nodeFromDep d) as Hold.
  { intros d n [->| ->]%Hdeps Hn; vm_compute in Hn; discriminate Hn. }
  assert (∀ a' d' d, a' ∈ assets indexResult → d' ∈ dependencies a' →
                     d ∈ dependencies asset1 → dep_id d' = dep_id d → d' = d) as Hids.
  { intros a' d' d Ha'. apply list_elem_of_singleton in Ha'. subst a'.
    intros [->| ->]%Hdeps [->| ->]%Hdeps Hid; try done; vm_compute in Hid; discriminate Hid. }
  assert (∀ d, d ∈ dependencies asset1 →
               (dep_id d ∉ asset_id <$> assets indexResult)
               ∧ dep_id d ≠ req_filePath indexReq) as Hdisj.
  { intros d [->| ->]%Hdeps; split; decide_by_computation. }
  split_and!; [done..|].
  destruct getDependencies_spec as (_ & _ & Hread).
  destruct (Hread indexReq indexResult requestedGraph asset1 Hnd Hreach Hkeyed Ha
              Hold Hids Hdisj) as (ds & Hrun & Hds).
  exists ds. split_and!; [done| |].
  - apply Hds. by left.
  - apply Hds. right. by left.
Defined.

Lemma mergeConfigs_spec_witness :
  (missingOrEmpty (presets envPreset) = false ∨ missingOrEmpty (plugins envPreset) = false)
  ∧ mergeConfigs None (Some envPreset) = Some envPreset
  ∧ missingOrEmpty (presets (mkBabelConfig (Some []) None)) = true
  ∧ mergeConfigs (Some envPreset) (Some (mkBabelConfig (Some []) None)) = Some envPreset
  ∧ orEmpty (mergeConfigs (Some envPreset) (Some flowPlugin) ≫= plugins)
    = [JSString "@babel/plugin-transform-flow-strip-types"].
Proof.
  destruct mergeConfigs_spec as (_ & Hempty & Hnone & Hcat & _).
  split_and!.
  - by left.
  - apply Hnone. by left.
  - done.
  - by apply Hempty.
  - by destruct (Hcat (Some envPreset) (Some flowPlugin)) as [_ ->].
Defined.

Lemma getFlowConfig_spec_witness :
  flowComment "/**"
  ∧ (String.length "/**" + 1 + 5 ≤ 20)%nat
  ∧ is_Some (getFlowConfig JSNull "/** @flow */ const x = 1;")
  ∧ (∀ opener m rest, flowComment opener →
       "//               @flow" = opener +:+ replicate_char m " " +:+ "@flow" +:+ rest →
       ¬ (String.length opener + m + 5 ≤ 20)%nat).
Proof.
  assert (flowComment "/**") as Hopen by (right; by exists 1).
  assert (String.length "/**" + 1 + 5 ≤ 20)%nat as Hlen by (vm_compute; lia).
  split_and!; [done..| |].
  - apply (getFlowConfig_spec JSNull "/** @flow */ const x = 1;").
    exists "/**", 1, " */ const x = 1;". by split_and!.
  - intros opener m rest Hop Hcode Hle.
    assert (is_Some (getFlowConfig JSNull "//               @flow")) as [cfg Hcfg].
    { apply (getFlowConfig_spec JSNull "//               @flow").
      by exists opener, m, rest. }
    vm_compute in Hcfg. discriminate Hcfg.
Defined.

Lemma graph_invariants_witness :
  keyed requestedGraph ∧ closed requestedGraph
  ∧ keyed transformedGraph ∧ closed transformedGraph
  ∧ closed (state_of (resolveConfigRequest renameResult babelRequestNode requestedGraph)).
Proof.
  assert (keyed requestedGraph) as Hk by (apply keyed_entries; decide_by_computation).
  assert (closed requestedGraph) as Hc by (apply closed_entries; decide_by_computation).
  destruct graph_invariants as [_ Hkeep].
  destruct (Hkeep requestedGraph Hk Hc) as (_ & _ & Htransform & _ & Hconfig & _).
  split_and!; [done|done| | |].
  - apply (Htransform indexReq indexResult).
  - apply (Htransform indexReq indexResult).
  - apply (Hconfig renameResult babelRequestNode).
Defined.

Lemma config_invalidation_reaches_request_witness :
  keyed askedGraph ∧ closed askedGraph
  ∧ (∀ j, j ∈ default [] (invalidations babelResult) →
          action j ∈ ["change"; "add"; "unlink"])
  ∧ ∃ g', respondToFSChange "change" babelrc
            (state_of (resolveConfigRequest babelResult babelRequestNode askedGraph))
          = Ok tt g'
      ∧ JSMap.has (node_id babelRequestNode) (invalidNodes g') = true.
Proof.
  assert (keyed askedGraph) as Hk by (apply keyed_entries; decide_by_computation).
  assert (closed askedGraph) as Hc by (apply closed_entries; decide_by_computation).
  assert (∀ j, j ∈ default [] (invalidations babelResult) →
               action j ∈ ["change"; "add"; "unlink"]) as Hrec.
  { apply Forall_forall. decide_by_computation. }
  split_and!; [done..|].
  destruct (config_invalidation_reaches_request babelResult babelRequestNode askedGraph
              (mkInvalidation "change" babelrc) invalidated_by_change_to Hk Hc Hrec)
    as (g' & out & Hrun & Hreach); [by left|done|].
  rewrite Hrun. cbn [state_of].
  assert (g' = state_of (resolveConfigRequest babelResult babelRequestNode askedGraph))
    as Hg' by (by rewrite Hrun).
  destruct (Hreach babelRequestNode) as [_ Hmarked].
  { rewrite Hg'. by vm_compute. }
  apply Hmarked. rewrite Hg'. by vm_compute.
Defined.

Lemma resolveDependency_idempotent_witness :
  dep_id entryDep ≠ node_id (nodeFromTransformerRequest indexReq)
  ∧ reachableFromRoot entryGraph (dep_id entryDep) = true
  ∧ resolveDependency entryDep indexReq requestedGraph
    = (requestedGraph, mkDepUpdates None []).
Proof.
  assert (dep_id entryDep ≠ node_id (nodeFromTransformerRequest indexReq)) as Hne
    by decide_by_computation.
  assert (reachableFromRoot entryGraph (dep_id entryDep) = true) as Hreach
    by (by vm_compute).
  split_and!; [done..|].
  apply (resolveDependency_idempotent entryDep indexReq entryGraph Hne Hreach).
Defined.

Lemma resolveConfigRequest_idempotent_witness :
  (∀ i, i ∈ default [] (invalidations fullResult) → action i ∈ ["change"; "add"; "unlink"])
  ∧ (∀ d, d ∈ devDepRequests fullResult →
          node_id (nodeFromDevDepRequest d) ≠ node_id babelRequestNode)
  ∧ ∃ g' out, resolveConfigRequest fullResult babelRequestNode askedGraph = Ok out g'
      ∧ resolveConfigRequest fullResult babelRequestNode g' = Ok out g'.
Proof.
  assert (∀ i, i ∈ default [] (invalidations fullResult) →
               action i ∈ ["change"; "add"; "unlink"]) as Hrec.
  { apply Forall_forall. decide_by_computation. }
  assert (∀ d, d ∈ devDepRequests fullResult →
               node_id (nodeFromDevDepRequest d) ≠ node_id babelRequestNode) as Hids.
  { apply Forall_forall. decide_by_computation. }
  split_and!; [done..|].
  apply (resolveConfigRequest_idempotent fullResult babelRequestNode askedGraph Hrec Hids).
Defined.

Lemma linked_dev_dep_request_has_no_action_node_witness :
  JSString "@babel/core" ∈ devDepRequests devDepResult
  ∧ (∀ e, e ∈ edges askedGraph → edge_to e = node_id devDepNode → edge_type e ≠ None)
  ∧ node_id devDepNode ≠ node_id (nodeFromConfig (config devDepResult))
  ∧ (∃ out g', resolveConfigRequest devDepResult babelRequestNode askedGraph = Ok out g'
       ∧ getNodesConnectedTo devDepNode None g' = []
       ∧ throws (invalidateNode devDepNode g') = true
       ∧ JSMap.keys (invalidNodes (state_of (invalidateNode devDepNode g')))
         = [node_id devDepNode]).
Proof.
  assert (JSString "@babel/core" ∈ devDepRequests devDepResult) as Hd by (by left).
  assert (∀ e, e ∈ edges askedGraph → edge_to e = node_id devDepNode → edge_type e ≠ None)
    as Hnone.
  { apply (proj1 (Forall_forall (λ e, edge_to e = node_id devDepNode → edge_type e ≠ None)
                                (edges askedGraph))).
    decide_by_computation. }
  assert (node_id devDepNode ≠ node_id (nodeFromConfig (config devDepResult))) as Hcfg
    by decide_by_computation.
  split_and!; [done..|].
  set (g' := state_of (resolveConfigRequest devDepResult babelRequestNode askedGraph)).
  assert (resolveConfigRequest devDepResult babelRequestNode askedGraph
          = Ok [devDepNode] g') as Hrun by (by vm_compute).
  exists [devDepNode], g'. split; [done|].
  destruct (linked_dev_dep_request_has_no_action_node devDepResult babelRequestNode
              askedGraph (JSString "@babel/core") Hd Hnone Hcfg [devDepNode] g' Hrun)
    as (_ & Hparents & Hthrow).
  unfold devDepNode. split_and!.
  - exact Hparents.
  - by rewrite Hthrow.
  - rewrite Hthrow. by vm_compute.
Defined.

End WorkedCases.
